(** * Chunked voxel world of [game.js]: model and verification

    The development follows the layout of [src/game.js]:

    - numbers of the chunk subsystem and spatial keys;
    - instanced meshes, chunk records, capacity growth;
    - the two global maps [chunks] and [chunkData], block edits, chunk
      loading, unloading and streaming;
    - picking blocks with the mouse, the ghost cube, the grid tiles and
      the gray planes;
    - the capsule against unit cubes, the player's part of a frame and the
      keyboard.

    Modelling conventions.

    - The chunk subsystem only floors, compares, multiplies by sixteen and
      adds one half.  Its numbers are modelled as canonical rationals [Qc]:
      every value the program computes there is an integer or a
      half-integer, which a double and the [Float32Array] behind an
      instanced mesh represent exactly (below 2^23).
    - The collision code takes square roots; its numbers are modelled as
      real numbers [R].  Rounding is not modelled.
    - The template string [`${a},${b},${c}`] of three integers is modelled
      as the triple [(a, b, c)]: both are injective in the three integers.
    - A JavaScript [Map] is a [gmap]; the record fields indexed by the
      block type ([rec.counts[type]] ...) are a two-field record [PerType].
    - [scene.add] / [scene.remove] and the [needsUpdate] flags belong to
      the renderer and are not modelled: a mesh is in the scene exactly
      when a resident record holds it.
    - [Raycaster.intersectObjects] and [applyQuaternion(camera.quaternion)]
      belong to the library: the models take them as parameters, and the
      theorems say what they assume of them.
    - An execution is a value of [run]: it returns ([Ok]), raises a
      JavaScript exception ([Throws]: a property of [null] is read), or it
      goes on with [undefined], a negative index, a sparse array or an
      out-of-range typed-array read ([Unmodelled]); the theorems show that
      executions from the initial world return. *)

From Stdlib Require Import ZArith QArith Qcanon Qround Reals Lra Lia.
From Stdlib Require Lqa.
From stdpp Require Import base numbers option list strings gmap fin_maps.

Set Default Proof Using "Type".

(** ** Executions *)

Inductive run (A : Type) : Type :=
  | Ok (a : A)
  | Throws
  | Unmodelled.
Arguments Ok {A} a.
Arguments Throws {A}.
Arguments Unmodelled {A}.

Global Instance run_ret : MRet run := λ A a, Ok a.
Global Instance run_bind : MBind run := λ A B f m,
  match m with
  | Ok a => f a
  | Throws => Throws
  | Unmodelled => Unmodelled
  end.

Definition returns {A} (m : run A) : Prop := ∃ a, m = Ok a.

(** The value a JavaScript call evaluates to. *)
Inductive jsval : Type :=
  | JSundefined
  | JSbool (b : bool).

(** ** Numbers and spatial keys *)

Abbreviation num := Qc (only parsing).

Definition ofZ (z : Z) : num := Qc_of_Z z.
Definition half : num := Q2Qc (1 # 2).

(** [Math.floor] *)
Definition floor (v : num) : Z := Qfloor v.

Definition cubeSize : num := 1%Qc.
Definition CHUNK_SIZE : Z := 16.
Definition RENDER_DISTANCE : Z := 2.

(** An object literal [{ x, y, z }]. *)
Record Pos : Type := mkPos { px : num; py : num; pz : num }.

Abbreviation Key := (Z * Z * Z)%type (only parsing).

Definition getChunkKey (pos : Pos) : Key :=
  (floor (px pos / ofZ CHUNK_SIZE)%Qc,
   floor (py pos / ofZ CHUNK_SIZE)%Qc,
   floor (pz pos / ofZ CHUNK_SIZE)%Qc).

Definition getChunkKeyFromCoords (cx cy cz : Z) : Key := (cx, cy, cz).

Definition getCellKey (pos : Pos) : Key :=
  (floor (px pos), floor (py pos), floor (pz pos)).

Definition snapToGrid (v : num) : num :=
  (ofZ (floor (v / cubeSize)) * cubeSize + cubeSize / (1 + 1))%Qc.

(** The target of a placement in the mouse handler:
    [pos = hitPos.clone().addScaledVector(normal, cubeSize)], then every
    coordinate snapped. *)
Definition placementTarget (hitPos normal : Pos) : Pos :=
  mkPos (snapToGrid (px hitPos + px normal * cubeSize))
        (snapToGrid (py hitPos + py normal * cubeSize))
        (snapToGrid (pz hitPos + pz normal * cubeSize)).

(** The position of an integer cell, as [getChunkRecordAtCell] and the
    collision loops pass it. *)
Definition cellPos (x y z : Z) : Pos := mkPos (ofZ x) (ofZ y) (ofZ z).

(** ** Instanced meshes and chunk records *)

Inductive BlockType : Type := green | brown.

Global Instance BlockType_eq_dec : EqDecision BlockType.
Proof. solve_decision. Defined.

(** A JavaScript object [{ green: _, brown: _ }]. *)
Record PerType (A : Type) : Type := mkPerType { at_green : A; at_brown : A }.
Arguments mkPerType {A} _ _.
Arguments at_green {A} _.
Arguments at_brown {A} _.

Definition sel {A} (t : BlockType) (p : PerType A) : A :=
  match t with green => at_green p | brown => at_brown p end.

Definition upd {A} (t : BlockType) (v : A) (p : PerType A) : PerType A :=
  match t with
  | green => mkPerType v (at_brown p)
  | brown => mkPerType (at_green p) v
  end.

(** A [THREE.Matrix4]: its sixteen elements, column after column. *)
Definition Matrix4 : Type := list Qc.

Definition zeroMatrix : Matrix4 := replicate 16 0%Qc.

(** [Matrix4.makeTranslation(x, y, z)] *)
Definition makeTranslation (x y z : Qc) : Matrix4 :=
  [1; 0; 0; 0;  0; 1; 0; 0;  0; 0; 1; 0;  x; y; z; 1]%Qc.

(** [Vector3.setFromMatrixPosition(m)]: elements 12, 13 and 14. *)
Definition setFromMatrixPosition (m : Matrix4) : Pos :=
  mkPos (nth 12 m 0%Qc) (nth 13 m 0%Qc) (nth 14 m 0%Qc).

(** A [THREE.InstancedMesh]: the number of instances drawn and the
    instance matrices, one per unit of capacity (the [Float32Array] of
    [16 * capacity] zeros, sixteen by sixteen). *)
Record InstancedMesh : Type := mkMesh {
  material : BlockType;
  count : nat;
  instanceMatrix : list Matrix4
}.

Definition createInstancedMesh (mat : BlockType) (capacity : nat) : InstancedMesh :=
  {| material := mat; count := 0; instanceMatrix := replicate capacity zeroMatrix |}.

(** [mesh.getMatrixAt(i, tmpMat)]; past the end the typed array reads
    [undefined]. *)
Definition getMatrixAt (mesh : InstancedMesh) (i : nat) : run Matrix4 :=
  match instanceMatrix mesh !! i with
  | Some m => Ok m
  | None => Unmodelled
  end.

(** [mesh.setMatrixAt(i, m)]; a typed array drops a store past its end.
    The matrix is kept as given: the [Float32Array] holds the numbers the
    program writes, centres of cells, without rounding (below 2^23), and
    the rounding of other numbers is not modelled. *)
Definition setMatrixAt (mesh : InstancedMesh) (i : nat) (m : Matrix4) : InstancedMesh :=
  {| material := material mesh; count := count mesh;
     instanceMatrix := <[i := m]> (instanceMatrix mesh) |}.

Definition setCount (mesh : InstancedMesh) (n : nat) : InstancedMesh :=
  {| material := material mesh; count := n; instanceMatrix := instanceMatrix mesh |}.

(** [arr[i] = v] on a JavaScript array: replaces inside, appends at the
    end, leaves holes beyond. *)
Definition arraySet {A} (arr : list A) (i : nat) (v : A) : run (list A) :=
  if decide (i < length arr) then Ok (<[i := v]> arr)
  else if decide (i = length arr) then Ok (arr ++ [v])
  else Unmodelled.

(** [arr[i]]; [undefined] past the end. *)
Definition arrayGet {A} (arr : list A) (i : nat) : run A :=
  match arr !! i with
  | Some v => Ok v
  | None => Unmodelled
  end.

(** [arr.length = n]: truncates; a larger [n] leaves holes. *)
Definition arraySetLength {A} (arr : list A) (n : nat) : run (list A) :=
  if decide (n ≤ length arr) then Ok (take n arr) else Unmodelled.

Record ChunkRecord : Type := mkRecord {
  occupancy : gmap (Z * Z * Z) BlockType;
  meshes : PerType (option InstancedMesh);
  indexMaps : PerType (gmap (Z * Z * Z) nat);
  cellsByIndex : PerType (list (Z * Z * Z));
  counts : PerType nat;
  capacities : PerType nat
}.

Definition makeEmptyChunkRecord : ChunkRecord :=
  {| occupancy := ∅;
     meshes := mkPerType None None;
     indexMaps := mkPerType ∅ ∅;
     cellsByIndex := mkPerType [] [];
     counts := mkPerType 0 0;
     capacities := mkPerType 0 0 |}.

Definition withOccupancy (v : gmap (Z * Z * Z) BlockType) (r : ChunkRecord) :=
  mkRecord v (meshes r) (indexMaps r) (cellsByIndex r) (counts r) (capacities r).
Definition withMesh (t : BlockType) (v : option InstancedMesh) (r : ChunkRecord) :=
  mkRecord (occupancy r) (upd t v (meshes r)) (indexMaps r) (cellsByIndex r)
           (counts r) (capacities r).
Definition withIndexMap (t : BlockType) (v : gmap (Z * Z * Z) nat) (r : ChunkRecord) :=
  mkRecord (occupancy r) (meshes r) (upd t v (indexMaps r)) (cellsByIndex r)
           (counts r) (capacities r).
Definition withCells (t : BlockType) (v : list (Z * Z * Z)) (r : ChunkRecord) :=
  mkRecord (occupancy r) (meshes r) (indexMaps r) (upd t v (cellsByIndex r))
           (counts r) (capacities r).
Definition withCount (t : BlockType) (v : nat) (r : ChunkRecord) :=
  mkRecord (occupancy r) (meshes r) (indexMaps r) (cellsByIndex r)
           (upd t v (counts r)) (capacities r).
Definition withCapacity (t : BlockType) (v : nat) (r : ChunkRecord) :=
  mkRecord (occupancy r) (meshes r) (indexMaps r) (cellsByIndex r)
           (counts r) (upd t v (capacities r)).

(** [record.meshes[type]], to read a property of it. *)
Definition meshOf (r : ChunkRecord) (t : BlockType) : run InstancedMesh :=
  match sel t (meshes r) with
  | Some m => Ok m
  | None => Throws
  end.

(** The copy loop of [ensureCapacityForType]:
    [for (i = from; i < from + n; i++) newMesh.setMatrixAt(i, oldMesh.getMatrixAt(i))] *)
Fixpoint copyMatrices (oldMesh newMesh : InstancedMesh) (from n : nat) : run InstancedMesh :=
  match n with
  | O => Ok newMesh
  | S n' =>
      m ← getMatrixAt oldMesh from;
      copyMatrices oldMesh (setMatrixAt newMesh from m) (S from) n'
  end.

Definition ensureCapacityForType (record : ChunkRecord) (type : BlockType) (needed : nat)
  : run ChunkRecord :=
  if decide (needed ≤ sel type (capacities record)) then Ok record
  else
    let newCapacity := needed `max` (8 `max` (sel type (capacities record) * 2)) in
    let oldMesh := sel type (meshes record) in
    let newMesh := createInstancedMesh type newCapacity in
    newMesh ← match oldMesh with
              | Some old =>
                  m ← copyMatrices old newMesh 0 (sel type (counts record));
                  Ok (setCount m (sel type (counts record)))
              | None => Ok newMesh
              end;
    Ok (withCapacity type newCapacity (withMesh type (Some newMesh) record)).

Definition setInstanceAt (record : ChunkRecord) (type : BlockType) (idx : nat) (x y z : Qc)
  : run ChunkRecord :=
  mesh ← meshOf record type;
  Ok (withMesh type (Some (setMatrixAt mesh idx (makeTranslation x y z))) record).

(** ** The chunk store *)

(** The two global maps; an element [[x, y, z, type]] of a chunk's
    persistent array is a quadruple. *)
Record World : Type := mkWorld {
  chunks : gmap (Z * Z * Z) ChunkRecord;
  chunkData : gmap (Z * Z * Z) (list (Qc * Qc * Qc * BlockType))
}.

Definition initialWorld : World := {| chunks := ∅; chunkData := ∅ |}.

(** The first loop of [buildChunkFromArray]: fills the occupancy and
    separates the entries by type. *)
Fixpoint separate (arr : list (Qc * Qc * Qc * BlockType)) (rec : ChunkRecord)
    (greens browns : list (Qc * Qc * Qc * (Z * Z * Z)))
  : ChunkRecord * list (Qc * Qc * Qc * (Z * Z * Z)) * list (Qc * Qc * Qc * (Z * Z * Z)) :=
  match arr with
  | [] => (rec, greens, browns)
  | (x, y, z, type) :: arr' =>
      let ck := getCellKey (mkPos x y z) in
      let rec := withOccupancy (<[ck := type]> (occupancy rec)) rec in
      match type with
      | green => separate arr' rec (greens ++ [(x, y, z, ck)]) browns
      | brown => separate arr' rec greens (browns ++ [(x, y, z, ck)])
      end
  end.

(** [items.forEach(([x, y, z, ck], i) => ...)], from index [i] on. *)
Fixpoint fillBatch (type : BlockType) (items : list (Qc * Qc * Qc * (Z * Z * Z)))
    (i : nat) (rec : ChunkRecord) : run ChunkRecord :=
  match items with
  | [] => Ok rec
  | (x, y, z, ck) :: items' =>
      rec ← setInstanceAt rec type i x y z;
      let rec := withIndexMap type (<[ck := i]> (sel type (indexMaps rec))) rec in
      cells ← arraySet (sel type (cellsByIndex rec)) i ck;
      fillBatch type items' (S i) (withCells type cells rec)
  end.

(** One of the two blocks [if (greens.length) { ... }] of
    [buildChunkFromArray]. *)
Definition buildBatch (type : BlockType) (items : list (Qc * Qc * Qc * (Z * Z * Z)))
    (rec : ChunkRecord) : run ChunkRecord :=
  if decide (length items = 0) then Ok rec
  else
    rec ← ensureCapacityForType rec type (length items);
    rec ← fillBatch type items 0 rec;
    let rec := withCount type (length items) rec in
    mesh ← meshOf rec type;
    Ok (withMesh type (Some (setCount mesh (sel type (counts rec)))) rec).

Definition buildRecord (arr : list (Qc * Qc * Qc * BlockType)) : run ChunkRecord :=
  let '(rec, greens, browns) := separate arr makeEmptyChunkRecord [] [] in
  rec ← buildBatch green greens rec;
  buildBatch brown browns rec.

Definition buildChunkFromArray (key : Z * Z * Z) (arr : list (Qc * Qc * Qc * BlockType))
    (w : World) : run World :=
  rec ← buildRecord arr;
  Ok {| chunks := <[key := rec]> (chunks w); chunkData := chunkData w |}.

Definition generateGroundArrayForChunk (cx cz : Z) : list (Qc * Qc * Qc * BlockType) :=
  x ← seqZ 0 CHUNK_SIZE;
  z ← seqZ 0 CHUNK_SIZE;
  let worldX := (ofZ cx * ofZ CHUNK_SIZE + ofZ x + half)%Qc in
  let worldZ := (ofZ cz * ofZ CHUNK_SIZE + ofZ z + half)%Qc in
  y ← seqZ 0 3;
  [(worldX, (ofZ y + half)%Qc, worldZ, green)].

Definition getChunkAtWorld (x y z : Qc) (w : World) : (Z * Z * Z) * option ChunkRecord :=
  let key := getChunkKey (mkPos x y z) in (key, chunks w !! key).

(** [getChunkRecordAtCell(x, y, z)], on the integers of the collision loops. *)
Definition getChunkRecordAtCell (x y z : Z) (w : World) : option ChunkRecord :=
  chunks w !! getChunkKey (cellPos x y z).

(** The block "Ensure capacity and write instance" of [addBlockAt]. *)
Definition writeInstance (rec : ChunkRecord) (type : BlockType) (x y z : Qc)
    (ck : Z * Z * Z) : run ChunkRecord :=
  rec ← ensureCapacityForType rec type (sel type (counts rec) + 1);
  let idx := sel type (counts rec) in
  rec ← setInstanceAt rec type idx x y z;
  cells ← arraySet (sel type (cellsByIndex rec)) idx ck;
  let rec := withCells type cells rec in
  let rec := withIndexMap type (<[ck := idx]> (sel type (indexMaps rec))) rec in
  let rec := withCount type (sel type (counts rec) + 1) rec in
  mesh ← meshOf rec type;
  Ok (withMesh type (Some (setCount mesh (sel type (counts rec)))) rec).

Definition addBlockAt (x y z : Qc) (type : BlockType) (w : World) : run (jsval * World) :=
  let '(key, rec) := getChunkAtWorld x y z w in
  match rec with
  | None => Ok (JSundefined, w)
  | Some rec =>
      let ck := getCellKey (mkPos x y z) in
      if decide (is_Some (occupancy rec !! ck)) then Ok (JSundefined, w)
      else
        (* Update logical data *)
        let rec := withOccupancy (<[ck := type]> (occupancy rec)) rec in
        (* Update persistent data: the array of the chunk, a new empty one
           if the chunk has none, with the entry pushed *)
        let arr := default [] (chunkData w !! key) in
        let data := <[key := arr ++ [(x, y, z, type)]]> (chunkData w) in
        rec ← writeInstance rec type x y z ck;
        Ok (JSundefined, {| chunks := <[key := rec]> (chunks w); chunkData := data |})
  end.

(** The test [!(c[0] === x && c[1] === y && c[2] === z)] of the filter. *)
Definition keepEntry (x y z : Qc) (c : Qc * Qc * Qc * BlockType) : Prop :=
  ¬ (c.1.1.1 = x ∧ c.1.1.2 = y ∧ c.1.2 = z).

Global Instance keepEntry_dec x y z c : Decision (keepEntry x y z c).
Proof. unfold keepEntry. apply _. Defined.

(** The blocks "Swap-remove from InstancedMesh" and "Clean maps" of
    [removeBlockAt]; [last] is [rec.counts[type] - 1], which is [-1] on an
    empty batch. *)
Definition swapRemove (rec : ChunkRecord) (type : BlockType) (ck : Z * Z * Z)
  : run ChunkRecord :=
  match sel type (indexMaps rec) !! ck, sel type (counts rec) with
  | None, _ => Unmodelled
  | Some _, O => Unmodelled
  | Some idx, S last =>
      rec ← (if decide (idx ≠ last) then
               (* Move last instance into idx *)
               mesh ← meshOf rec type;
               m ← getMatrixAt mesh last;
               let rec := withMesh type (Some (setMatrixAt mesh idx m)) rec in
               lastCell ← arrayGet (sel type (cellsByIndex rec)) last;
               cells ← arraySet (sel type (cellsByIndex rec)) idx lastCell;
               let rec := withCells type cells rec in
               Ok (withIndexMap type (<[lastCell := idx]> (sel type (indexMaps rec))) rec)
             else Ok rec);
      let rec := withCount type last rec in
      mesh ← meshOf rec type;
      let rec := withMesh type (Some (setCount mesh (sel type (counts rec)))) rec in
      (* Clean maps *)
      let rec := withIndexMap type (delete ck (sel type (indexMaps rec))) rec in
      cells ← arraySetLength (sel type (cellsByIndex rec)) (sel type (counts rec));
      let rec := withCells type cells rec in
      Ok (withOccupancy (delete ck (occupancy rec)) rec)
  end.

Definition removeBlockAt (x y z : Qc) (w : World) : run (jsval * World) :=
  let '(key, rec) := getChunkAtWorld x y z w in
  match rec with
  | None => Ok (JSundefined, w)
  | Some rec =>
      let ck := getCellKey (mkPos x y z) in
      match occupancy rec !! ck with
      | None => Ok (JSundefined, w)
      | Some type =>
          rec ← swapRemove rec type ck;
          (* Update persistent data *)
          let data := match chunkData w !! key with
                      | Some arr => <[key := filter (keepEntry x y z) arr]> (chunkData w)
                      | None => chunkData w
                      end in
          Ok (JSundefined, {| chunks := <[key := rec]> (chunks w); chunkData := data |})
      end
  end.

Definition loadOrGenerateChunk (cx cz : Z) (w : World) : run World :=
  let key := getChunkKeyFromCoords cx 0 cz in
  if decide (is_Some (chunks w !! key)) then Ok w
  else
    match chunkData w !! key with
    | Some arr => buildChunkFromArray key arr w
    | None =>
        let arr := generateGroundArrayForChunk cx cz in
        buildChunkFromArray key arr
          {| chunks := chunks w; chunkData := <[key := arr]> (chunkData w) |}
    end.

Definition unloadChunk (key : Z * Z * Z) (w : World) : World :=
  match chunks w !! key with
  | None => w
  | Some _ => {| chunks := delete key (chunks w); chunkData := chunkData w |}
  end.

(** The offsets [-RENDER_DISTANCE .. RENDER_DISTANCE] of the two loops. *)
Definition offsets : list (Z * Z) :=
  dx ← seqZ (- RENDER_DISTANCE) (2 * RENDER_DISTANCE + 1);
  dz ← seqZ (- RENDER_DISTANCE) (2 * RENDER_DISTANCE + 1);
  [(dx, dz)].

(** The loading loops of [updateChunks], over the offsets left to visit. *)
Fixpoint loadAround (pcx pcz : Z) (ds : list (Z * Z)) (active : gset (Z * Z * Z))
    (w : World) : run (gset (Z * Z * Z) * World) :=
  match ds with
  | [] => Ok (active, w)
  | (dx, dz) :: ds' =>
      let cx := (pcx + dx)%Z in
      let cz := (pcz + dz)%Z in
      let key := getChunkKeyFromCoords cx 0 cz in
      let active := active ∪ {[key]} in
      w ← (if decide (is_Some (chunks w !! key)) then Ok w else loadOrGenerateChunk cx cz w);
      loadAround pcx pcz ds' active w
  end.

(** [for (const [key] of chunks) if (!active.has(key)) unloadChunk(key)];
    a [Map] may lose entries while it is iterated, and the order of the
    keys does not matter to the result. *)
Definition unloadFar (active : gset (Z * Z * Z)) (w : World) : World :=
  foldl (λ w key, if decide (key ∈ active) then w else unloadChunk key w)
        w (map_to_list (chunks w)).*1.

(** [updateChunks()], with [camera.position.x] and [camera.position.z]. *)
Definition updateChunks (camx camz : Qc) (w : World) : run World :=
  let pcx := floor (camx / ofZ CHUNK_SIZE)%Qc in
  let pcz := floor (camz / ofZ CHUNK_SIZE)%Qc in
  '(active, w) ← loadAround pcx pcz offsets ∅ w;
  Ok (unloadFar active w).

(** ** Picking blocks

    The meshes handed to the raycaster, the centre of an instance, the
    mouse handler and the ghost cube.  [Raycaster.intersectObjects] is a
    parameter [raycast] of the models: the function from the objects
    given to the array of intersections along the ray of the event. *)

(** [if (rec.meshes[t] && rec.counts[t] > 0) nearby.push(rec.meshes[t])] *)
Definition pushIfDrawn (rec : ChunkRecord) (t : BlockType) : list InstancedMesh :=
  match sel t (meshes rec) with
  | Some mesh => if decide (0 < sel t (counts rec)) then [mesh] else []
  | None => []
  end.

(** [getNearbyInstancedMeshes(range)], with [camera.position.x] and
    [camera.position.z]. *)
Definition getNearbyInstancedMeshes (range : Z) (camx camz : Qc) (w : World)
  : list InstancedMesh :=
  let pcx := floor (camx / ofZ CHUNK_SIZE)%Qc in
  let pcz := floor (camz / ofZ CHUNK_SIZE)%Qc in
  dx ← seqZ (- range) (2 * range + 1);
  dz ← seqZ (- range) (2 * range + 1);
  match chunks w !! getChunkKeyFromCoords (pcx + dx) 0 (pcz + dz) with
  | None => []
  | Some rec => pushIfDrawn rec green ++ pushIfDrawn rec brown
  end.

(** [getInstanceCenter(mesh, instanceId, outVec3)]; both callers pass a
    new vector. *)
Definition getInstanceCenter (mesh : InstancedMesh) (instanceId : nat) : run Pos :=
  m ← getMatrixAt mesh instanceId;
  Ok (setFromMatrixPosition m).

(** An element of the array of intersections: the fields [object],
    [instanceId] and [face.normal], which the program reads. *)
Record Intersection : Type := mkIntersection {
  object : InstancedMesh;
  instanceId : nat;
  faceNormal : Pos
}.

(** The fields [visible] and [position] of the ghost cube, of a grid tile
    and of a gray plane. *)
Record Object3D : Type := mkObject3D { visible : bool; position : Pos }.

(** The [mousedown] listener, with [e.button]. *)
Definition onMouseDown (raycast : list InstancedMesh → list Intersection) (button : Z)
    (camx camz : Qc) (w : World) : run World :=
  let intersects := raycast (getNearbyInstancedMeshes 2 camx camz w) in
  match intersects with
  | [] => Ok w
  | hit :: _ =>
      hitPos ← getInstanceCenter (object hit) (instanceId hit);
      if decide (button = 2%Z) then
        (* place: move one unit along face normal and snap *)
        let pos := placementTarget hitPos (faceNormal hit) in
        '(_, w) ← addBlockAt (px pos) (py pos) (pz pos) brown w;
        Ok w
      else if decide (button = 0%Z) then
        (* destroy block *)
        '(_, w) ← removeBlockAt (px hitPos) (py hitPos) (pz hitPos) w;
        Ok w
      else Ok w
  end.

(** [updateGhostCube()], with [controls.isLocked] and [ghostEnabled]. *)
Definition updateGhostCube (raycast : list InstancedMesh → list Intersection)
    (isLocked ghostEnabled : bool) (camx camz : Qc) (w : World) (ghostCube : Object3D)
  : run Object3D :=
  if negb isLocked || negb ghostEnabled then Ok (mkObject3D false (position ghostCube))
  else
    let intersects := raycast (getNearbyInstancedMeshes 2 camx camz w) in
    match intersects with
    | [] => Ok (mkObject3D false (position ghostCube))
    | hit :: _ =>
        hitPos ← getInstanceCenter (object hit) (instanceId hit);
        Ok (mkObject3D true (placementTarget hitPos (faceNormal hit)))
    end.

(** ** Grid tiles and gray planes *)

Definition GRID_TILE_SIZE : Z := 64.
Definition GRID_HEIGHT : Z := 3.
Definition GRAY_PLANE_Y : Z := GRID_HEIGHT - 3.
Definition planeSize : Z := GRID_TILE_SIZE.

(** The offsets [(dx, dz)] of the two loops over [-1 .. 1]. *)
Definition tileOffsets : list (Z * Z) :=
  dx ← seqZ (-1) 3; dz ← seqZ (-1) 3; [(dx, dz)].

(** The nine grid tiles and the nine gray planes as they are created
    around the origin. *)
Definition gridTiles0 : list Object3D :=
  '(dx, dz) ← tileOffsets;
  [mkObject3D false
     (mkPos (ofZ (dx * GRID_TILE_SIZE)) (ofZ GRID_HEIGHT) (ofZ (dz * GRID_TILE_SIZE)))].

Definition solidGrayPlanes0 : list Object3D :=
  '(dx, dz) ← tileOffsets;
  [mkObject3D true (mkPos (ofZ (dx * planeSize)) (ofZ GRAY_PLANE_Y) (ofZ (dz * planeSize)))].

(** The two loops of [updateGridTiles] and of [updateSolidGrayPlanes] over
    the offsets left, with the running index [i]: [tiles[i].position.x]
    and [tiles[i].position.z] are assigned; past the end [tiles[i]] is
    [undefined] and the assignment raises. *)
Fixpoint placeTiles (size pcx pcz : Z) (ds : list (Z * Z)) (i : nat) (tiles : list Object3D)
  : run (list Object3D) :=
  match ds with
  | [] => Ok tiles
  | (dx, dz) :: ds' =>
      match tiles !! i with
      | None => Throws
      | Some g =>
          let g := mkObject3D (visible g)
                     (mkPos (ofZ ((pcx + dx) * size)) (py (position g))
                            (ofZ ((pcz + dz) * size))) in
          placeTiles size pcx pcz ds' (S i) (<[i := g]> tiles)
      end
  end.

Definition updateGridTiles (camx camz : Qc) (gridTiles : list Object3D)
  : run (list Object3D) :=
  let pcx := floor (camx / ofZ GRID_TILE_SIZE)%Qc in
  let pcz := floor (camz / ofZ GRID_TILE_SIZE)%Qc in
  placeTiles GRID_TILE_SIZE pcx pcz tileOffsets 0 gridTiles.

Definition updateSolidGrayPlanes (camx camz : Qc) (solidGrayPlanes : list Object3D)
  : run (list Object3D) :=
  let pcx := floor (camx / ofZ planeSize)%Qc in
  let pcz := floor (camz / ofZ planeSize)%Qc in
  placeTiles planeSize pcx pcz tileOffsets 0 solidGrayPlanes.

(** ** Collision

    The methods of [THREE.Vector3], [THREE.Box3] and [Capsule] used by
    [game.js], over the reals.  Most of them update their receiver in
    place and return it; the vectors the collision code shares are
    therefore kept in a store, addressed by the name of the object. *)

Record Vector3 : Type := mkVector3 { vx : R; vy : R; vz : R }.

Open Scope R_scope.

Definition vzero : Vector3 := mkVector3 0 0 0.
Definition vadd (a b : Vector3) : Vector3 :=
  mkVector3 (vx a + vx b) (vy a + vy b) (vz a + vz b).
Definition vsub (a b : Vector3) : Vector3 :=
  mkVector3 (vx a - vx b) (vy a - vy b) (vz a - vz b).
Definition multiplyScalar (v : Vector3) (s : R) : Vector3 :=
  mkVector3 (vx v * s) (vy v * s) (vz v * s).
Definition addScalar (v : Vector3) (s : R) : Vector3 :=
  mkVector3 (vx v + s) (vy v + s) (vz v + s).
Definition subScalar (v : Vector3) (s : R) : Vector3 :=
  mkVector3 (vx v - s) (vy v - s) (vz v - s).
Definition dot (a b : Vector3) : R := vx a * vx b + vy a * vy b + vz a * vz b.
Definition vlength (v : Vector3) : R := sqrt (vx v * vx v + vy v * vy v + vz v * vz v).

(** [divideScalar(s)] is [multiplyScalar(1 / s)]. *)
Definition divideScalar (v : Vector3) (s : R) : Vector3 := multiplyScalar v (1 / s).

(** The divisor [this.length() || 1] of [normalize]. *)
Definition lengthOr1 (v : Vector3) : R :=
  if Req_dec_T (vlength v) 0 then 1 else vlength v.

Definition normalize (v : Vector3) : Vector3 := divideScalar v (lengthOr1 v).

Definition distanceTo (a b : Vector3) : R := vlength (vsub a b).

Record Box3 : Type := mkBox3 { bmin : Vector3; bmax : Vector3 }.

(** [Box3.setFromCenterAndSize(center, size)] *)
Definition setFromCenterAndSize (center size : Vector3) : Box3 :=
  let halfSize := multiplyScalar size (1 / 2) in
  mkBox3 (vsub center halfSize) (vadd center halfSize).

(** [Box3.clampPoint(point, target)]: [target.copy(point).clamp(min, max)],
    each coordinate [Math.max(min, Math.min(max, v))]. *)
Definition clampPoint (box : Box3) (p : Vector3) : Vector3 :=
  mkVector3 (Rmax (vx (bmin box)) (Rmin (vx (bmax box)) (vx p)))
            (Rmax (vy (bmin box)) (Rmin (vy (bmax box)) (vy p)))
            (Rmax (vz (bmin box)) (Rmin (vz (bmax box)) (vz p))).

Record Capsule : Type := mkCapsule { cstart : Vector3; cend : Vector3; cradius : R }.

(** [Capsule.translate(v)]: [start.add(v); end.add(v)] *)
Definition translate (c : Capsule) (v : Vector3) : Capsule :=
  mkCapsule (vadd (cstart c) v) (vadd (cend c) v) (cradius c).

(** The vector objects of the collision code: the four module-level
    temporaries and the object [pushDir] that [tmpVec.clone()] creates. *)
Inductive vref : Type := TmpVec | TmpVec2 | TmpClosest | TmpPos | PushDir.

Global Instance vref_eq_dec : EqDecision vref.
Proof. solve_decision. Defined.

Definition vstore : Type := vref → Vector3.

Definition vset (s : vstore) (r : vref) (v : Vector3) : vstore :=
  λ r', if decide (r' = r) then v else s r'.

(** The object [{ correction: _, normal: _ }]: two references. *)
Record Correction : Type := mkCorrection { correction : vref; normal : vref }.

Definition steps : nat := 5.

(** The body of the sampling loop of [capsuleIntersectCorrection], for the
    samples left to try; [segLen] and [tmpVec2] are set before. *)
Fixpoint scanSamples (capsule : Capsule) (box : Box3) (segLen : R) (samples : list nat)
    (s : vstore) : vstore * option Correction :=
  match samples with
  | [] => (s, None)
  | i :: samples' =>
      (* tmpVec.copy(tmpVec2).multiplyScalar((i / steps) * segLen).add(capsule.start) *)
      let s := vset s TmpVec
                 (vadd (multiplyScalar (s TmpVec2) (INR i / INR steps * segLen))
                       (cstart capsule)) in
      (* box.clampPoint(tmpVec, tmpClosest) *)
      let s := vset s TmpClosest (clampPoint box (s TmpVec)) in
      let dist := distanceTo (s TmpClosest) (s TmpVec) in
      if Rlt_dec dist (cradius capsule) then
        (* pushDir = tmpVec.clone().sub(tmpClosest).normalize() *)
        let s := vset s PushDir (normalize (vsub (s TmpVec) (s TmpClosest))) in
        (* pushDir.multiplyScalar(capsule.radius - dist) scales [pushDir]
           itself and evaluates to it: both properties are that object *)
        let s := vset s PushDir (multiplyScalar (s PushDir) (cradius capsule - dist)) in
        (s, Some {| correction := PushDir; normal := PushDir |})
      else scanSamples capsule box segLen samples' s
  end.

Definition capsuleIntersectCorrection (capsule : Capsule) (box : Box3) (s : vstore)
  : vstore * option Correction :=
  (* tmpVec2.subVectors(capsule.end, capsule.start) *)
  let s := vset s TmpVec2 (vsub (cend capsule) (cstart capsule)) in
  let segLen := vlength (s TmpVec2) in
  (* tmpVec2.normalize() *)
  let s := vset s TmpVec2 (normalize (s TmpVec2)) in
  scanSamples capsule box segLen (seq 0 (S steps)) s.

(** The centre of the cell [(x, y, z)] and its unit cube, as
    [resolveCollisions] sets [tmpPos] and [tmpBox]. *)
Definition cellCentre (x y z : Z) : Vector3 :=
  mkVector3 (IZR x + 5 / 10) (IZR y + 5 / 10) (IZR z + 5 / 10).

Definition cellBox (x y z : Z) : Box3 :=
  setFromCenterAndSize (cellCentre x y z) (mkVector3 1 1 1).

(** The state of the collision pass: the player's capsule, the velocity
    and the shared vectors. *)
Record Body : Type := mkBody { collider : Capsule; velocity : Vector3; temps : vstore }.

(** [const result = capsuleIntersectCorrection(playerCollider, tmpBox);
     if (result) { playerCollider.translate(result.correction);
                   vel.sub(result.normal.clone().multiplyScalar(vel.dot(result.normal))) }] *)
Definition collideBox (box : Box3) (b : Body) : Body :=
  match capsuleIntersectCorrection (collider b) box (temps b) with
  | (s, Some result) =>
      let capsule := translate (collider b) (s (correction result)) in
      let vel := vsub (velocity b)
                      (multiplyScalar (s (normal result))
                                      (dot (velocity b) (s (normal result)))) in
      mkBody capsule vel s
  | (s, None) => mkBody (collider b) (velocity b) s
  end.

Definition capsuleRadius : R := 35 / 100.

(** [for (let v = Math.floor(lo); v <= Math.floor(hi); v++)] *)
Definition cellRange (lo hi : R) : list Z :=
  seqZ (Int_part lo) (Int_part hi - Int_part lo + 1).

(** The body of the three loops of [resolveCollisions]. *)
Definition visitCell (w : World) (c : Z * Z * Z) (st : gset (Z * Z * Z) * Body)
  : gset (Z * Z * Z) * Body :=
  let '(x, y, z) := c in
  let '(visited, b) := st in
  match getChunkRecordAtCell x y z w with
  | None => st
  | Some rec =>
      let ck := getCellKey (cellPos x y z) in
      if decide (ck ∈ visited) then st
      else
        let visited := visited ∪ {[ck]} in
        if decide (is_Some (occupancy rec !! ck)) then
          (* tmpBox.setFromCenterAndSize(tmpPos.set(x + 0.5, y + 0.5, z + 0.5),
                                         tmpVec.set(1, 1, 1)) *)
          let s := vset (temps b) TmpPos (cellCentre x y z) in
          let s := vset s TmpVec (mkVector3 1 1 1) in
          let tmpBox := setFromCenterAndSize (s TmpPos) (s TmpVec) in
          (visited, collideBox tmpBox (mkBody (collider b) (velocity b) s))
        else (visited, b)
  end.

Definition resolveCollisions (w : World) (b : Body) : Body :=
  let min := subScalar (cstart (collider b)) (capsuleRadius + 1) in
  let max := addScalar (cend (collider b)) (capsuleRadius + 1) in
  let cells : list (Z * Z * Z) :=
    x ← cellRange (vx min) (vx max);
    y ← cellRange (vy min) (vy max);
    z ← cellRange (vz min) (vz max);
    [(x, y, z)] in
  (foldl (λ st c, visitCell w c st) (∅, b) cells).2.

(** ** The player

    The block [if (controls.isLocked) { ... }] of [animate] and the
    keyboard listeners that act on the player. *)

Definition baseSpeed : R := 75.
Definition sprintMultiplier : R := 18 / 10.
Definition gravity : R := 20.
Definition eyeHeight : R := 16 / 10.
Definition capsuleHeight : R := 16 / 10.

(** The object [move]; its properties [left] and [right] are the fields
    [moveLeft] and [moveRight]. *)
Record Move : Type := mkMove {
  forward : bool;
  backward : bool;
  moveLeft : bool;
  moveRight : bool
}.

(** The player: the position of the camera ([controls.getObject()] is the
    camera), the capsule [playerCollider] with the velocity and the shared
    vectors, and [canJump]. *)
Record Player : Type := mkPlayer {
  cameraPosition : Vector3;
  body : Body;
  canJump : bool
}.

(** [direction.set(0, 0, 0); if (move.forward) direction.z -= 1; ...;
    direction.normalize()] *)
Definition direction (move : Move) : Vector3 :=
  let z := 0 in
  let z := if forward move then z - 1 else z in
  let z := if backward move then z + 1 else z in
  let x := 0 in
  let x := if moveLeft move then x - 1 else x in
  let x := if moveRight move then x + 1 else x in
  normalize (mkVector3 x 0 z).

(** The cells the three loops of [resolveCollisions] and of the ground
    check of [animate] visit around a capsule, in their order. *)
Definition scannedCells (capsule : Capsule) : list (Z * Z * Z) :=
  let min := subScalar (cstart capsule) (capsuleRadius + 1) in
  let max := addScalar (cend capsule) (capsuleRadius + 1) in
  x ← cellRange (vx min) (vx max);
  y ← cellRange (vy min) (vy max);
  z ← cellRange (vz min) (vz max);
  [(x, y, z)].

(** The ground check of [animate] over the cells left to visit: it stops at
    the first occupied cell within reach of the lower end of the capsule
    while the player is not rising ([break outer]). *)
Fixpoint groundCheck (w : World) (start : Vector3) (vely : R) (cells : list (Z * Z * Z))
    (s : vstore) : vstore * bool :=
  match cells with
  | [] => (s, false)
  | (x, y, z) :: cells' =>
      match getChunkRecordAtCell x y z w with
      | None => groundCheck w start vely cells' s
      | Some rec =>
          let ck := getCellKey (cellPos x y z) in
          if decide (is_Some (occupancy rec !! ck)) then
            let s := vset s TmpPos (cellCentre x y z) in
            let s := vset s TmpVec (mkVector3 1 1 1) in
            let tmpBox := setFromCenterAndSize (s TmpPos) (s TmpVec) in
            let s := vset s TmpClosest (clampPoint tmpBox start) in
            if Rle_dec (distanceTo start (s TmpClosest)) (capsuleRadius + 1 / 100) then
              if Rle_dec vely 0 then (s, true)
              else groundCheck w start vely cells' s
            else groundCheck w start vely cells' s
          else groundCheck w start vely cells' s
      end
  end.

(** The first part of the block: the velocity, the position and the
    capsule before the collisions.  [rotate] is
    [applyQuaternion(camera.quaternion)], [delta] the time since the last
    frame in seconds. *)
Definition integrate (rotate : Vector3 → Vector3) (move : Move) (sprinting : bool)
    (delta : R) (p : Player) : Body :=
  let direction := direction move in
  let s := vset (temps (body p)) TmpVec
             (rotate (mkVector3 (vx direction) 0 (vz direction))) in
  let speed := if sprinting then baseSpeed * sprintMultiplier else baseSpeed in
  let vel := velocity (body p) in
  let velx := vx vel + vx (s TmpVec) * speed * delta in
  let velz := vz vel + vz (s TmpVec) * speed * delta in
  let velx := velx - velx * 10 * delta in
  let velz := velz - velz * 10 * delta in
  let vely := vy vel - gravity * delta in
  let vel := mkVector3 velx vely velz in
  (* obj.position.addScaledVector(velocity, delta) *)
  let pos := vadd (cameraPosition p) (multiplyScalar vel delta) in
  (* Update player hitbox from object position *)
  let feet := mkVector3 (vx pos) (vy pos - (capsuleHeight - capsuleRadius)) (vz pos) in
  let head := pos in
  mkBody (mkCapsule feet head (cradius (collider (body p)))) vel s.

(** The whole block, with [controls.isLocked]. *)
Definition animatePlayer (rotate : Vector3 → Vector3) (isLocked : bool) (move : Move)
    (sprinting : bool) (delta : R) (w : World) (p : Player) : Player :=
  if isLocked then
    (* Collisions against occupied cells *)
    let b := resolveCollisions w (integrate rotate move sprinting delta p) in
    (* obj.position.copy(playerCollider.end) *)
    let pos := cend (collider b) in
    (* Ground check *)
    let '(s, grounded) :=
      groundCheck w (cstart (collider b)) (vy (velocity b)) (scannedCells (collider b))
                  (temps b) in
    let vel := if grounded
               then mkVector3 (vx (velocity b)) (Rmax 0 (vy (velocity b))) (vz (velocity b))
               else velocity b in
    if Rlt_dec (vy pos) eyeHeight then
      mkPlayer (mkVector3 (vx pos) eyeHeight (vz pos))
               (mkBody (collider b) (mkVector3 (vx vel) 0 (vz vel)) s) true
    else mkPlayer pos (mkBody (collider b) vel s) grounded
  else p.



Close Scope R_scope.

(** ** Worlds the program reaches

    [animate] calls [updateChunks] with the camera position; the mouse
    handler calls [addBlockAt] with three snapped coordinates and
    [removeBlockAt] with the centre of an instance, which is snapped too. *)

Inductive step (w w' : World) : Prop :=
  | step_update camx camz :
      updateChunks camx camz w = Ok w' → step w w'
  | step_add x y z type v :
      addBlockAt (snapToGrid x) (snapToGrid y) (snapToGrid z) type w = Ok (v, w') →
      step w w'
  | step_remove x y z v :
      removeBlockAt (snapToGrid x) (snapToGrid y) (snapToGrid z) w = Ok (v, w') →
      step w w'.

Inductive reachable : World → Prop :=
  | reach_initial : reachable initialWorld
  | reach_step w w' : reachable w → step w w' → reachable w'.

(** ** Invariants *)

(** The centre of a cell, and the matrix that translates to it. *)
Definition centre (ck : Z * Z * Z) : Pos :=
  mkPos (ofZ ck.1.1 + half)%Qc (ofZ ck.1.2 + half)%Qc (ofZ ck.2 + half)%Qc.

Definition centreMatrix (ck : Z * Z * Z) : Matrix4 :=
  makeTranslation (px (centre ck)) (py (centre ck)) (pz (centre ck)).

Definition entryPos (e : Qc * Qc * Qc * BlockType) : Pos := mkPos e.1.1.1 e.1.1.2 e.1.2.
Definition entryCell (e : Qc * Qc * Qc * BlockType) : Z * Z * Z := getCellKey (entryPos e).

(** The occupancy the first loop of [buildChunkFromArray] computes. *)
Definition occupancyOf (arr : list (Qc * Qc * Qc * BlockType)) : gmap (Z * Z * Z) BlockType :=
  foldl (λ m e, <[entryCell e := e.2]> m) ∅ arr.

(** A persistent array: every entry sits at the centre of its cell, and no
    cell occurs twice. *)
Definition cacheOk (arr : list (Qc * Qc * Qc * BlockType)) : Prop :=
  Forall (λ e, entryPos e = centre (entryCell e)) arr ∧ NoDup (entryCell <$> arr).

(** The matrices behind a mesh that may be [null]. *)
Definition storeOf (mesh : option InstancedMesh) : list Matrix4 :=
  match mesh with Some m => instanceMatrix m | None => [] end.

(** The index-to-cell array, the cell-to-index map and the matrices agree. *)
Definition slotsOk (cells : list (Z * Z * Z)) (imap : gmap (Z * Z * Z) nat)
    (mats : list Matrix4) : Prop :=
  (∀ ck i, imap !! ck = Some i ↔ cells !! i = Some ck) ∧
  (∀ i ck, cells !! i = Some ck → mats !! i = Some (centreMatrix ck)).

(** Counts, capacity and backing store of the batch of type [t]. *)
Definition batchShape (t : BlockType) (rec : ChunkRecord) : Prop :=
  length (sel t (cellsByIndex rec)) = sel t (counts rec) ∧
  sel t (counts rec) ≤ sel t (capacities rec) ∧
  length (storeOf (sel t (meshes rec))) = sel t (capacities rec) ∧
  (∀ m, sel t (meshes rec) = Some m → count m = sel t (counts rec)).

Definition batchOk (t : BlockType) (rec : ChunkRecord) : Prop :=
  batchShape t rec ∧
  (∀ ck, occupancy rec !! ck = Some t ↔ is_Some (sel t (indexMaps rec) !! ck)) ∧
  slotsOk (sel t (cellsByIndex rec)) (sel t (indexMaps rec)) (storeOf (sel t (meshes rec))).

Definition recordOk (rec : ChunkRecord) : Prop := batchOk green rec ∧ batchOk brown rec.

Definition worldOk (w : World) : Prop :=
  (∀ key arr, chunkData w !! key = Some arr → cacheOk arr) ∧
  (∀ key rec, chunks w !! key = Some rec →
     key.1.2 = 0%Z ∧ recordOk rec ∧
     ∃ arr, chunkData w !! key = Some arr ∧ occupancy rec = occupancyOf arr).

(** Auxiliary notions of the proofs. *)

(** The element [[x, y, z, ck]] pushed on [greens] or [browns]. *)
Definition itemOf (e : Qc * Qc * Qc * BlockType) : Qc * Qc * Qc * (Z * Z * Z) :=
  (e.1.1.1, e.1.1.2, e.1.2, entryCell e).

Definition itemsOf (t : BlockType) (arr : list (Qc * Qc * Qc * BlockType)) :=
  itemOf <$> filter (λ e, e.2 = t) arr.

Definition itemOk (it : Qc * Qc * Qc * (Z * Z * Z)) : Prop :=
  mkPos it.1.1.1 it.1.1.2 it.1.2 = centre it.2.

(** The record with the batch of type [t] replaced. *)
Definition setBatch (t : BlockType) (m : InstancedMesh) (imap : gmap (Z * Z * Z) nat)
    (cells : list (Z * Z * Z)) (rec : ChunkRecord) : ChunkRecord :=
  withCells t cells (withIndexMap t imap (withMesh t (Some m) rec)).

(** The batches of the other types are untouched. *)
Definition sameExcept (t : BlockType) (rec rec' : ChunkRecord) : Prop :=
  ∀ t', t' ≠ t →
    sel t' (meshes rec') = sel t' (meshes rec) ∧
    sel t' (indexMaps rec') = sel t' (indexMaps rec) ∧
    sel t' (cellsByIndex rec') = sel t' (cellsByIndex rec) ∧
    sel t' (counts rec') = sel t' (counts rec) ∧
    sel t' (capacities rec') = sel t' (capacities rec).

(** The batch of a record that [makeEmptyChunkRecord] just made. *)
Definition freshBatch (t : BlockType) (rec : ChunkRecord) : Prop :=
  sel t (meshes rec) = None ∧ sel t (indexMaps rec) = ∅ ∧
  sel t (cellsByIndex rec) = [] ∧ sel t (counts rec) = 0 ∧ sel t (capacities rec) = 0.

(** ** Notions used in the statements and proofs *)

(** The offsets [(x, y, z)] of the cells of a generated chunk, in the order
    of the three loops of the generator. *)
Definition footprint : list (Z * Z * Z) :=
  x ← seqZ 0 CHUNK_SIZE; z ← seqZ 0 CHUNK_SIZE; y ← seqZ 0 3; [(x, y, z)].

(** The entry the generator pushes for the offset [c], and its cell. *)
Definition entryAt (cx cz : Z) (c : Z * Z * Z) : Qc * Qc * Qc * BlockType :=
  ((ofZ cx * ofZ CHUNK_SIZE + ofZ c.1.1 + half)%Qc, (ofZ c.1.2 + half)%Qc,
   (ofZ cz * ofZ CHUNK_SIZE + ofZ c.2 + half)%Qc, green).

Definition cellAt (cx cz : Z) (c : Z * Z * Z) : Z * Z * Z :=
  (cx * CHUNK_SIZE + c.1.1, c.1.2, cz * CHUNK_SIZE + c.2)%Z.

(** The record [buildChunkFromArray] stores for [arr] (it always returns,
    see [buildRecord_spec]). *)
Definition recordFor (arr : list (Qc * Qc * Qc * BlockType)) : ChunkRecord :=
  match buildRecord arr with Ok rec => rec | _ => makeEmptyChunkRecord end.

(** The array [loadOrGenerateChunk] builds the chunk [key] from: the cache
    entry, else the generated array. *)
Definition arrayFor (key : Z * Z * Z) (w : World) : list (Qc * Qc * Qc * BlockType) :=
  default (generateGroundArrayForChunk key.1.1 key.2) (chunkData w !! key).

(** The key [updateChunks] visits at the offset [d]. *)
Definition keyOf (pcx pcz : Z) (d : Z * Z) : Z * Z * Z :=
  getChunkKeyFromCoords (pcx + d.1) 0 (pcz + d.2).

(** The chunk map and the cache after the keys [done] were visited from [w0]. *)
Definition loadedFrom (w0 : World) (done : gset (Z * Z * Z)) (w : World) : Prop :=
  (∀ key, chunks w !! key =
          match chunks w0 !! key with
          | Some rec => Some rec
          | None => if decide (key ∈ done) then Some (recordFor (arrayFor key w0)) else None
          end) ∧
  (∀ key, chunkData w !! key =
          match chunkData w0 !! key with
          | Some arr => Some arr
          | None => if decide (key ∈ done ∧ chunks w0 !! key = None)
                    then Some (arrayFor key w0) else None
          end).

(** The unloading loop over a list of keys. *)
Definition unloadAll (active : gset (Z * Z * Z)) (keys : list (Z * Z * Z)) (w : World) :=
  foldl (λ w key, if decide (key ∈ active) then w else unloadChunk key w) w keys.

(** The keys of the square neighbourhood. *)
Definition neighbourhood (pcx pcz : Z) : gset (Z * Z * Z) :=
  list_to_set (keyOf pcx pcz <$> offsets).

(** "Return a failure indicator", in the words of the specification: a
    value indicates failure when no edit that changes the world returns
    it. *)
Definition indicatesFailure (v : jsval) : Prop :=
  ∀ x y z type w v' w', addBlockAt x y z type w = Ok (v', w') → w' ≠ w → v' ≠ v.

(** Snapped coordinates: the centre of the cell [(0, 3, 0)] is
    [(X0, Y3, X0)]. *)
Definition X0 : Qc := snapToGrid (ofZ 0).
Definition Y3 : Qc := snapToGrid (ofZ 3).

(** The world an execution returns, [w0] if it does not return. *)
Definition worldOf (r : run World) (w0 : World) : World :=
  match r with Ok w => w | _ => w0 end.

Definition editedWorld (r : run (jsval * World)) (w0 : World) : World :=
  match r with Ok (_, w) => w | _ => w0 end.

(** After the first frame at the origin. *)
Definition world1 : World := worldOf (updateChunks 0%Qc 0%Qc initialWorld) initialWorld.

(** After a brown block was placed on the ground at the cell [(0, 3, 0)]. *)
Definition world2 : World := editedWorld (addBlockAt X0 Y3 X0 brown world1) world1.

(** The persistent array of a chunk holds entries of that chunk only. *)
Definition homed (w : World) : Prop :=
  ∀ key arr, chunkData w !! key = Some arr →
    Forall (λ e, getChunkKey (entryPos e) = key) arr.

(** One frame of [animate] without an edit: [updateChunks] at some
    position of the camera. *)
Definition frame (w w' : World) : Prop := ∃ camx camz, updateChunks camx camz w = Ok w'.

(** What the program relies on of [Raycaster.intersectObjects] over
    instanced meshes: an intersection names one of the objects given and
    one of the instances it draws. *)
Definition raycastSound (raycast : list InstancedMesh → list Intersection) : Prop :=
  ∀ objects hit, hit ∈ raycast objects →
    object hit ∈ objects ∧ instanceId hit < count (object hit).

(** A ray that meets the first instance of the first mesh that draws one,
    through its top face. *)
Definition firstInstance (objects : list InstancedMesh) : list Intersection :=
  match filter (λ mesh, 0 < count mesh) objects with
  | mesh :: _ => [mkIntersection mesh 0 (cellPos 0 1 0)]
  | [] => []
  end.

(** A persistent array of eight brown blocks in a row: the batch it builds
    is full, eight instances in a store of eight. *)
Definition brownRow : list (Qc * Qc * Qc * BlockType) :=
  (λ x : Z, ((ofZ x + half)%Qc, (ofZ 3 + half)%Qc, half, brown)) <$> seqZ 0 8.

(** Two to the power [e], for an integer [e]. *)
Definition pow2 (e : Z) : Qc :=
  if decide (0 ≤ e)%Z then ofZ (2 ^ e) else (1 / ofZ (2 ^ (- e)))%Qc.

(** The numbers an element of a [Float32Array] holds without rounding: the
    finite values of the binary32 format, [m * 2^e] with a significand of
    24 bits. *)
Definition float32 (q : Qc) : Prop :=
  ∃ m e : Z, (Z.abs m < 2 ^ 24)%Z ∧ (-149 ≤ e ≤ 104)%Z ∧ q = (ofZ m * pow2 e)%Qc.

Open Scope R_scope.

(** The sample [i] of the loop of [capsuleIntersectCorrection], its closest
    point on the box and their distance. *)
Definition samplePoint (capsule : Capsule) (i : nat) : Vector3 :=
  vadd (multiplyScalar (normalize (vsub (cend capsule) (cstart capsule)))
          (INR i / INR steps * vlength (vsub (cend capsule) (cstart capsule))))
       (cstart capsule).

Definition closestPoint (capsule : Capsule) (box : Box3) (i : nat) : Vector3 :=
  clampPoint box (samplePoint capsule i).

Definition sampleDistance (capsule : Capsule) (box : Box3) (i : nat) : R :=
  distanceTo (closestPoint capsule box i) (samplePoint capsule i).

(** Sample [i] is the first of the six within the radius. *)
Definition firstWithin (capsule : Capsule) (box : Box3) (i : nat) : Prop :=
  (i ≤ steps)%nat ∧ sampleDistance capsule box i < cradius capsule ∧
  ∀ j, (j < i)%nat → ¬ sampleDistance capsule box j < cradius capsule.

(** The push-out vector of a sample at [p] whose closest point is [c]. *)
Definition pushOut (p c : Vector3) (radius : R) : Vector3 :=
  multiplyScalar (normalize (vsub p c)) (radius - distanceTo c p).

(** The correction in the words of the specification: "direction from
    sample to closest point (normalized), magnitude radius - distance". *)
Definition specCorrection (p c : Vector3) (radius : R) : Vector3 :=
  multiplyScalar (normalize (vsub c p)) (radius - distanceTo c p).

(** The velocity in the words of the specification: the component along
    the unit push direction [n] removed, "velocity -= normal * (velocity .
    normal)". *)
Definition specVelocity (vel n : Vector3) : Vector3 :=
  vsub vel (multiplyScalar n (dot vel n)).

(** A capsule standing 0.2 above the unit cube at the origin, one whose
    lower end is the centre of that cube, and a body falling at unit
    speed. *)
Definition capsuleAbove : Capsule :=
  mkCapsule (mkVector3 (1 / 2) (6 / 5) (1 / 2)) (mkVector3 (1 / 2) (11 / 5) (1 / 2)) capsuleRadius.

Definition capsuleInside : Capsule :=
  mkCapsule (mkVector3 (1 / 2) (1 / 2) (1 / 2)) (mkVector3 (1 / 2) (3 / 2) (1 / 2)) capsuleRadius.

Definition falling : Vector3 := mkVector3 0 (-1) 0.

Definition bodyAbove : Body := mkBody capsuleAbove falling (λ _, vzero).

Definition bodyInside : Body := mkBody capsuleInside falling (λ _, vzero).

(** A box whose corners are in order. *)
Definition boxOrdered (box : Box3) : Prop :=
  vx (bmin box) <= vx (bmax box) ∧ vy (bmin box) <= vy (bmax box) ∧
  vz (bmin box) <= vz (bmax box).

(** The cell [c] is occupied and within reach of the lower end [start] of
    the capsule: the test of the ground check. *)
Definition supports (w : World) (start : Vector3) (c : Z * Z * Z) : Prop :=
  ∃ rec, getChunkRecordAtCell c.1.1 c.1.2 c.2 w = Some rec ∧
         is_Some (occupancy rec !! c) ∧
         distanceTo start (clampPoint (cellBox c.1.1 c.1.2 c.2) start)
           <= capsuleRadius + 1 / 100.

(** Two bodies with the same capsule and the same velocity. *)
Definition sameMotion (b b' : Body) : Prop :=
  collider b = collider b' ∧ velocity b = velocity b'.

(** A player whose capsule is [capsuleAbove], falling, and no key held. *)
Definition playerAbove : Player := mkPlayer (cend capsuleAbove) bodyAbove true.

Definition noKeys : Move := mkMove false false false false.

Close Scope R_scope.

(** * Verification of the chunk store *)

(** ** Records *)

Lemma sel_upd_eq {A} t (v : A) p : sel t (upd t v p) = v.
Proof. by destruct t. Qed.

Lemma sel_upd_ne {A} t t' (v : A) p : t ≠ t' → sel t' (upd t v p) = sel t' p.
Proof. by destruct t, t'. Qed.

Lemma upd_upd {A} t (v v' : A) p : upd t v (upd t v' p) = upd t v p.
Proof. by destruct t. Qed.

Lemma upd_sel {A} t (p : PerType A) : upd t (sel t p) p = p.
Proof. by destruct t, p. Qed.

(** ** Slots *)

Lemma slotsOk_empty mats : slotsOk [] ∅ mats.
Proof. split; intros; [by rewrite lookup_empty, lookup_nil | by rewrite lookup_nil in *]. Qed.

Lemma slotsOk_lt cells imap mats ck i :
  slotsOk cells imap mats → imap !! ck = Some i → i < length cells.
Proof. intros [H _] Hi. apply H in Hi. by eapply lookup_lt_Some. Qed.

Lemma slotsOk_elem cells imap mats ck :
  slotsOk cells imap mats → ck ∈ cells ↔ is_Some (imap !! ck).
Proof.
  intros [H _]. rewrite list_elem_of_lookup. split.
  - intros [i Hi]. exists i. by apply H.
  - intros [i Hi]. exists i. by apply H.
Qed.

Lemma slotsOk_push cells imap mats ck :
  slotsOk cells imap mats → imap !! ck = None → length cells < length mats →
  slotsOk (cells ++ [ck]) (<[ck := length cells]> imap)
          (<[length cells := centreMatrix ck]> mats).
Proof.
  intros [Hbij Hmat] Hfresh Hlen. split.
  - intros ck' i. destruct (decide (ck = ck')) as [<-|Hne].
    + rewrite lookup_insert_eq. split.
      * intros [= <-]. by rewrite lookup_app_r, Nat.sub_diag.
      * intros Hi. destruct (decide (i < length cells)) as [Hlt|Hge].
        -- rewrite lookup_app_l in Hi by done. apply Hbij in Hi. congruence.
        -- apply lookup_lt_Some in Hi as Hb. rewrite length_app in Hb. simpl in Hb.
           f_equal. lia.
    + rewrite lookup_insert_ne by done. rewrite Hbij. split.
      * intros Hi. apply lookup_lt_Some in Hi as Hb. by rewrite lookup_app_l.
      * intros Hi. destruct (decide (i < length cells)) as [Hlt|Hge].
        -- by rewrite lookup_app_l in Hi.
        -- rewrite lookup_app_r in Hi by lia.
           destruct (i - length cells) as [|k] eqn:E; simpl in Hi; [congruence|].
           by rewrite lookup_nil in Hi.
  - intros i ck' Hi. destruct (decide (i < length cells)) as [Hlt|Hge].
    + rewrite lookup_app_l in Hi by done.
      rewrite list_lookup_insert_ne by lia. by apply Hmat.
    + apply lookup_lt_Some in Hi as Hb. rewrite length_app in Hb. simpl in Hb.
      assert (i = length cells) as -> by lia.
      rewrite lookup_app_r, Nat.sub_diag in Hi by lia. simpl in Hi. injection Hi as <-.
      by rewrite list_lookup_insert_eq.
Qed.

Lemma slotsOk_pop cells imap mats ck last :
  slotsOk cells imap mats → length cells = S last → imap !! ck = Some last →
  slotsOk (take last cells) (delete ck imap) mats.
Proof.
  intros [Hbij Hmat] Hlen Hck. split.
  - intros ck' i. rewrite lookup_take. destruct (decide (ck = ck')) as [<-|Hne].
    + rewrite lookup_delete_eq. split; [done|]. case_decide; [|done].
      intros Hi. apply Hbij in Hi. rewrite Hck in Hi. injection Hi as ->. lia.
    + rewrite lookup_delete_ne by done. rewrite Hbij. case_decide; [done|].
      split; [|done]. intros Hi. apply lookup_lt_Some in Hi as Hb.
      assert (i = last) as -> by lia. apply Hbij in Hck. congruence.
  - intros i ck'. rewrite lookup_take. case_decide; [|done]. apply Hmat.
Qed.

Lemma slotsOk_swap_remove cells imap mats ck idx last lastCell m :
  slotsOk cells imap mats → length cells = S last → imap !! ck = Some idx →
  idx ≠ last → cells !! last = Some lastCell → mats !! last = Some m →
  slotsOk (take last (<[idx := lastCell]> cells))
          (delete ck (<[lastCell := idx]> imap))
          (<[idx := m]> mats).
Proof.
  intros [Hbij Hmat] Hlen Hck Hne Hlast Hm.
  assert (idx < length cells) as Hidx by (apply Hbij in Hck; by eapply lookup_lt_Some).
  assert (imap !! lastCell = Some last) as Hil by by apply Hbij.
  assert (lastCell ≠ ck) as Hlc by (intros ->; congruence).
  assert (m = centreMatrix lastCell) as -> by (apply Hmat in Hlast; congruence).
  split.
  - intros c i. rewrite lookup_take.
    destruct (decide (ck = c)) as [<-|Hc].
    + rewrite lookup_delete_eq. split; [done|]. case_decide; [|done].
      destruct (decide (i = idx)) as [->|Hi].
      * rewrite list_lookup_insert_eq by done. congruence.
      * rewrite list_lookup_insert_ne by done. intros Hi'. apply Hbij in Hi'. congruence.
    + rewrite lookup_delete_ne by done.
      destruct (decide (lastCell = c)) as [<-|Hc'].
      * rewrite lookup_insert_eq. split.
        -- intros [= <-]. rewrite decide_True by lia. by rewrite list_lookup_insert_eq.
        -- case_decide; [|done]. destruct (decide (i = idx)) as [->|Hi]; [done|].
           rewrite list_lookup_insert_ne by done. intros Hi'. apply Hbij in Hi'.
           rewrite Hil in Hi'. injection Hi' as ->. lia.
      * rewrite lookup_insert_ne by done. rewrite Hbij. split.
        -- intros Hi. apply lookup_lt_Some in Hi as Hb.
           assert (i ≠ last) by (intros ->; congruence).
           assert (i ≠ idx) by (intros ->; apply Hbij in Hck; congruence).
           rewrite decide_True by lia. by rewrite list_lookup_insert_ne.
        -- case_decide; [|done]. destruct (decide (i = idx)) as [->|Hi].
           ++ rewrite list_lookup_insert_eq by done. congruence.
           ++ by rewrite list_lookup_insert_ne.
  - intros i c. rewrite lookup_take. case_decide; [|done].
    destruct (decide (i = idx)) as [->|Hi].
    + rewrite list_lookup_insert_eq by done. intros [= <-].
      apply Hbij in Hck. apply Hmat in Hck. apply lookup_lt_Some in Hck.
      by rewrite list_lookup_insert_eq.
    + rewrite !list_lookup_insert_ne by done. apply Hmat.
Qed.

Lemma slotsOk_store cells imap mats mats' :
  slotsOk cells imap mats →
  (∀ i, i < length cells → mats' !! i = mats !! i) →
  slotsOk cells imap mats'.
Proof.
  intros [Hbij Hmat] Heq. split; [done|]. intros i ck Hi.
  rewrite Heq by by eapply lookup_lt_Some. by apply Hmat.
Qed.

(** ** Capacity growth *)

Lemma copyMatrices_spec old new from n :
  from + n ≤ length (instanceMatrix old) →
  ∃ new', copyMatrices old new from n = Ok new' ∧
    material new' = material new ∧ count new' = count new ∧
    length (instanceMatrix new') = length (instanceMatrix new) ∧
    ∀ i, instanceMatrix new' !! i =
         if decide (from ≤ i < from + n ∧ i < length (instanceMatrix new))
         then instanceMatrix old !! i else instanceMatrix new !! i.
Proof.
  revert new from. induction n as [|n IH]; intros new from Hlen; simpl.
  - exists new. repeat split; try done. intros i. rewrite decide_False by lia. done.
  - unfold getMatrixAt. destruct (instanceMatrix old !! from) as [m|] eqn:Hm.
    2: { apply lookup_ge_None in Hm. lia. }
    simpl. destruct (IH (setMatrixAt new from m) (S from)) as (new' & -> & Hmat & Hc & Hl & Hlk);
      [lia|].
    exists new'. simpl in *. rewrite length_insert in *. repeat split; try done.
    intros i. rewrite Hlk. destruct (decide (i = from)) as [->|Hi].
    + rewrite decide_False by lia. destruct (decide (from < length (instanceMatrix new))).
      * rewrite list_lookup_insert_eq by done. by rewrite decide_True by lia.
      * rewrite list_insert_ge by lia. by rewrite decide_False by lia.
    + rewrite list_lookup_insert_ne by done.
      repeat case_decide; try done; lia.
Qed.

Lemma ensureCapacityForType_grow record type needed :
  sel type (counts record) ≤ length (storeOf (sel type (meshes record))) →
  sel type (counts record) ≤ sel type (capacities record) →
  sel type (capacities record) < needed →
  ∃ newMesh,
    ensureCapacityForType record type needed =
      Ok (withCapacity type (needed `max` (8 `max` (sel type (capacities record) * 2)))
            (withMesh type (Some newMesh) record)) ∧
    length (instanceMatrix newMesh) = needed `max` (8 `max` (sel type (capacities record) * 2)) ∧
    material newMesh = type ∧
    count newMesh = sel type (counts record) ∧
    (∀ i, i < sel type (counts record) →
          instanceMatrix newMesh !! i = storeOf (sel type (meshes record)) !! i) ∧
    (∀ i, sel type (counts record) ≤ i <
            needed `max` (8 `max` (sel type (capacities record) * 2)) →
          instanceMatrix newMesh !! i = Some zeroMatrix).
Proof.
  intros Hcount Hle Hcap. unfold ensureCapacityForType.
  rewrite decide_False by lia.
  set (newCapacity := needed `max` (8 `max` (sel type (capacities record) * 2))).
  destruct (sel type (meshes record)) as [old|] eqn:Hold; simpl in *.
  - destruct (copyMatrices_spec old (createInstancedMesh type newCapacity) 0
                (sel type (counts record))) as (new' & -> & Hmat & Hc & Hl & Hlk); [lia|].
    simpl in *. rewrite length_replicate in *. subst newCapacity.
    eexists. split; [reflexivity|]. simpl. repeat split; try done.
    + intros i Hi. rewrite Hlk. rewrite decide_True; [done|]. lia.
    + intros i Hi. rewrite Hlk. rewrite decide_False by lia.
      apply lookup_replicate_2. lia.
  - subst newCapacity. eexists. split; [reflexivity|]. simpl. rewrite length_replicate.
    repeat split; try done; try lia.
    intros i Hi. apply lookup_replicate_2. lia.
Qed.

Lemma ensureCapacityForType_enough record type needed :
  needed ≤ sel type (capacities record) →
  ensureCapacityForType record type needed = Ok record.
Proof. intros H. unfold ensureCapacityForType. by rewrite decide_True. Qed.

(** ** Building a record *)

Lemma separate_spec arr rec greens browns :
  separate arr rec greens browns =
    (withOccupancy (foldl (λ m e, <[entryCell e := e.2]> m) (occupancy rec) arr) rec,
     greens ++ itemsOf green arr, browns ++ itemsOf brown arr).
Proof.
  revert rec greens browns. induction arr as [|[[[x y] z] type] arr IH];
    intros rec greens browns; simpl.
  - unfold itemsOf. simpl. rewrite !app_nil_r. by destruct rec.
  - destruct type; rewrite IH; unfold itemsOf; simpl;
      rewrite ?filter_cons_True, ?filter_cons_False by done; simpl;
      by rewrite <- ?app_assoc.
Qed.

Lemma setBatch_setBatch t m imap cells m' imap' cells' rec :
  setBatch t m imap cells (setBatch t m' imap' cells' rec) = setBatch t m imap cells rec.
Proof. by destruct t. Qed.

Lemma fillBatch_spec t items : ∀ i rec m,
  sel t (meshes rec) = Some m →
  length (sel t (cellsByIndex rec)) = i →
  ∃ m' imap',
    fillBatch t items i rec = Ok (setBatch t m' imap' (sel t (cellsByIndex rec) ++ items.*2) rec) ∧
    material m' = material m ∧ count m' = count m ∧
    length (instanceMatrix m') = length (instanceMatrix m) ∧
    (∀ ck, is_Some (imap' !! ck) ↔ is_Some (sel t (indexMaps rec) !! ck) ∨ ck ∈ items.*2) ∧
    (slotsOk (sel t (cellsByIndex rec)) (sel t (indexMaps rec)) (instanceMatrix m) →
     Forall itemOk items →
     NoDup (sel t (cellsByIndex rec) ++ items.*2) →
     i + length items ≤ length (instanceMatrix m) →
     slotsOk (sel t (cellsByIndex rec) ++ items.*2) imap' (instanceMatrix m')).
Proof.
  induction items as [|[[[x y] z] ck] items IH]; intros i rec m Hm Hi.
  - simpl. exists m, (sel t (indexMaps rec)). rewrite app_nil_r. split_and!; try done.
    + unfold setBatch. destruct rec as [? [] [] [] ? ?], t; simpl in *; by subst.
    + intros ck. split; [naive_solver|]. intros [?|H]; [done|]. by apply elem_of_nil in H.
  - rewrite fmap_cons. cbn [fillBatch snd].
    unfold setInstanceAt, meshOf. rewrite Hm. cbn [mbind run_bind].
    set (m1 := setMatrixAt m i (makeTranslation x y z)).
    set (rec0 := withIndexMap t _ (withMesh t (Some m1) rec)).
    assert (sel t (cellsByIndex rec0) = sel t (cellsByIndex rec)) as Hc
      by (subst rec0; by destruct t).
    unfold arraySet.
    rewrite Hc. rewrite decide_False by lia. rewrite decide_True by lia.
    cbn [mbind run_bind].
    set (rec1 := withCells t _ rec0).
    assert (sel t (cellsByIndex rec1) = sel t (cellsByIndex rec) ++ [ck]) as Hc1
      by (subst rec1 rec0; by destruct t).
    assert (sel t (indexMaps rec1) = <[ck := i]> (sel t (indexMaps rec))) as Hi1
      by (subst rec1 rec0; by destruct t).
    destruct (IH (S i) rec1 m1) as (m' & imap' & Hrun & Hmat & Hcnt & Hlen & Hdom & Hslots).
    { subst rec1 rec0. by destruct t. }
    { rewrite Hc1, length_app. simpl. lia. }
    rewrite Hc1, Hi1 in *. rewrite <- app_assoc in *. cbn [app] in *.
    exists m', imap'. rewrite Hrun. unfold m1 in Hlen, Hmat, Hcnt. simpl in Hlen, Hmat, Hcnt.
    rewrite length_insert in Hlen. split_and!; try done.
    + f_equal. subst rec1 rec0. unfold setBatch. by destruct t.
    + intros ck'. rewrite Hdom. rewrite lookup_insert_is_Some. rewrite elem_of_cons.
      destruct (decide (ck = ck')); [subst|]; intuition congruence.
    + intros Hs Hok Hnd Hle. apply Forall_cons in Hok as [Hck Hok].
      cbn [length] in Hle. unfold m1 in Hslots. simpl in Hslots. rewrite length_insert in Hslots.
      apply Hslots; try done; [|lia].
      unfold itemOk in Hck. simpl in Hck.
      assert (makeTranslation x y z = centreMatrix ck) as ->.
      { unfold centreMatrix. rewrite <- Hck. done. }
      subst i. apply slotsOk_push; [done| |lia].
      apply NoDup_app in Hnd as (_ & Hnd & _).
      destruct (sel t (indexMaps rec) !! ck) as [j|] eqn:Hj; [|done].
      exfalso. apply (Hnd ck); [|by left].
      eapply slotsOk_elem; [done|]. by eexists.
Qed.

Lemma sameExcept_refl t rec : sameExcept t rec rec.
Proof. by intros t' _. Qed.

Lemma buildBatch_spec t items rec :
  freshBatch t rec →
  ∃ rec', buildBatch t items rec = Ok rec' ∧
    occupancy rec' = occupancy rec ∧
    sameExcept t rec rec' ∧ batchShape t rec' ∧
    sel t (cellsByIndex rec') = items.*2 ∧
    (∀ ck, is_Some (sel t (indexMaps rec') !! ck) ↔ ck ∈ items.*2) ∧
    (Forall itemOk items → NoDup items.*2 →
     slotsOk (sel t (cellsByIndex rec')) (sel t (indexMaps rec'))
             (storeOf (sel t (meshes rec')))).
Proof.
  intros (Hm & Him & Hcs & Hn & Hcap). unfold buildBatch.
  destruct (decide (length items = 0)) as [Hz|Hnz].
  - apply nil_length_inv in Hz as ->. exists rec. split_and!; try done.
    + unfold batchShape. rewrite Hm, Hcs, Hn, Hcap. split_and!; done.
    + intros ck. rewrite Him, lookup_empty. split; [by intros []|]. by intros ?%elem_of_nil.
    + intros _ _. rewrite Hcs, Him. apply slotsOk_empty.
  - destruct (ensureCapacityForType_grow rec t (length items))
      as (newMesh & -> & Hlen & Hmat & Hcnt & _ & _).
    { rewrite Hn. lia. } { lia. } { lia. }
    cbn [mbind run_bind].
    set (cap := length items `max` _) in *.
    set (rec1 := withCapacity t cap _).
    destruct (fillBatch_spec t items 0 rec1 newMesh)
      as (m' & imap' & -> & Hmat' & Hcnt' & Hlen' & Hdom & Hslots).
    { subst rec1. by destruct t. }
    { subst rec1. destruct t; simpl in *; by rewrite Hcs. }
    assert (sel t (cellsByIndex rec1) = []) as Hc1 by (subst rec1; by destruct t).
    assert (sel t (indexMaps rec1) = ∅) as Hi1 by (subst rec1; by destruct t).
    rewrite Hc1, Hi1 in *. cbn [app] in *.
    cbn [mbind run_bind]. unfold meshOf.
    set (rec2 := withCount t _ _).
    assert (sel t (meshes rec2) = Some m') as -> by (subst rec2; by destruct t).
    cbn [mbind run_bind]. eexists. split; [reflexivity|].
    assert (cap = length items `max` 8) as Hcapeq by (subst cap; lia).
    split_and!.
    + by destruct t.
    + intros t' Hne. subst rec2 rec1. destruct t, t'; done.
    + subst rec2 rec1. unfold batchShape. destruct t; simpl;
        rewrite length_fmap; split_and!; try lia; by intros ? [= <-].
    + subst rec2 rec1. by destruct t.
    + intros ck.
      assert (sel t (indexMaps (withMesh t (Some (setCount m' (sel t (counts rec2)))) rec2))
              = imap') as -> by (subst rec2 rec1; by destruct t).
      rewrite Hdom, lookup_empty. split; [|tauto]. intros [[? ?]|?]; done.
    + intros Hok Hnd.
      assert (slotsOk items.*2 imap' (instanceMatrix m')) as Hs.
      { apply Hslots; [apply slotsOk_empty | done | done | lia]. }
      subst rec2 rec1. by destruct t.
Qed.

(** ** Occupancy of a persistent array *)

Lemma occupancyOf_app arr e :
  occupancyOf (arr ++ [e]) = <[entryCell e := e.2]> (occupancyOf arr).
Proof. unfold occupancyOf. by rewrite foldl_app. Qed.

Lemma occupancyOf_is_Some arr ck :
  is_Some (occupancyOf arr !! ck) ↔ ck ∈ entryCell <$> arr.
Proof.
  induction arr as [|e arr IH] using rev_ind.
  - unfold occupancyOf. simpl. rewrite lookup_empty. split; [by intros []|].
    by intros ?%elem_of_nil.
  - rewrite occupancyOf_app, fmap_app, elem_of_app, lookup_insert_is_Some, IH.
    simpl. rewrite list_elem_of_singleton.
    destruct (decide (entryCell e = ck)); intuition congruence.
Qed.

Lemma occupancyOf_lookup arr ck t :
  NoDup (entryCell <$> arr) →
  occupancyOf arr !! ck = Some t ↔ ∃ e, e ∈ arr ∧ entryCell e = ck ∧ e.2 = t.
Proof.
  induction arr as [|e arr IH] using rev_ind; intros Hnd.
  - unfold occupancyOf. simpl. rewrite lookup_empty. split; [done|].
    intros (e & ?%elem_of_nil & _). done.
  - rewrite fmap_app in Hnd. apply NoDup_app in Hnd as (Hnd & Hfresh & _).
    rewrite occupancyOf_app. destruct (decide (entryCell e = ck)) as [<-|Hne].
    + rewrite lookup_insert_eq. split.
      * intros [= <-]. exists e. rewrite elem_of_app, list_elem_of_singleton. auto.
      * intros (e' & [He'| ->%list_elem_of_singleton]%elem_of_app & Hc & <-); [|done].
        exfalso. apply (Hfresh (entryCell e')).
        -- by apply list_elem_of_fmap_2.
        -- rewrite Hc. simpl. by left.
    + rewrite lookup_insert_ne by done. rewrite IH by done. split.
      * intros (e' & ? & ? & ?). exists e'. rewrite elem_of_app. auto.
      * intros (e' & [He'| ->%list_elem_of_singleton]%elem_of_app & Hc & <-); [|done].
        by exists e'.
Qed.

Lemma itemsOf_cells t arr : (itemsOf t arr).*2 = entryCell <$> filter (λ e, e.2 = t) arr.
Proof. unfold itemsOf. rewrite <- list_fmap_compose. done. Qed.

Lemma elem_of_itemsOf_cells t arr ck :
  ck ∈ (itemsOf t arr).*2 ↔ ∃ e, e ∈ arr ∧ entryCell e = ck ∧ e.2 = t.
Proof.
  rewrite itemsOf_cells, list_elem_of_fmap. split.
  - intros (e & -> & [? ?]%list_elem_of_filter). by exists e.
  - intros (e & ? & <- & ?). exists e. by rewrite list_elem_of_filter.
Qed.

Lemma occupancyOf_filter ck arr :
  occupancyOf (filter (λ e, entryCell e ≠ ck) arr) = delete ck (occupancyOf arr).
Proof.
  induction arr as [|e arr IH] using rev_ind.
  - unfold occupancyOf. simpl. by rewrite delete_empty.
  - rewrite filter_app, occupancyOf_app.
    destruct (decide (entryCell e = ck)) as [He|He].
    + rewrite filter_cons_False by (by intros []). rewrite filter_nil, app_nil_r, IH.
      by rewrite He, delete_insert_eq.
    + rewrite filter_cons_True by done. rewrite filter_nil, occupancyOf_app, IH.
      by rewrite delete_insert_ne.
Qed.

Lemma Forall_filter_keep {A} (P Q : A → Prop) `{∀ x, Decision (Q x)} l :
  Forall P l → Forall P (filter Q l).
Proof.
  rewrite !Forall_forall. intros HP x [_ Hx]%list_elem_of_filter. by apply HP.
Qed.

Lemma cacheOk_filter (P : Qc * Qc * Qc * BlockType → Prop) `{∀ e, Decision (P e)} arr :
  cacheOk arr → cacheOk (filter P arr).
Proof.
  intros [Hc Hnd]. split.
  - by apply Forall_filter_keep.
  - eapply sublist_NoDup; [done|]. apply fmap_sublist, sublist_filter.
Qed.

(** ** Building a record *)

Lemma buildRecord_spec arr :
  ∃ rec, buildRecord arr = Ok rec ∧ occupancy rec = occupancyOf arr ∧
         (cacheOk arr → recordOk rec).
Proof.
  unfold buildRecord. rewrite separate_spec. simpl.
  change (foldl _ ∅ arr) with (occupancyOf arr).
  set (rec0 := withOccupancy _ _).
  destruct (buildBatch_spec green (itemsOf green arr) rec0)
    as (rec1 & -> & Hocc1 & Hfr1 & Hsh1 & Hcs1 & Hdom1 & Hsl1); [done|].
  cbn [mbind run_bind].
  destruct (Hfr1 brown) as (Hm & Hi & Hc & Hn & Hk); [done|].
  destruct (buildBatch_spec brown (itemsOf brown arr) rec1)
    as (rec2 & -> & Hocc2 & Hfr2 & Hsh2 & Hcs2 & Hdom2 & Hsl2).
  { unfold freshBatch. by rewrite Hm, Hi, Hc, Hn, Hk. }
  exists rec2. split; [done|]. split; [by rewrite Hocc2, Hocc1|].
  intros [Hcentred Hnd].
  destruct (Hfr2 green) as (Hm' & Hi' & Hc' & Hn' & Hk'); [done|].
  assert (∀ t, Forall itemOk (itemsOf t arr)) as Hok.
  { intros t. unfold itemsOf. apply Forall_fmap. apply Forall_filter_keep.
    eapply Forall_impl; [done|]. intros [[[x y] z] ty] He. done. }
  assert (∀ t, NoDup (itemsOf t arr).*2) as Hnds.
  { intros t. rewrite itemsOf_cells. eapply sublist_NoDup; [done|].
    apply fmap_sublist, sublist_filter. }
  assert (∀ t ck, occupancy rec2 !! ck = Some t ↔ ck ∈ (itemsOf t arr).*2) as Hlink.
  { intros t ck. rewrite Hocc2, Hocc1. simpl.
    by rewrite occupancyOf_lookup, elem_of_itemsOf_cells. }
  split.
  - destruct Hsh1 as (? & ? & ? & ?).
    unfold batchOk, batchShape. rewrite Hm', Hi', Hc', Hn', Hk'. split_and!; try done.
    + intros ck. by rewrite Hlink, Hdom1.
    + by apply Hsl1.
  - unfold batchOk. split_and!; try done.
    + intros ck. by rewrite Hlink, Hdom2.
    + by apply Hsl2.
Qed.

Lemma batchShape_mesh t rec :
  batchShape t rec → 0 < sel t (capacities rec) → is_Some (sel t (meshes rec)).
Proof.
  intros (_ & _ & Hl & _) Hpos. destruct (sel t (meshes rec)); [done|].
  simpl in Hl. lia.
Qed.

(** ** Writing an instance *)

Lemma writeInstance_spec rec t x y z ck :
  batchShape t rec →
  slotsOk (sel t (cellsByIndex rec)) (sel t (indexMaps rec)) (storeOf (sel t (meshes rec))) →
  sel t (indexMaps rec) !! ck = None →
  mkPos x y z = centre ck →
  ∃ rec', writeInstance rec t x y z ck = Ok rec' ∧
    occupancy rec' = occupancy rec ∧ sameExcept t rec rec' ∧
    batchShape t rec' ∧
    sel t (counts rec') = sel t (counts rec) + 1 ∧
    sel t (cellsByIndex rec') = sel t (cellsByIndex rec) ++ [ck] ∧
    sel t (indexMaps rec') = <[ck := sel t (counts rec)]> (sel t (indexMaps rec)) ∧
    slotsOk (sel t (cellsByIndex rec')) (sel t (indexMaps rec'))
            (storeOf (sel t (meshes rec'))).
Proof.
  intros (Hlen & Hle & Hst & Hcnt) Hslots Hfresh Hpos. unfold writeInstance.
  set (n := sel t (counts rec)) in *.
  assert (∃ rec1 m1, ensureCapacityForType rec t (n + 1) = Ok rec1 ∧
            occupancy rec1 = occupancy rec ∧ sameExcept t rec rec1 ∧
            sel t (meshes rec1) = Some m1 ∧
            sel t (indexMaps rec1) = sel t (indexMaps rec) ∧
            sel t (cellsByIndex rec1) = sel t (cellsByIndex rec) ∧
            sel t (counts rec1) = n ∧
            length (instanceMatrix m1) = sel t (capacities rec1) ∧
            n + 1 ≤ sel t (capacities rec1) ∧
            (∀ i, i < n → instanceMatrix m1 !! i = storeOf (sel t (meshes rec)) !! i))
    as (rec1 & m1 & -> & Hocc1 & Hfr1 & Hm1 & Hi1 & Hc1 & Hn1 & Hl1 & Hcap1 & Hcopy).
  { destruct (decide (n + 1 ≤ sel t (capacities rec))) as [Hfit|Hgrow].
    - rewrite ensureCapacityForType_enough by done.
      destruct (batchShape_mesh t rec) as [m Hm]; [done|lia|].
      exists rec, m. rewrite Hm in *. split_and!; try done; apply sameExcept_refl.
    - destruct (ensureCapacityForType_grow rec t (n + 1))
        as (newMesh & -> & Hl' & _ & _ & Hcopy & _); [lia|done|lia|].
      eexists _, newMesh. split; [reflexivity|].
      split_and!; try (by destruct t); try done.
      all: try (intros t' Hne; by destruct t, t').
      all: try (rewrite Hl'; by destruct t).
      all: try (destruct t; simpl; lia). }
  cbn [mbind run_bind]. unfold setInstanceAt, meshOf. rewrite Hn1, Hm1.
  cbn [mbind run_bind]. unfold arraySet.
  set (m2 := setMatrixAt m1 n (makeTranslation x y z)).
  set (rec2 := withMesh t (Some m2) rec1).
  assert (sel t (cellsByIndex rec2) = sel t (cellsByIndex rec)) as Hc2
    by (subst rec2; rewrite <- Hc1; by destruct t).
  rewrite Hc2, decide_False, decide_True by lia. cbn [mbind run_bind].
  set (rec3 := withCount t _ _).
  assert (sel t (meshes rec3) = Some m2) as -> by (subst rec3 rec2; by destruct t).
  cbn [mbind run_bind]. eexists. split; [reflexivity|].
  assert (sel t (counts rec3) = n + 1) as Hn3.
  { subst rec3 rec2. destruct t; simpl in *; by rewrite Hn1. }
  assert (sel t (indexMaps rec3) = <[ck := n]> (sel t (indexMaps rec))) as Hi3.
  { subst rec3 rec2. rewrite <- Hi1. destruct t; simpl in *; done. }
  assert (sel t (cellsByIndex rec3) = sel t (cellsByIndex rec) ++ [ck]) as Hc3.
  { subst rec3 rec2. by destruct t. }
  assert (sel t (capacities rec3) = sel t (capacities rec1)) as Hk3.
  { subst rec3 rec2. by destruct t. }
  assert (slotsOk (sel t (cellsByIndex rec) ++ [ck]) (<[ck := n]> (sel t (indexMaps rec)))
            (instanceMatrix m2)) as Hs.
  { subst m2. simpl.
    assert (makeTranslation x y z = centreMatrix ck) as ->
      by (unfold centreMatrix; by rewrite <- Hpos).
    rewrite <- Hlen.
    apply (slotsOk_push _ _ (instanceMatrix m1) ck).
    - eapply slotsOk_store; [done|]. intros i Hi. apply Hcopy. lia.
    - done.
    - lia. }
  split_and!.
  - subst rec3 rec2. rewrite <- Hocc1. by destruct t.
  - intros t' Hne. destruct (Hfr1 t' Hne) as (? & ? & ? & ? & ?).
    subst rec3 rec2. destruct t, t'; done.
  - unfold batchShape.
    assert (sel t (meshes (withMesh t (Some (setCount m2 (sel t (counts rec3)))) rec3))
            = Some (setCount m2 (n + 1))) as -> by (rewrite Hn3; by destruct t).
    assert (sel t (cellsByIndex (withMesh t (Some (setCount m2 (sel t (counts rec3)))) rec3))
            = sel t (cellsByIndex rec) ++ [ck]) as -> by (rewrite <- Hc3; by destruct t).
    assert (sel t (counts (withMesh t (Some (setCount m2 (sel t (counts rec3)))) rec3))
            = n + 1) as -> by (rewrite <- Hn3; by destruct t).
    assert (sel t (capacities (withMesh t (Some (setCount m2 (sel t (counts rec3)))) rec3))
            = sel t (capacities rec1)) as -> by (rewrite <- Hk3; by destruct t).
    split_and!.
    + rewrite length_app. simpl. lia.
    + lia.
    + simpl. by rewrite length_insert.
    + by intros ? [= <-].
  - rewrite <- Hn3. by destruct t.
  - rewrite <- Hc3. by destruct t.
  - rewrite <- Hi3. by destruct t.
  - assert (sel t (meshes (withMesh t (Some (setCount m2 (sel t (counts rec3)))) rec3))
            = Some (setCount m2 (n + 1))) as -> by (rewrite Hn3; by destruct t).
    assert (sel t (cellsByIndex (withMesh t (Some (setCount m2 (sel t (counts rec3)))) rec3))
            = sel t (cellsByIndex rec) ++ [ck]) as -> by (rewrite <- Hc3; by destruct t).
    assert (sel t (indexMaps (withMesh t (Some (setCount m2 (sel t (counts rec3)))) rec3))
            = <[ck := n]> (sel t (indexMaps rec))) as -> by (rewrite <- Hi3; by destruct t).
    done.
Qed.

(** ** Swap-remove *)

Lemma swapRemove_spec rec t ck idx :
  batchShape t rec →
  slotsOk (sel t (cellsByIndex rec)) (sel t (indexMaps rec)) (storeOf (sel t (meshes rec))) →
  sel t (indexMaps rec) !! ck = Some idx →
  ∃ rec', swapRemove rec t ck = Ok rec' ∧
    occupancy rec' = delete ck (occupancy rec) ∧ sameExcept t rec rec' ∧
    batchShape t rec' ∧
    sel t (counts rec') + 1 = sel t (counts rec) ∧
    sel t (capacities rec') = sel t (capacities rec) ∧
    (∀ c, is_Some (sel t (indexMaps rec') !! c) ↔
          c ≠ ck ∧ is_Some (sel t (indexMaps rec) !! c)) ∧
    slotsOk (sel t (cellsByIndex rec')) (sel t (indexMaps rec'))
            (storeOf (sel t (meshes rec'))).
Proof.
  intros Hshape Hslots Hidx. pose proof Hshape as (Hlen & Hle & Hst & Hcnt).
  unfold swapRemove. rewrite Hidx.
  pose proof (slotsOk_lt _ _ _ _ _ Hslots Hidx) as Hlt. rewrite Hlen in Hlt.
  destruct (sel t (counts rec)) as [|last] eqn:Hn; [lia|].
  destruct (batchShape_mesh t rec Hshape) as [mesh Hmesh]; [lia|].
  rewrite Hmesh in *. simpl in Hst.
  destruct (decide (idx ≠ last)) as [Hne|Heq].
  - unfold meshOf. rewrite Hmesh. cbn [mbind run_bind].
    unfold getMatrixAt.
    destruct (instanceMatrix mesh !! last) as [m|] eqn:Hm.
    2: { apply lookup_ge_None in Hm. lia. }
    cbn [mbind run_bind].
    set (rec1 := withMesh t _ rec).
    assert (sel t (cellsByIndex rec1) = sel t (cellsByIndex rec)) as Hc1
      by (subst rec1; by destruct t).
    rewrite Hc1. unfold arrayGet.
    destruct (sel t (cellsByIndex rec) !! last) as [lastCell|] eqn:Hlast.
    2: { apply lookup_ge_None in Hlast. lia. }
    cbn [mbind run_bind]. unfold arraySet. rewrite decide_True by lia.
    cbn [mbind run_bind].
    set (rec2 := withIndexMap t _ _).
    set (rec3 := withCount t last rec2).
    assert (sel t (meshes rec3) = Some (setMatrixAt mesh idx m)) as Hm3
      by (subst rec3 rec2 rec1; by destruct t).
    rewrite Hm3. cbn [mbind run_bind].
    set (rec4 := withIndexMap t _ _).
    assert (sel t (cellsByIndex rec4) = <[idx := lastCell]> (sel t (cellsByIndex rec))) as Hc4
      by (subst rec4 rec3 rec2 rec1; by destruct t).
    assert (sel t (counts rec4) = last) as Hn4
      by (subst rec4 rec3 rec2 rec1; by destruct t).
    unfold arraySetLength. rewrite Hc4, Hn4, length_insert, decide_True by lia.
    cbn [mbind run_bind]. eexists. split; [reflexivity|].
    set (rec5 := withCells t _ rec4).
    assert (sel t (indexMaps rec5)
            = delete ck (<[lastCell := idx]> (sel t (indexMaps rec)))) as Hi5
      by (subst rec5 rec4 rec3 rec2 rec1; by destruct t).
    assert (sel t (cellsByIndex rec5)
            = take last (<[idx := lastCell]> (sel t (cellsByIndex rec)))) as Hc5
      by (subst rec5 rec4 rec3 rec2 rec1; by destruct t).
    assert (sel t (meshes rec5) = Some (setCount (setMatrixAt mesh idx m) last)) as Hm5
      by (subst rec5 rec4 rec3 rec2 rec1; by destruct t).
    assert (sel t (counts rec5) = last) as Hn5
      by (subst rec5 rec4 rec3 rec2 rec1; by destruct t).
    assert (sel t (capacities rec5) = sel t (capacities rec)) as Hk5
      by (subst rec5 rec4 rec3 rec2 rec1; by destruct t).
    assert (occupancy rec5 = occupancy rec) as Ho5
      by (subst rec5 rec4 rec3 rec2 rec1; by destruct t).
    assert (sameExcept t rec rec5) as Hfr5.
    { intros t' Ht'. subst rec5 rec4 rec3 rec2 rec1. by destruct t, t'. }
    change (sel t (meshes (withOccupancy (delete ck (occupancy rec5)) rec5)))
      with (sel t (meshes rec5)).
    change (sel t (indexMaps (withOccupancy (delete ck (occupancy rec5)) rec5)))
      with (sel t (indexMaps rec5)).
    change (sel t (cellsByIndex (withOccupancy (delete ck (occupancy rec5)) rec5)))
      with (sel t (cellsByIndex rec5)).
    change (sel t (counts (withOccupancy (delete ck (occupancy rec5)) rec5)))
      with (sel t (counts rec5)).
    change (sel t (capacities (withOccupancy (delete ck (occupancy rec5)) rec5)))
      with (sel t (capacities rec5)).
    split_and!.
    + transitivity (delete ck (occupancy rec5)); [reflexivity | by rewrite Ho5].
    + done.
    + change (batchShape t rec5). unfold batchShape.
      rewrite Hc5, Hm5, Hn5, Hk5. simpl. rewrite length_take, !length_insert.
      split_and!; try lia. by intros ? [= <-].
    + lia.
    + done.
    + intros c. rewrite Hi5. rewrite lookup_delete_is_Some, lookup_insert_is_Some.
      assert (is_Some (sel t (indexMaps rec) !! lastCell)).
      { eapply slotsOk_elem; [done|]. by eapply list_elem_of_lookup_2. }
      destruct (decide (lastCell = c)) as [<-|?]; intuition congruence.
    + rewrite Hc5, Hi5, Hm5. simpl.
      apply slotsOk_swap_remove; try done; by rewrite Hlen.
  - assert (idx = last) as -> by (destruct (decide (idx = last)); [done|tauto]).
    cbn [mbind run_bind]. unfold meshOf.
    set (rec3 := withCount t last rec).
    assert (sel t (meshes rec3) = Some mesh) as Hm3 by (subst rec3; by destruct t).
    rewrite Hm3. cbn [mbind run_bind].
    set (rec4 := withIndexMap t _ _).
    assert (sel t (cellsByIndex rec4) = sel t (cellsByIndex rec)) as Hc4
      by (subst rec4 rec3; by destruct t).
    assert (sel t (counts rec4) = last) as Hn4 by (subst rec4 rec3; by destruct t).
    unfold arraySetLength. rewrite Hc4, Hn4, decide_True by lia.
    cbn [mbind run_bind]. eexists. split; [reflexivity|].
    set (rec5 := withCells t _ rec4).
    assert (sel t (indexMaps rec5) = delete ck (sel t (indexMaps rec))) as Hi5
      by (subst rec5 rec4 rec3; by destruct t).
    assert (sel t (cellsByIndex rec5) = take last (sel t (cellsByIndex rec))) as Hc5
      by (subst rec5 rec4 rec3; by destruct t).
    assert (sel t (meshes rec5) = Some (setCount mesh last)) as Hm5
      by (subst rec5 rec4 rec3; by destruct t).
    assert (sel t (counts rec5) = last) as Hn5 by (subst rec5 rec4 rec3; by destruct t).
    assert (sel t (capacities rec5) = sel t (capacities rec)) as Hk5
      by (subst rec5 rec4 rec3; by destruct t).
    assert (occupancy rec5 = occupancy rec) as Ho5 by (subst rec5 rec4 rec3; by destruct t).
    assert (sameExcept t rec rec5) as Hfr5.
    { intros t' Ht'. subst rec5 rec4 rec3. by destruct t, t'. }
    change (sel t (meshes (withOccupancy (delete ck (occupancy rec5)) rec5)))
      with (sel t (meshes rec5)).
    change (sel t (indexMaps (withOccupancy (delete ck (occupancy rec5)) rec5)))
      with (sel t (indexMaps rec5)).
    change (sel t (cellsByIndex (withOccupancy (delete ck (occupancy rec5)) rec5)))
      with (sel t (cellsByIndex rec5)).
    change (sel t (counts (withOccupancy (delete ck (occupancy rec5)) rec5)))
      with (sel t (counts rec5)).
    change (sel t (capacities (withOccupancy (delete ck (occupancy rec5)) rec5)))
      with (sel t (capacities rec5)).
    split_and!.
    + transitivity (delete ck (occupancy rec5)); [reflexivity | by rewrite Ho5].
    + done.
    + change (batchShape t rec5). unfold batchShape.
      rewrite Hc5, Hm5, Hn5, Hk5. simpl. rewrite length_take.
      split_and!; try lia. by intros ? [= <-].
    + lia.
    + done.
    + intros c. rewrite Hi5. rewrite lookup_delete_is_Some. intuition congruence.
    + rewrite Hc5, Hi5, Hm5. simpl.
      eapply slotsOk_pop; try done; by rewrite Hlen.
Qed.

(** ** Numbers *)

Lemma floor_Q2Qc (q : Q) : floor (Q2Qc q) = Qfloor q.
Proof. unfold floor. simpl. apply Qfloor_comp, Qred_correct. Qed.

Lemma ofZ_plus_half (n : Z) : (ofZ n + half)%Qc = Q2Qc (Qmake (2 * n + 1) 2).
Proof.
  apply Qc_is_canon. unfold ofZ, half, Qcplus. simpl.
  rewrite !Qred_correct. unfold Qeq, Qplus; simpl. lia.
Qed.

Lemma floor_ofZ_half (n : Z) : floor (ofZ n + half)%Qc = n.
Proof.
  rewrite ofZ_plus_half, floor_Q2Qc. simpl.
  symmetry. apply Z.div_unique with (r := 1%Z); lia.
Qed.

Lemma floor_ofZ (n : Z) : floor (ofZ n) = n.
Proof. unfold floor, ofZ. simpl. apply Z.div_1_r. Qed.

Lemma div16 (n : Z) : ((ofZ n + half) / ofZ 16)%Qc = Q2Qc (Qmake (2 * n + 1) 32).
Proof.
  rewrite ofZ_plus_half. apply Qc_is_canon. unfold Qcdiv, Qcmult, Qcinv, ofZ. simpl.
  rewrite !Qred_correct. unfold Qeq, Qmult, Qinv; simpl. lia.
Qed.

Lemma floor_div16 (n : Z) : floor ((ofZ n + half) / ofZ CHUNK_SIZE)%Qc = (n / 16)%Z.
Proof.
  unfold CHUNK_SIZE. rewrite div16, floor_Q2Qc. simpl.
  symmetry. apply Z.div_unique with (r := (2 * (n mod 16) + 1)%Z).
  - left. pose proof (Z.mod_pos_bound n 16). lia.
  - pose proof (Z.div_mod n 16). lia.
Qed.

Lemma snapToGrid_eq (v : Qc) : snapToGrid v = (ofZ (floor v) + half)%Qc.
Proof.
  unfold snapToGrid, cubeSize.
  rewrite (right_id 1%Qc Qcdiv v), Qcmult_1_r. f_equal.
Qed.

Lemma snapToGrid_centre x y z :
  mkPos (snapToGrid x) (snapToGrid y) (snapToGrid z)
  = centre (getCellKey (mkPos (snapToGrid x) (snapToGrid y) (snapToGrid z))).
Proof.
  unfold centre, getCellKey. simpl. rewrite !snapToGrid_eq, !floor_ofZ_half. done.
Qed.

Lemma getCellKey_centre ck : getCellKey (centre ck) = ck.
Proof.
  destruct ck as [[a b] c]. unfold getCellKey, centre. simpl.
  by rewrite !floor_ofZ_half.
Qed.

Lemma centre_inj ck ck' : centre ck = centre ck' → ck = ck'.
Proof. intros H. by rewrite <- (getCellKey_centre ck), H, getCellKey_centre. Qed.

(** ** Frames *)

Lemma batchOk_frame t t' rec rec' :
  t' ≠ t → sameExcept t rec rec' →
  (∀ c, occupancy rec' !! c = Some t' ↔ occupancy rec !! c = Some t') →
  batchOk t' rec → batchOk t' rec'.
Proof.
  intros Hne Hfr Hocc (Hshape & Hlink & Hslots).
  destruct (Hfr t' Hne) as (Hm & Hi & Hc & Hn & Hk).
  unfold batchOk, batchShape in *. rewrite Hm, Hi, Hc, Hn, Hk.
  destruct Hshape as (? & ? & ? & ?).
  split_and!; try done. intros c. by rewrite Hocc.
Qed.

Lemma other_type (t : BlockType) : ∃ t', t' ≠ t ∧ ∀ t'', t'' = t ∨ t'' = t'.
Proof. destruct t; [exists brown | exists green]; split; try done; intros []; auto. Qed.

Lemma recordOk_both rec : recordOk rec ↔ ∀ t, batchOk t rec.
Proof. split; [intros [? ?] []; done | intros H; split; apply H]. Qed.

(** ** Edits keep the invariant *)

Lemma worldOk_insert w key rec arr :
  worldOk w → key.1.2 = 0%Z → recordOk rec → cacheOk arr →
  occupancy rec = occupancyOf arr →
  worldOk {| chunks := <[key := rec]> (chunks w); chunkData := <[key := arr]> (chunkData w) |}.
Proof.
  intros [Hdata Hchunks] Hy Hrec Harr Hocc. split; simpl.
  - intros key' arr'. rewrite lookup_insert. case_decide; [by intros [= <-]|]. apply Hdata.
  - intros key' rec'. rewrite !lookup_insert. case_decide as Hk.
    + intros [= <-]. subst key'. split_and!; try done. by exists arr.
    + apply Hchunks.
Qed.

Lemma addBlockAt_ok w x y z t rec :
  worldOk w →
  chunks w !! getChunkKey (mkPos x y z) = Some rec →
  occupancy rec !! getCellKey (mkPos x y z) = None →
  mkPos x y z = centre (getCellKey (mkPos x y z)) →
  ∃ rec' arr,
    addBlockAt x y z t w =
      Ok (JSundefined,
          {| chunks := <[getChunkKey (mkPos x y z) := rec']> (chunks w);
             chunkData := <[getChunkKey (mkPos x y z) := arr ++ [(x, y, z, t)]]> (chunkData w) |}) ∧
    chunkData w !! getChunkKey (mkPos x y z) = Some arr ∧
    worldOk {| chunks := <[getChunkKey (mkPos x y z) := rec']> (chunks w);
               chunkData := <[getChunkKey (mkPos x y z) := arr ++ [(x, y, z, t)]]> (chunkData w) |} ∧
    occupancy rec' = <[getCellKey (mkPos x y z) := t]> (occupancy rec) ∧
    sameExcept t rec rec' ∧
    sel t (counts rec') = sel t (counts rec) + 1 ∧
    sel t (indexMaps rec') = <[getCellKey (mkPos x y z) := sel t (counts rec)]> (sel t (indexMaps rec)).
Proof.
  intros Hw Hrec Hfree Hpos. pose proof Hw as [Hdata Hchunks].
  destruct (Hchunks _ _ Hrec) as (Hy & Hok & arr & Harr & Hocc).
  set (key := getChunkKey (mkPos x y z)) in *.
  set (ck := getCellKey (mkPos x y z)) in *.
  unfold addBlockAt, getChunkAtWorld. fold key. rewrite Hrec. fold ck.
  rewrite decide_False by (rewrite Hfree; by intros []).
  rewrite Harr. simpl default.
  set (rec1 := withOccupancy _ rec).
  pose proof (proj1 (recordOk_both rec) Hok) as Hall.
  destruct (Hall t) as (Hshape & Hlink & Hslots).
  destruct (writeInstance_spec rec1 t x y z ck)
    as (rec' & -> & Hocc' & Hfr & Hshape' & Hn' & Hc' & Hi' & Hslots'); try done.
  { destruct (sel t (indexMaps rec) !! ck) as [i|] eqn:Hi; [|done].
    assert (occupancy rec !! ck = Some t) by (apply Hlink; by eexists). congruence. }
  cbn [mbind run_bind]. exists rec', arr. split; [done|]. split; [done|].
  assert (occupancy rec' = <[ck := t]> (occupancy rec)) as Hocc'' by by rewrite Hocc'.
  split_and!; try done.
  apply worldOk_insert; try done.
  - apply recordOk_both. intros t'. destruct (decide (t' = t)) as [->|Hne].
    + split_and!; try done. intros c. rewrite Hocc'', Hi'.
      rewrite lookup_insert_is_Some. destruct (decide (ck = c)) as [<-|Hc].
      * rewrite lookup_insert_eq. intuition.
      * rewrite lookup_insert_ne by done. rewrite Hlink. intuition.
    + apply (batchOk_frame t t' rec rec'); [exact Hne | exact Hfr | | apply Hall].
      intros c. rewrite Hocc''. destruct (decide (ck = c)) as [<-|Hc].
      * rewrite lookup_insert_eq, Hfree. split; [intros [= ->]|]; done.
      * by rewrite lookup_insert_ne.
  - destruct (Hdata _ _ Harr) as [Hcen Hnd]. split.
    + apply Forall_app. split; [done|]. by apply Forall_singleton.
    + rewrite fmap_app. apply NoDup_app. split_and!; [done| |apply NoDup_singleton].
      intros c Hc [= ->]%list_elem_of_singleton.
      apply occupancyOf_is_Some in Hc. rewrite <- Hocc in Hc.
      change (entryCell (x, y, z, t)) with ck in Hc. rewrite Hfree in Hc. by destruct Hc.
  - by rewrite Hocc'', Hocc, occupancyOf_app.
Qed.

Lemma filter_keepEntry x y z arr :
  mkPos x y z = centre (getCellKey (mkPos x y z)) →
  Forall (λ e, entryPos e = centre (entryCell e)) arr →
  filter (keepEntry x y z) arr = filter (λ e, entryCell e ≠ getCellKey (mkPos x y z)) arr.
Proof.
  intros Hpos Hall. induction Hall as [|e arr He Hall IH]; [done|].
  rewrite !filter_cons, IH.
  assert (keepEntry x y z e ↔ entryCell e ≠ getCellKey (mkPos x y z)) as Hiff.
  { unfold keepEntry. split.
    - intros Hk Hc. apply Hk. rewrite Hc, <- Hpos in He.
      destruct e as [[[ex ey] ez] et]. by injection He.
    - intros Hc (Hx & Hy & Hz). apply Hc. unfold entryCell, entryPos.
      by rewrite Hx, Hy, Hz. }
  destruct (decide (keepEntry x y z e)), (decide (entryCell e ≠ getCellKey (mkPos x y z)));
    tauto.
Qed.

Lemma removeBlockAt_ok w x y z t rec :
  worldOk w →
  chunks w !! getChunkKey (mkPos x y z) = Some rec →
  occupancy rec !! getCellKey (mkPos x y z) = Some t →
  mkPos x y z = centre (getCellKey (mkPos x y z)) →
  ∃ rec' arr,
    removeBlockAt x y z w =
      Ok (JSundefined,
          {| chunks := <[getChunkKey (mkPos x y z) := rec']> (chunks w);
             chunkData := <[getChunkKey (mkPos x y z) := filter (keepEntry x y z) arr]>
                            (chunkData w) |}) ∧
    chunkData w !! getChunkKey (mkPos x y z) = Some arr ∧
    worldOk {| chunks := <[getChunkKey (mkPos x y z) := rec']> (chunks w);
               chunkData := <[getChunkKey (mkPos x y z) := filter (keepEntry x y z) arr]>
                              (chunkData w) |} ∧
    occupancy rec' = delete (getCellKey (mkPos x y z)) (occupancy rec) ∧
    sameExcept t rec rec' ∧
    sel t (counts rec') + 1 = sel t (counts rec).
Proof.
  intros Hw Hrec Hocc Hpos. pose proof Hw as [Hdata Hchunks].
  destruct (Hchunks _ _ Hrec) as (Hy & Hok & arr & Harr & Hoccarr).
  set (key := getChunkKey (mkPos x y z)) in *.
  set (ck := getCellKey (mkPos x y z)) in *.
  unfold removeBlockAt, getChunkAtWorld. fold key. rewrite Hrec. fold ck. rewrite Hocc.
  pose proof (proj1 (recordOk_both rec) Hok) as Hall.
  destruct (Hall t) as (Hshape & Hlink & Hslots).
  destruct (proj1 (Hlink ck) Hocc) as [idx Hidx].
  destruct (swapRemove_spec rec t ck idx)
    as (rec' & -> & Hocc' & Hfr & Hshape' & Hn' & Hk' & Hdom' & Hslots'); try done.
  cbn [mbind run_bind]. rewrite Harr. exists rec', arr.
  split; [done|]. split; [done|]. split_and!; try done.
  destruct (Hdata _ _ Harr) as [Hcen Hnd].
  apply worldOk_insert; try done.
  - apply recordOk_both. intros t'. destruct (decide (t' = t)) as [->|Hne].
    + split_and!; try done. intros c. rewrite Hocc', Hdom'.
      destruct (decide (ck = c)) as [<-|Hc].
      * rewrite lookup_delete_eq. intuition congruence.
      * rewrite lookup_delete_ne by done. rewrite Hlink. intuition congruence.
    + apply (batchOk_frame t t' rec rec'); [exact Hne | exact Hfr | | apply Hall].
      intros c. rewrite Hocc'. destruct (decide (ck = c)) as [<-|Hc].
      * rewrite lookup_delete_eq, Hocc. split; [done|]. intros [= ->]. done.
      * by rewrite lookup_delete_ne.
  - by apply cacheOk_filter.
  - rewrite Hocc', Hoccarr, filter_keepEntry by done. by rewrite occupancyOf_filter.
Qed.

(** ** Edits that do nothing *)

Lemma addBlockAt_absent w x y z type :
  chunks w !! getChunkKey (mkPos x y z) = None →
  addBlockAt x y z type w = Ok (JSundefined, w).
Proof. intros H. unfold addBlockAt, getChunkAtWorld. by rewrite H. Qed.

Lemma addBlockAt_occupied w x y z type rec :
  chunks w !! getChunkKey (mkPos x y z) = Some rec →
  is_Some (occupancy rec !! getCellKey (mkPos x y z)) →
  addBlockAt x y z type w = Ok (JSundefined, w).
Proof. intros H Hocc. unfold addBlockAt, getChunkAtWorld. by rewrite H, decide_True. Qed.

Lemma removeBlockAt_absent w x y z :
  chunks w !! getChunkKey (mkPos x y z) = None →
  removeBlockAt x y z w = Ok (JSundefined, w).
Proof. intros H. unfold removeBlockAt, getChunkAtWorld. by rewrite H. Qed.

Lemma removeBlockAt_empty w x y z rec :
  chunks w !! getChunkKey (mkPos x y z) = Some rec →
  occupancy rec !! getCellKey (mkPos x y z) = None →
  removeBlockAt x y z w = Ok (JSundefined, w).
Proof. intros H Hocc. unfold removeBlockAt, getChunkAtWorld. by rewrite H, Hocc. Qed.

Lemma addBlockAt_undefined w x y z type v w' :
  addBlockAt x y z type w = Ok (v, w') → v = JSundefined.
Proof.
  unfold addBlockAt, getChunkAtWorld.
  destruct (chunks w !! _) as [rec|]; [|by intros [= <- _]].
  case_decide; [by intros [= <- _]|].
  destruct (writeInstance _ _ _ _ _ _); simpl; [by intros [= <- _]|done|done].
Qed.

Lemma removeBlockAt_undefined w x y z v w' :
  removeBlockAt x y z w = Ok (v, w') → v = JSundefined.
Proof.
  unfold removeBlockAt, getChunkAtWorld.
  destruct (chunks w !! _) as [rec|]; [|by intros [= <- _]].
  destruct (occupancy rec !! _) as [t|]; [|by intros [= <- _]].
  destruct (swapRemove _ _ _); simpl; [by intros [= <- _]|done|done].
Qed.

(** ** The generator *)

Lemma generate_footprint cx cz :
  generateGroundArrayForChunk cx cz = entryAt cx cz <$> footprint.
Proof. reflexivity. Qed.

Lemma footprint_NoDup : NoDup footprint.
Proof. apply (bool_decide_unpack _). vm_compute. exact I. Qed.

Lemma elem_of_footprint x y z :
  (x, y, z) ∈ footprint ↔ (0 ≤ x < 16 ∧ 0 ≤ y < 3 ∧ 0 ≤ z < 16)%Z.
Proof.
  unfold footprint. rewrite list_elem_of_bind. split.
  - intros (x' & (z' & (y' & Hin & Hy)%list_elem_of_bind & Hz)%list_elem_of_bind & Hx).
    apply list_elem_of_singleton in Hin. injection Hin as -> -> ->.
    apply elem_of_seqZ in Hx, Hy, Hz. unfold CHUNK_SIZE in *. lia.
  - intros (Hx & Hy & Hz). exists x. split; [|apply elem_of_seqZ; unfold CHUNK_SIZE; lia].
    apply list_elem_of_bind. exists z. split; [|apply elem_of_seqZ; unfold CHUNK_SIZE; lia].
    apply list_elem_of_bind. exists y. split; [|apply elem_of_seqZ; lia].
    by apply list_elem_of_singleton.
Qed.

Lemma ofZ_chunk (c x : Z) :
  (ofZ c * ofZ CHUNK_SIZE + ofZ x + half)%Qc = (ofZ (c * CHUNK_SIZE + x) + half)%Qc.
Proof. unfold ofZ. by rewrite Z2Qc_inj_add, Z2Qc_inj_mul. Qed.

Lemma entryAt_centre cx cz c :
  entryPos (entryAt cx cz c) = centre (cellAt cx cz c) ∧
  entryCell (entryAt cx cz c) = cellAt cx cz c.
Proof.
  assert (entryPos (entryAt cx cz c) = centre (cellAt cx cz c)) as H.
  { unfold entryPos, entryAt, centre, cellAt. simpl. by rewrite !ofZ_chunk. }
  split; [done|]. unfold entryCell. by rewrite H, getCellKey_centre.
Qed.

Lemma cellAt_inj cx cz c c' : cellAt cx cz c = cellAt cx cz c' → c = c'.
Proof.
  destruct c as [[x y] z], c' as [[x' y'] z']. unfold cellAt. simpl. intros [= ? ? ?].
  f_equal; [f_equal|]; lia.
Qed.

Lemma generate_cells cx cz :
  entryCell <$> generateGroundArrayForChunk cx cz = cellAt cx cz <$> footprint.
Proof.
  rewrite generate_footprint, <- list_fmap_compose. apply list_fmap_ext.
  intros i c _. simpl. apply entryAt_centre.
Qed.

Lemma generate_cacheOk cx cz : cacheOk (generateGroundArrayForChunk cx cz).
Proof.
  split.
  - rewrite generate_footprint. apply Forall_fmap, Forall_forall. intros c _. simpl.
    destruct (entryAt_centre cx cz c) as [H1 H2]. by rewrite H2.
  - rewrite generate_cells. apply NoDup_fmap_2_strong; [|apply footprint_NoDup].
    intros c c' _ _. apply cellAt_inj.
Qed.

(** ** Loading and unloading *)

Lemma buildRecord_recordFor arr : buildRecord arr = Ok (recordFor arr).
Proof. unfold recordFor. by destruct (buildRecord_spec arr) as (rec & -> & _). Qed.

Lemma loadOrGenerateChunk_spec cx cz w :
  chunks w !! (cx, 0%Z, cz) = None →
  loadOrGenerateChunk cx cz w =
    Ok {| chunks := <[(cx, 0%Z, cz) := recordFor (arrayFor (cx, 0%Z, cz) w)]> (chunks w);
          chunkData := <[(cx, 0%Z, cz) := arrayFor (cx, 0%Z, cz) w]> (chunkData w) |}.
Proof.
  intros Hnone. unfold loadOrGenerateChunk, getChunkKeyFromCoords, arrayFor.
  rewrite decide_False by (rewrite Hnone; by intros []).
  destruct (chunkData w !! (cx, 0%Z, cz)) as [arr|] eqn:Harr; simpl;
    unfold buildChunkFromArray; rewrite buildRecord_recordFor; cbn [mbind run_bind]; simpl.
  - by rewrite (insert_id (chunkData w)).
  - done.
Qed.

(** Membership in the set of visited keys. *)
Ltac visited :=
  repeat match goal with
         | H : context [_ ∈ _ ∪ {[_]}] |- _ => rewrite elem_of_union, elem_of_singleton in H
         end;
  rewrite ?elem_of_union, ?elem_of_singleton; intuition congruence.

Lemma loadAround_spec pcx pcz ds : ∀ active done w0 w,
  loadedFrom w0 done w →
  ∃ w', loadAround pcx pcz ds active w
          = Ok (active ∪ list_to_set (keyOf pcx pcz <$> ds), w') ∧
        loadedFrom w0 (done ∪ list_to_set (keyOf pcx pcz <$> ds)) w'.
Proof.
  induction ds as [|[dx dz] ds IH]; intros active done w0 w [Hch Hdata].
  - simpl. exists w. rewrite !(right_id_L ∅ (∪)). done.
  - cbn [loadAround]. set (key := getChunkKeyFromCoords (pcx + dx) 0 (pcz + dz)).
    assert (∃ w1, (if decide (is_Some (chunks w !! key)) then Ok w
                   else loadOrGenerateChunk (pcx + dx) (pcz + dz) w) = Ok w1 ∧
                  loadedFrom w0 (done ∪ {[key]}) w1) as (w1 & -> & Hw1).
    { destruct (decide (is_Some (chunks w !! key))) as [[rec Hrec]|Hnone].
      - exists w. split; [done|]. split.
        + intros k. rewrite Hch. destruct (chunks w0 !! k) eqn:Hk0; [done|].
          destruct (decide (k = key)) as [->|Hne].
          * rewrite Hch, Hk0 in Hrec. case_decide; [|done].
            rewrite decide_True by visited. done.
          * repeat case_decide; try done; visited.
        + intros k. rewrite Hdata. destruct (chunkData w0 !! k) eqn:Hk0; [done|].
          destruct (decide (k = key)) as [->|Hne].
          * rewrite Hch in Hrec. destruct (chunks w0 !! key) eqn:Hc0.
            -- rewrite !decide_False by (by intros [_ ?]). done.
            -- case_decide; [|done]. rewrite !decide_True; [done| |]; split; visited.
          * repeat case_decide; try done; visited.
      - apply eq_None_not_Some in Hnone. pose proof Hnone as Hnone'.
        rewrite Hch in Hnone'. destruct (chunks w0 !! key) eqn:Hc0; [done|].
        case_decide as Hdone; [done|].
        assert (arrayFor key w = arrayFor key w0) as Harr.
        { unfold arrayFor. rewrite Hdata. destruct (chunkData w0 !! key); [done|].
          rewrite decide_False; [done|]. by intros [? _]. }
        unfold key, getChunkKeyFromCoords in *. rewrite loadOrGenerateChunk_spec by done.
        eexists. split; [reflexivity|]. rewrite Harr. split; simpl.
        + intros k. rewrite lookup_insert. case_decide as Hk.
          * subst k. rewrite Hc0. rewrite decide_True by visited. done.
          * rewrite Hch. destruct (chunks w0 !! k); [done|].
            repeat case_decide; try done; visited.
        + intros k. rewrite lookup_insert. case_decide as Hk.
          * subst k. unfold arrayFor.
            destruct (chunkData w0 !! _) eqn:Hd0; simpl; [done|].
            rewrite decide_True; [|split; [visited|done]]. done.
          * rewrite Hdata. destruct (chunkData w0 !! k); [done|].
            repeat case_decide; try done; visited. }
    cbn [mbind run_bind].
    destruct (IH (active ∪ {[key]}) (done ∪ {[key]}) w0 w1 Hw1) as (w' & -> & Hw').
    exists w'. rewrite fmap_cons, list_to_set_cons.
    change (keyOf pcx pcz (dx, dz)) with key.
    rewrite !(assoc_L (∪)). done.
Qed.

Lemma unloadChunk_chunks key w : chunks (unloadChunk key w) = delete key (chunks w).
Proof.
  unfold unloadChunk. destruct (chunks w !! key) eqn:H; [done|].
  by rewrite delete_id.
Qed.

Lemma unloadChunk_chunkData key w : chunkData (unloadChunk key w) = chunkData w.
Proof. unfold unloadChunk. by destruct (chunks w !! key). Qed.

Lemma unload_fold active keys : ∀ w,
  chunkData (unloadAll active keys w) = chunkData w ∧
  ∀ key, chunks (unloadAll active keys w) !! key =
         if decide (key ∈ keys ∧ key ∉ active) then None else chunks w !! key.
Proof.
  unfold unloadAll. induction keys as [|k keys IH]; intros w; cbn [foldl].
  - split; [done|]. intros key. rewrite decide_False; [done|]. intros [?%elem_of_nil _]. done.
  - destruct (IH (if decide (k ∈ active) then w else unloadChunk k w)) as [Hd Hc].
    split.
    + rewrite Hd. case_decide; [done|apply unloadChunk_chunkData].
    + intros key. rewrite Hc.
      assert (key ∈ k :: keys ∧ key ∉ active ↔
              (key = k ∧ k ∉ active) ∨ (key ∈ keys ∧ key ∉ active)) as Hcons.
      { rewrite elem_of_cons. split.
        - intros [[->|Hin] Hout]; [by left|by right].
        - intros [[-> Hout]|[Hin Hout]]; (split; [|done]); [by left|by right]. }
      destruct (decide (key ∈ keys ∧ key ∉ active)) as [Hfar|Hnear].
      * rewrite decide_True; [done|]. apply Hcons. by right.
      * destruct (decide (k ∈ active)) as [Hk|Hk].
        -- rewrite decide_False; [done|]. rewrite Hcons. intros [[_ Hout]|Hfar]; done.
        -- rewrite unloadChunk_chunks. destruct (decide (key = k)) as [->|Hne].
           ++ rewrite lookup_delete_eq, decide_True; [done|]. apply Hcons. by left.
           ++ rewrite lookup_delete_ne by done. rewrite decide_False; [done|].
              rewrite Hcons. intros [[Heq _]|Hfar]; done.
Qed.

Lemma unloadFar_spec active w :
  chunkData (unloadFar active w) = chunkData w ∧
  ∀ key, chunks (unloadFar active w) !! key =
         if decide (key ∈ active) then chunks w !! key else None.
Proof.
  unfold unloadFar. destruct (unload_fold active (map_to_list (chunks w)).*1 w) as [Hd Hc].
  unfold unloadAll in *.
  split; [done|]. intros key. rewrite Hc.
  destruct (decide (key ∈ active)) as [Hk|Hk].
  - rewrite decide_False; [done|]. by intros [_ ?].
  - destruct (chunks w !! key) as [rec|] eqn:Hrec.
    + rewrite decide_True; [done|]. split; [|done].
      apply list_elem_of_fmap. exists (key, rec). split; [done|].
      by apply elem_of_map_to_list.
    + by case_decide.
Qed.

Lemma elem_of_offsets dx dz :
  (dx, dz) ∈ offsets ↔
  (- RENDER_DISTANCE ≤ dx ≤ RENDER_DISTANCE ∧ - RENDER_DISTANCE ≤ dz ≤ RENDER_DISTANCE)%Z.
Proof.
  unfold offsets. rewrite list_elem_of_bind. split.
  - intros (x & (z & Hin & Hz)%list_elem_of_bind & Hx).
    apply list_elem_of_singleton in Hin. injection Hin as -> ->.
    apply elem_of_seqZ in Hx, Hz. lia.
  - intros [Hx Hz]. exists dx. split; [|apply elem_of_seqZ; lia].
    apply list_elem_of_bind. exists dz. split; [|apply elem_of_seqZ; lia].
    by apply list_elem_of_singleton.
Qed.

Lemma elem_of_neighbourhood pcx pcz key :
  key ∈ neighbourhood pcx pcz ↔
  ∃ cx cz, key = (cx, 0, cz)%Z ∧
           (Z.abs (cx - pcx) `max` Z.abs (cz - pcz) ≤ RENDER_DISTANCE)%Z.
Proof.
  unfold neighbourhood. rewrite elem_of_list_to_set, list_elem_of_fmap. split.
  - intros ([dx dz] & -> & [Hx Hz]%elem_of_offsets).
    exists (pcx + dx)%Z, (pcz + dz)%Z. split; [done|]. lia.
  - intros (cx & cz & -> & Hd). exists (cx - pcx, cz - pcz)%Z. split.
    + unfold keyOf, getChunkKeyFromCoords. simpl. f_equal; [f_equal|]; lia.
    + apply elem_of_offsets. lia.
Qed.

Lemma updateChunks_spec camx camz w :
  let pcx := floor (camx / ofZ CHUNK_SIZE)%Qc in
  let pcz := floor (camz / ofZ CHUNK_SIZE)%Qc in
  ∃ w', updateChunks camx camz w = Ok w' ∧
    (∀ key, chunks w' !! key =
            if decide (key ∈ neighbourhood pcx pcz) then
              match chunks w !! key with
              | Some rec => Some rec
              | None => Some (recordFor (arrayFor key w))
              end
            else None) ∧
    (∀ key, chunkData w' !! key =
            match chunkData w !! key with
            | Some arr => Some arr
            | None => if decide (key ∈ neighbourhood pcx pcz ∧ chunks w !! key = None)
                      then Some (arrayFor key w) else None
            end).
Proof.
  intros pcx pcz. unfold updateChunks. fold pcx pcz.
  destruct (loadAround_spec pcx pcz offsets ∅ ∅ w w) as (w1 & -> & Hch & Hdata).
  { split; intros key.
    - destruct (chunks w !! key); [done|]. by rewrite decide_False by apply not_elem_of_empty.
    - destruct (chunkData w !! key); [done|]. rewrite decide_False; [done|].
      intros [Hin _]. by apply not_elem_of_empty in Hin. }
  cbn [mbind run_bind]. eexists. split; [reflexivity|].
  rewrite !(left_id_L ∅ (∪)) in *. fold (neighbourhood pcx pcz) in *.
  destruct (unloadFar_spec (neighbourhood pcx pcz) w1) as [Hd Hc]. split.
  - intros key. rewrite Hc, Hch. case_decide; [|done]. done.
  - intros key. by rewrite Hd, Hdata.
Qed.

Lemma worldOk_initial : worldOk initialWorld.
Proof. split; intros key x; simpl; by rewrite lookup_empty. Qed.

Lemma arrayFor_cacheOk key w : worldOk w → cacheOk (arrayFor key w).
Proof.
  intros [Hdata _]. unfold arrayFor. destruct (chunkData w !! key) eqn:H; simpl.
  - by eapply Hdata.
  - apply generate_cacheOk.
Qed.

Lemma recordFor_ok arr :
  occupancy (recordFor arr) = occupancyOf arr ∧ (cacheOk arr → recordOk (recordFor arr)).
Proof.
  destruct (buildRecord_spec arr) as (rec & Hrun & Hocc & Hok).
  rewrite buildRecord_recordFor in Hrun. injection Hrun as ->. done.
Qed.

Lemma updateChunks_worldOk camx camz w w' :
  worldOk w → updateChunks camx camz w = Ok w' → worldOk w'.
Proof.
  intros Hw Hrun. destruct (updateChunks_spec camx camz w) as (w1 & Hrun' & Hch & Hdata).
  rewrite Hrun in Hrun'. injection Hrun' as <-. pose proof Hw as [Hd Hc]. split.
  - intros key arr. rewrite Hdata. destruct (chunkData w !! key) eqn:Hk.
    + intros [= <-]. by eapply Hd.
    + case_decide; [|done]. intros [= <-]. by apply arrayFor_cacheOk.
  - intros key rec. rewrite Hch. case_decide as Hn; [|done].
    destruct (chunks w !! key) as [rec0|] eqn:Hk.
    + intros [= <-]. destruct (Hc _ _ Hk) as (Hy & Hok & arr & Harr & Hocc).
      split_and!; try done. exists arr. by rewrite Hdata, Harr.
    + intros [= <-]. pose proof Hn as Hn'.
      apply elem_of_neighbourhood in Hn as (cx & cz & -> & _).
      destruct (recordFor_ok (arrayFor (cx, 0%Z, cz) w)) as [Hocc Hok].
      split_and!; [done|by apply Hok, arrayFor_cacheOk|].
      exists (arrayFor (cx, 0%Z, cz) w). split; [|done].
      rewrite Hdata. destruct (chunkData w !! (cx, 0%Z, cz)) eqn:Hd0.
      * unfold arrayFor. by rewrite Hd0.
      * rewrite decide_True; [done|]. by split.
Qed.

Lemma step_worldOk w w' : worldOk w → step w w' → worldOk w'.
Proof.
  intros Hw [camx camz Hrun | x y z t v Hrun | x y z v Hrun].
  - by eapply updateChunks_worldOk.
  - set (X := snapToGrid x) in *. set (Y := snapToGrid y) in *. set (Z' := snapToGrid z) in *.
    destruct (chunks w !! getChunkKey (mkPos X Y Z')) as [rec|] eqn:Hrec.
    + destruct (occupancy rec !! getCellKey (mkPos X Y Z')) as [t'|] eqn:Hocc.
      * unfold addBlockAt, getChunkAtWorld in Hrun. rewrite Hrec in Hrun.
        rewrite decide_True in Hrun by (by eexists). by injection Hrun as _ <-.
      * destruct (addBlockAt_ok w X Y Z' t rec Hw Hrec Hocc (snapToGrid_centre x y z))
          as (rec' & arr & Hrun' & _ & Hw' & _).
        rewrite Hrun in Hrun'. by injection Hrun' as _ ->.
    + unfold addBlockAt, getChunkAtWorld in Hrun. rewrite Hrec in Hrun.
      by injection Hrun as _ <-.
  - set (X := snapToGrid x) in *. set (Y := snapToGrid y) in *. set (Z' := snapToGrid z) in *.
    destruct (chunks w !! getChunkKey (mkPos X Y Z')) as [rec|] eqn:Hrec.
    + destruct (occupancy rec !! getCellKey (mkPos X Y Z')) as [t'|] eqn:Hocc.
      * destruct (removeBlockAt_ok w X Y Z' t' rec Hw Hrec Hocc (snapToGrid_centre x y z))
          as (rec' & arr & Hrun' & _ & Hw' & _).
        rewrite Hrun in Hrun'. by injection Hrun' as _ ->.
      * unfold removeBlockAt, getChunkAtWorld in Hrun. rewrite Hrec, Hocc in Hrun.
        by injection Hrun as _ <-.
    + unfold removeBlockAt, getChunkAtWorld in Hrun. rewrite Hrec in Hrun.
      by injection Hrun as _ <-.
Qed.

Lemma reachable_worldOk w : reachable w → worldOk w.
Proof.
  induction 1 as [|w w' _ IH Hstep]; [apply worldOk_initial|]. by eapply step_worldOk.
Qed.

(** Every step the program can take from a reachable world returns: no
    exception, nothing outside the model. *)
Lemma reachable_progress w camx camz x y z type :
  reachable w →
  returns (updateChunks camx camz w) ∧
  returns (addBlockAt (snapToGrid x) (snapToGrid y) (snapToGrid z) type w) ∧
  returns (removeBlockAt (snapToGrid x) (snapToGrid y) (snapToGrid z) w).
Proof.
  intros Hw%reachable_worldOk.
  set (X := snapToGrid x). set (Y := snapToGrid y). set (Z' := snapToGrid z).
  split_and!.
  - destruct (updateChunks_spec camx camz w) as (w' & Hrun & _). by exists w'.
  - destruct (chunks w !! getChunkKey (mkPos X Y Z')) as [rec|] eqn:Hrec.
    + destruct (occupancy rec !! getCellKey (mkPos X Y Z')) as [t'|] eqn:Hocc.
      * eexists. eapply addBlockAt_occupied; [done|by eexists].
      * destruct (addBlockAt_ok w X Y Z' type rec Hw Hrec Hocc (snapToGrid_centre x y z))
          as (rec' & arr & Hrun & _). by eexists.
    + eexists. by apply addBlockAt_absent.
  - destruct (chunks w !! getChunkKey (mkPos X Y Z')) as [rec|] eqn:Hrec.
    + destruct (occupancy rec !! getCellKey (mkPos X Y Z')) as [t'|] eqn:Hocc.
      * destruct (removeBlockAt_ok w X Y Z' t' rec Hw Hrec Hocc (snapToGrid_centre x y z))
          as (rec' & arr & Hrun & _). by eexists.
      * eexists. by eapply removeBlockAt_empty.
    + eexists. by apply removeBlockAt_absent.
Qed.

(** C1.  Round-trip persistence: in every world the program reaches, a
    resident chunk has the key [(cx, 0, cz)] and a persistent array; when
    the chunk is unloaded and loaded again, [loadOrGenerateChunk] returns,
    leaves the cache as it was, builds the record from that array, and the
    occupancy of the new record equals the occupancy at the unload. *)
Theorem round_trip_persistence w key rec :
  reachable w → chunks w !! key = Some rec →
  ∃ cx cz arr w' rec',
    key = getChunkKeyFromCoords cx 0 cz ∧
    chunkData w !! key = Some arr ∧
    loadOrGenerateChunk cx cz (unloadChunk key w) = Ok w' ∧
    chunkData w' = chunkData w ∧
    buildRecord arr = Ok rec' ∧
    chunks w' !! key = Some rec' ∧
    occupancy rec' = occupancy rec.
Proof.
  intros Hreach Hrec. destruct (reachable_worldOk w Hreach) as [Hdata Hchunks].
  destruct (Hchunks key rec Hrec) as (Hy & _ & arr & Harr & Hocc).
  destruct key as [[cx cy] cz]. simpl in Hy. subst cy.
  exists cx, cz, arr. 
  assert (chunks (unloadChunk (cx, 0%Z, cz) w) !! (cx, 0%Z, cz) = None) as Hgone.
  { by rewrite unloadChunk_chunks, lookup_delete_eq. }
  rewrite (loadOrGenerateChunk_spec cx cz _ Hgone).
  unfold arrayFor. rewrite unloadChunk_chunkData, Harr. simpl.
  eexists _, (recordFor arr). split_and!; try done.
  - simpl. by rewrite insert_id.
  - apply buildRecord_recordFor.
  - simpl. by rewrite lookup_insert_eq.
  - rewrite Hocc. apply recordFor_ok.
Qed.

(** C2.  Batch density: in every world the program reaches and for each
    material of a resident chunk, the index-to-cell array has exactly
    [counts] elements, the mesh draws [counts] instances out of [capacity]
    matrices, the slots below [counts] are exactly the filled ones, a cell
    is occupied with that material iff the cell-to-index map sends it to a
    slot below [counts], the map and the array are inverse to each other,
    and the matrix of a slot is the translation to the centre of its
    cell. *)
Theorem batch_density w key rec t :
  reachable w → chunks w !! key = Some rec →
  length (sel t (cellsByIndex rec)) = sel t (counts rec) ∧
  sel t (counts rec) ≤ sel t (capacities rec) ∧
  (∀ mesh, sel t (meshes rec) = Some mesh →
     count mesh = sel t (counts rec) ∧
     length (instanceMatrix mesh) = sel t (capacities rec)) ∧
  (∀ i, i < sel t (counts rec) ↔ is_Some (sel t (cellsByIndex rec) !! i)) ∧
  (∀ ck, occupancy rec !! ck = Some t ↔
         ∃ i, i < sel t (counts rec) ∧ sel t (indexMaps rec) !! ck = Some i) ∧
  (∀ ck i, sel t (indexMaps rec) !! ck = Some i ↔ sel t (cellsByIndex rec) !! i = Some ck) ∧
  (∀ ck i, sel t (cellsByIndex rec) !! i = Some ck →
     ∃ mesh, sel t (meshes rec) = Some mesh ∧
             getMatrixAt mesh i = Ok (makeTranslation (px (centre ck)) (py (centre ck))
                                                       (pz (centre ck))) ∧
             setFromMatrixPosition (makeTranslation (px (centre ck)) (py (centre ck))
                                                    (pz (centre ck))) = centre ck).
Proof.
  intros Hreach Hrec. destruct (reachable_worldOk w Hreach) as [_ Hchunks].
  destruct (Hchunks key rec Hrec) as (_ & Hok & _).
  destruct (proj1 (recordOk_both rec) Hok t) as ((Hlen & Hle & Hst & Hcnt) & Hlink & Hslots).
  pose proof Hslots as [Hbij Hmat].
  split_and!; try done.
  - intros mesh Hm. split; [by apply Hcnt|]. by rewrite Hm in Hst.
  - intros i. rewrite <- Hlen. symmetry. apply lookup_lt_is_Some.
  - intros ck. rewrite Hlink. split.
    + intros [i Hi]. exists i. split; [|done]. rewrite <- Hlen. by eapply slotsOk_lt.
    + intros (i & _ & Hi). by exists i.
  - intros ck i Hi. apply Hmat in Hi as Hm.
    destruct (sel t (meshes rec)) as [mesh|]; [|simpl in Hm; by rewrite lookup_nil in Hm].
    exists mesh. split; [done|]. unfold getMatrixAt. simpl in Hm. rewrite Hm.
    split; [done|]. by destruct ck as [[a b] c].
Qed.

(** C4.  Streaming reconciliation: from any world, [updateChunks]
    returns, and afterwards a key is resident iff it is [(cx, 0, cz)] at
    Chebyshev distance at most [RENDER_DISTANCE] from the viewer's chunk;
    a chunk that was resident and stays resident keeps its record; a chunk
    that becomes resident is built from its cached array if there is one,
    else from the generated array, which is then the cache entry; cache
    entries are kept, and a new cache entry belongs to a newly loaded
    chunk. *)
Theorem streaming_reconciliation camx camz w :
  ∃ w', updateChunks camx camz w = Ok w' ∧
    (∀ key, is_Some (chunks w' !! key) ↔
            ∃ cx cz, key = getChunkKeyFromCoords cx 0 cz ∧
                     (Z.abs (cx - floor (camx / ofZ CHUNK_SIZE)%Qc) `max`
                      Z.abs (cz - floor (camz / ofZ CHUNK_SIZE)%Qc) ≤ RENDER_DISTANCE)%Z) ∧
    (∀ key rec, chunks w !! key = Some rec → is_Some (chunks w' !! key) →
                chunks w' !! key = Some rec) ∧
    (∀ key, chunks w !! key = None → is_Some (chunks w' !! key) →
       ∃ arr rec, chunkData w' !! key = Some arr ∧ buildRecord arr = Ok rec ∧
                  chunks w' !! key = Some rec ∧
                  match chunkData w !! key with
                  | Some cached => arr = cached
                  | None => arr = generateGroundArrayForChunk key.1.1 key.2
                  end) ∧
    (∀ key arr, chunkData w !! key = Some arr → chunkData w' !! key = Some arr) ∧
    (∀ key, chunkData w !! key = None → is_Some (chunkData w' !! key) →
            chunks w !! key = None ∧ is_Some (chunks w' !! key)).
Proof.
  destruct (updateChunks_spec camx camz w) as (w' & Hrun & Hch & Hdata). simpl in *.
  set (pcx := floor (camx / ofZ CHUNK_SIZE)%Qc) in *.
  set (pcz := floor (camz / ofZ CHUNK_SIZE)%Qc) in *.
  assert (∀ key, is_Some (chunks w' !! key) ↔ key ∈ neighbourhood pcx pcz) as Hdom.
  { intros key. rewrite Hch. case_decide as Hn.
    - split; [done|]. intros _. by destruct (chunks w !! key).
    - split; [by intros []|done]. }
  exists w'. split_and!; try done.
  - intros key. rewrite Hdom. apply elem_of_neighbourhood.
  - intros key rec Hrec Hin. apply Hdom in Hin. by rewrite Hch, decide_True, Hrec.
  - intros key Hnone Hin. apply Hdom in Hin.
    exists (arrayFor key w), (recordFor (arrayFor key w)). split_and!.
    + rewrite Hdata. unfold arrayFor. destruct (chunkData w !! key); [done|].
      by rewrite decide_True.
    + apply buildRecord_recordFor.
    + by rewrite Hch, decide_True, Hnone.
    + unfold arrayFor. by destruct (chunkData w !! key).
  - intros key arr Harr. by rewrite Hdata, Harr.
  - intros key Hnone. rewrite Hdata, Hnone. case_decide as Hn; [|by intros []].
    intros _. destruct Hn as [Hn Hc]. split; [done|]. by apply Hdom.
Qed.

(** C5.  Capacity growth: for a batch whose active count is within its
    capacity and its backing store, [ensureCapacityForType] leaves the
    record unchanged when [needed] fits; otherwise it returns the record
    with a new mesh of [max(needed, max(8, 2 * capacity))] matrices in
    place of the old one, drawing the same number of instances, whose
    matrices below the active count are those of the old store at the same
    indices. *)
Theorem capacity_growth record type needed :
  sel type (counts record) ≤ sel type (capacities record) →
  sel type (counts record) ≤ length (storeOf (sel type (meshes record))) →
  (needed ≤ sel type (capacities record) →
   ensureCapacityForType record type needed = Ok record) ∧
  (sel type (capacities record) < needed →
   ∃ newMesh,
     ensureCapacityForType record type needed =
       Ok (withCapacity type (needed `max` (8 `max` (sel type (capacities record) * 2)))
             (withMesh type (Some newMesh) record)) ∧
     length (instanceMatrix newMesh)
       = needed `max` (8 `max` (sel type (capacities record) * 2)) ∧
     count newMesh = sel type (counts record) ∧
     ∀ i, i < sel type (counts record) →
          instanceMatrix newMesh !! i = storeOf (sel type (meshes record)) !! i).
Proof.
  intros Hle Hst. split.
  - apply ensureCapacityForType_enough.
  - intros Hlt. destruct (ensureCapacityForType_grow record type needed Hst Hle Hlt)
      as (newMesh & Hrun & Hlen & _ & Hcnt & Hcopy & _).
    by exists newMesh.
Qed.

(** C6.  The generator: [generateGroundArrayForChunk cx cz] has 768
    entries, all distinct; its entries are exactly the green entries at
    [(cx * 16 + x + 0.5, y + 0.5, cz * 16 + z + 0.5)] for [x], [z] below 16
    and [y] below 3; equal chunk coordinates give equal lists (the function
    reads no state). *)
Theorem generator_reference cx cz :
  length (generateGroundArrayForChunk cx cz) = 768 ∧
  NoDup (generateGroundArrayForChunk cx cz) ∧
  (∀ e, e ∈ generateGroundArrayForChunk cx cz ↔
        ∃ x y z, (0 ≤ x < 16 ∧ 0 ≤ y < 3 ∧ 0 ≤ z < 16)%Z ∧
                 e = ((ofZ cx * ofZ 16 + ofZ x + half)%Qc, (ofZ y + half)%Qc,
                      (ofZ cz * ofZ 16 + ofZ z + half)%Qc, green)) ∧
  (∀ cx' cz', cx' = cx → cz' = cz →
              generateGroundArrayForChunk cx' cz' = generateGroundArrayForChunk cx cz).
Proof.
  split_and!.
  - by rewrite generate_footprint, length_fmap.
  - eapply NoDup_fmap_1. apply generate_cacheOk.
  - intros e. rewrite generate_footprint, list_elem_of_fmap. split.
    + intros ([[x y] z] & -> & Hin). apply elem_of_footprint in Hin. by exists x, y, z.
    + intros (x & y & z & Hin & ->). exists (x, y, z). split; [done|].
      by apply elem_of_footprint.
  - by intros ? ? -> ->.
Qed.

(** C7, amended.  [addBlockAt] on a chunk that is not resident or on an
    occupied cell, and [removeBlockAt] on a chunk that is not resident or
    on an empty cell, return [undefined] without raising and leave the
    whole world unchanged; every edit that returns, successful or not,
    returns [undefined]. *)
Theorem edit_noop_unchanged w x y z type :
  ((chunks w !! getChunkKey (mkPos x y z) = None ∨
    ∃ rec, chunks w !! getChunkKey (mkPos x y z) = Some rec ∧
           is_Some (occupancy rec !! getCellKey (mkPos x y z))) →
   addBlockAt x y z type w = Ok (JSundefined, w)) ∧
  ((chunks w !! getChunkKey (mkPos x y z) = None ∨
    ∃ rec, chunks w !! getChunkKey (mkPos x y z) = Some rec ∧
           occupancy rec !! getCellKey (mkPos x y z) = None) →
   removeBlockAt x y z w = Ok (JSundefined, w)) ∧
  (∀ v w', addBlockAt x y z type w = Ok (v, w') → v = JSundefined) ∧
  (∀ v w', removeBlockAt x y z w = Ok (v, w') → v = JSundefined).
Proof.
  split_and!.
  - intros [H | (rec & H & Hocc)].
    + by apply addBlockAt_absent.
    + by eapply addBlockAt_occupied.
  - intros [H | (rec & H & Hocc)].
    + by apply removeBlockAt_absent.
    + by eapply removeBlockAt_empty.
  - intros v w'. apply addBlockAt_undefined.
  - intros v w'. apply removeBlockAt_undefined.
Qed.

Lemma placementTarget_up cx cy cz :
  placementTarget (centre (cx, cy, cz)) (mkPos 0 1 0)%Qc = centre (cx, cy + 1, cz)%Z.
Proof.
  unfold placementTarget, centre, cubeSize. simpl.
  assert (∀ n : Z, (ofZ n + half + 0 * 1 = ofZ n + half)%Qc) as H0 by (intros; ring).
  assert (∀ n : Z, (ofZ n + half + 1 * 1 = ofZ (n + 1) + half)%Qc) as H1.
  { intros n. unfold ofZ. rewrite Z2Qc_inj_add, Z2Qc_inj_1. ring. }
  by rewrite !H0, H1, !snapToGrid_eq, !floor_ofZ_half.
Qed.

(** C9.  Vertical range: in every world the program reaches all resident
    keys have [y = 0]; hence at any position with
    [floor(y / CHUNK_SIZE) ≠ 0] both edits return [undefined] and leave the
    world unchanged; the centre of a cell of height [cy] is such a position
    iff [cy < 0] or [16 ≤ cy]; and the mouse handler's target for the top
    face of a block at height 15 is the cell at height 16. *)
Theorem vertical_range_noop w :
  reachable w →
  (∀ key, is_Some (chunks w !! key) → key.1.2 = 0%Z) ∧
  (∀ x y z type, floor (y / ofZ CHUNK_SIZE)%Qc ≠ 0%Z →
     addBlockAt x y z type w = Ok (JSundefined, w) ∧
     removeBlockAt x y z w = Ok (JSundefined, w)) ∧
  (∀ cy : Z, floor ((ofZ cy + half) / ofZ CHUNK_SIZE)%Qc ≠ 0%Z ↔ (cy < 0 ∨ 16 ≤ cy)%Z) ∧
  (∀ cx cz : Z,
     getCellKey (placementTarget (centre (cx, 15, cz)%Z) (mkPos 0 1 0)%Qc) = (cx, 16, cz)%Z).
Proof.
  intros Hreach. destruct (reachable_worldOk w Hreach) as [_ Hchunks].
  assert (∀ key, is_Some (chunks w !! key) → key.1.2 = 0%Z) as Hy.
  { intros key [rec Hrec]. by destruct (Hchunks key rec Hrec). }
  split_and!; [done| | |].
  - intros x y z type Hne.
    assert (chunks w !! getChunkKey (mkPos x y z) = None) as Hnone.
    { destruct (chunks w !! getChunkKey (mkPos x y z)) eqn:Hk; [|done].
      exfalso. apply Hne. apply (Hy (getChunkKey (mkPos x y z))). by eexists. }
    split; [by apply addBlockAt_absent | by apply removeBlockAt_absent].
  - intros cy. rewrite floor_div16. split.
    + intros Hne. destruct (decide (0 ≤ cy < 16)%Z) as [Hin|]; [|lia].
      exfalso. apply Hne. by apply Z.div_small.
    + intros Hout Hz. apply Z.div_small_iff in Hz; lia.
  - intros cx cz. by rewrite placementTarget_up, getCellKey_centre.
Qed.

(** ** Concrete worlds

    The functions below are no longer unfolded: the lemmas above describe
    what they return. *)

Global Arguments recordFor : simpl never.
Global Arguments generateGroundArrayForChunk : simpl never.
Global Arguments buildRecord : simpl never.
Global Arguments updateChunks : simpl never.
Global Arguments addBlockAt : simpl never.
Global Arguments removeBlockAt : simpl never.
Global Opaque updateChunks addBlockAt removeBlockAt buildRecord generateGroundArrayForChunk
  recordFor.

Lemma Ok_inj {A} (a b : A) : Ok a = Ok b → a = b.
Proof. by intros [= ->]. Qed.

Lemma world1_run : updateChunks 0%Qc 0%Qc initialWorld = Ok world1.
Proof.
  unfold world1. by destruct (updateChunks_spec 0%Qc 0%Qc initialWorld) as (w & -> & _).
Qed.

Global Opaque world1.

Lemma world1_reachable : reachable world1.
Proof. eapply reach_step; [apply reach_initial|]. eapply step_update, world1_run. Qed.

Lemma world1_origin :
  chunks world1 !! (0, 0, 0)%Z = Some (recordFor (generateGroundArrayForChunk 0 0)) ∧
  chunkData world1 !! (0, 0, 0)%Z = Some (generateGroundArrayForChunk 0 0).
Proof.
  destruct (updateChunks_spec 0%Qc 0%Qc initialWorld) as (w & Hrun & Hch & Hdata).
  rewrite world1_run in Hrun. apply Ok_inj in Hrun. subst w.
  assert ((0, 0, 0)%Z ∈ neighbourhood (floor (0 / ofZ CHUNK_SIZE)%Qc)
                                       (floor (0 / ofZ CHUNK_SIZE)%Qc)) as Hin.
  { apply elem_of_neighbourhood. exists 0%Z, 0%Z. split; [done|]. by vm_compute. }
  split.
  - rewrite Hch, decide_True by done. simpl. by rewrite lookup_empty.
  - rewrite Hdata. simpl. rewrite lookup_empty, decide_True; [done|].
    split; [done|]. simpl. by rewrite lookup_empty.
Qed.

Lemma generated_occupancy cx cz ck :
  is_Some (occupancy (recordFor (generateGroundArrayForChunk cx cz)) !! ck) ↔
  ∃ x y z, (0 ≤ x < 16 ∧ 0 ≤ y < 3 ∧ 0 ≤ z < 16)%Z ∧
           ck = (cx * 16 + x, y, cz * 16 + z)%Z.
Proof.
  destruct (recordFor_ok (generateGroundArrayForChunk cx cz)) as [-> _].
  rewrite occupancyOf_is_Some, generate_cells, list_elem_of_fmap. split.
  - intros ([[x y] z] & -> & Hin). apply elem_of_footprint in Hin. by exists x, y, z.
  - intros (x & y & z & Hin & ->). exists (x, y, z). split; [done|].
    by apply elem_of_footprint.
Qed.

Lemma block_keys :
  getChunkKey (mkPos X0 Y3 X0) = (0, 0, 0)%Z ∧ getCellKey (mkPos X0 Y3 X0) = (0, 3, 0)%Z ∧
  getChunkKey (mkPos X0 X0 X0) = (0, 0, 0)%Z ∧ getCellKey (mkPos X0 X0 X0) = (0, 0, 0)%Z.
Proof. by vm_compute. Qed.

Lemma world1_free :
  ∃ rec, chunks world1 !! getChunkKey (mkPos X0 Y3 X0) = Some rec ∧
         occupancy rec !! getCellKey (mkPos X0 Y3 X0) = None.
Proof.
  destruct block_keys as (-> & -> & _). destruct world1_origin as [Hrec _].
  eexists. split; [done|]. apply eq_None_not_Some.
  intros (x & y & z & Hin & [= ? ? ?])%generated_occupancy. lia.
Qed.

Lemma world1_ground :
  ∃ rec, chunks world1 !! getChunkKey (mkPos X0 X0 X0) = Some rec ∧
         is_Some (occupancy rec !! getCellKey (mkPos X0 X0 X0)).
Proof.
  destruct block_keys as (_ & _ & -> & ->). destruct world1_origin as [Hrec _].
  eexists. split; [done|]. apply generated_occupancy. exists 0%Z, 0%Z, 0%Z. split; [lia|done].
Qed.

Lemma world2_run :
  addBlockAt X0 Y3 X0 brown world1 = Ok (JSundefined, world2) ∧
  ∃ rec1 rec2,
    chunks world1 !! getChunkKey (mkPos X0 Y3 X0) = Some rec1 ∧
    chunks world2 !! getChunkKey (mkPos X0 Y3 X0) = Some rec2 ∧
    occupancy rec2 = <[getCellKey (mkPos X0 Y3 X0) := brown]> (occupancy rec1) ∧
    sel brown (counts rec2) = sel brown (counts rec1) + 1 ∧
    sel brown (indexMaps rec2) !! getCellKey (mkPos X0 Y3 X0) = Some (sel brown (counts rec1)).
Proof.
  destruct world1_free as (rec1 & Hrec1 & Hfree).
  destruct (addBlockAt_ok world1 X0 Y3 X0 brown rec1 (reachable_worldOk _ world1_reachable)
              Hrec1 Hfree (snapToGrid_centre _ _ _))
    as (rec2 & arr & Hrun & _ & _ & Hocc & _ & Hn & Hi).
  unfold world2. rewrite Hrun. cbn [editedWorld chunks].
  split; [reflexivity|]. exists rec1, rec2.
  rewrite lookup_insert_eq. split_and!; [exact Hrec1|reflexivity|exact Hocc|exact Hn|].
  by rewrite Hi, lookup_insert_eq.
Qed.

Global Opaque world2.

Lemma world2_reachable : reachable world2.
Proof.
  eapply reach_step; [apply world1_reachable|].
  eapply (step_add _ _ (ofZ 0) (ofZ 3) (ofZ 0)). apply world2_run.
Qed.

(** C7, as stated, fails: after the first frame, [addBlockAt] on the
    occupied ground cell [(0, 0, 0)] fails and returns a value that the
    successful placement at [(0, 3, 0)] returns too; it indicates
    nothing. *)
Lemma failure_not_indicated :
  ∃ rec v,
    chunks world1 !! getChunkKey (mkPos X0 X0 X0) = Some rec ∧
    is_Some (occupancy rec !! getCellKey (mkPos X0 X0 X0)) ∧
    addBlockAt X0 X0 X0 brown world1 = Ok (v, world1) ∧
    ¬ indicatesFailure v.
Proof.
  destruct world1_ground as (rec & Hrec & Hocc).
  exists rec, JSundefined. split_and!; [exact Hrec | exact Hocc | |].
  - eapply addBlockAt_occupied; [exact Hrec | exact Hocc].
  - intros Hind. destruct world2_run as (Hrun & rec1 & rec2 & Hr1 & Hr2 & Ho & _).
    apply (Hind _ _ _ _ _ _ _ Hrun); [|done].
    intros Heq. rewrite Heq, Hr1 in Hr2. injection Hr2 as ->.
    destruct world1_free as (rec1' & Hr1' & Hfree). rewrite Hr1 in Hr1'. injection Hr1' as <-.
    rewrite Ho, lookup_insert_eq in Hfree. done.
Qed.

(** The amended C7 on the world after the first frame. *)
Lemma edit_noop_unchanged_witness :
  addBlockAt X0 X0 X0 brown world1 = Ok (JSundefined, world1) ∧
  removeBlockAt X0 Y3 X0 world1 = Ok (JSundefined, world1).
Proof.
  split.
  - destruct (edit_noop_unchanged world1 X0 X0 X0 brown) as (Hadd & _).
    apply Hadd. right. exact world1_ground.
  - destruct (edit_noop_unchanged world1 X0 Y3 X0 brown) as (_ & Hremove & _).
    apply Hremove. right. exact world1_free.
Defined.

(** C8, amended.  In every world the program reaches, removing the block
    at the centre of an occupied cell and adding a block of material
    [type'] there again succeeds; the cell is then occupied with [type'] and
    sits in the last active slot of that batch; with the same material the
    count is the one before the removal, and the slot is the original one
    exactly when the cell was in the last active slot. *)
Theorem remove_readd_slot w x y z type type' rec idx :
  reachable w →
  mkPos x y z = centre (getCellKey (mkPos x y z)) →
  chunks w !! getChunkKey (mkPos x y z) = Some rec →
  occupancy rec !! getCellKey (mkPos x y z) = Some type →
  sel type (indexMaps rec) !! getCellKey (mkPos x y z) = Some idx →
  ∃ v1 w1 v2 w2 rec2,
    removeBlockAt x y z w = Ok (v1, w1) ∧ addBlockAt x y z type' w1 = Ok (v2, w2) ∧
    chunks w2 !! getChunkKey (mkPos x y z) = Some rec2 ∧
    occupancy rec2 !! getCellKey (mkPos x y z) = Some type' ∧
    sel type' (indexMaps rec2) !! getCellKey (mkPos x y z)
      = Some (sel type' (counts rec2) - 1) ∧
    (type' = type →
       sel type (counts rec2) = sel type (counts rec) ∧
       (sel type (indexMaps rec2) !! getCellKey (mkPos x y z) = Some idx ↔
        idx = sel type (counts rec) - 1)).
Proof.
  intros Hreach Hpos Hrec Hocc Hidx.
  destruct (removeBlockAt_ok w x y z type rec (reachable_worldOk w Hreach) Hrec Hocc Hpos)
    as (rec1 & arr & Hrun1 & _ & Hw1 & Hocc1 & _ & Hn1).
  set (w1 := {| chunks := _; chunkData := _ |}) in *.
  assert (chunks w1 !! getChunkKey (mkPos x y z) = Some rec1) as Hrec1
    by (subst w1; simpl; by rewrite lookup_insert_eq).
  assert (occupancy rec1 !! getCellKey (mkPos x y z) = None) as Hfree
    by (by rewrite Hocc1, lookup_delete_eq).
  destruct (addBlockAt_ok w1 x y z type' rec1 Hw1 Hrec1 Hfree Hpos)
    as (rec2 & arr1 & Hrun2 & _ & _ & Hocc2 & _ & Hn2 & Hi2).
  eexists _, w1, _, _, rec2. split; [exact Hrun1|]. split; [exact Hrun2|]. simpl.
  rewrite lookup_insert_eq. split_and!; try done.
  - by rewrite Hocc2, lookup_insert_eq.
  - rewrite Hi2, lookup_insert_eq. f_equal. lia.
  - intros ->. split; [lia|]. rewrite Hi2, lookup_insert_eq. split.
    + intros [= <-]. lia.
    + intros ->. f_equal. lia.
Qed.

(** C8, as stated, fails: the brown block placed at [(0, 3, 0)] is removed
    and placed again, and gets the slot it had. *)
Lemma readd_keeps_slot :
  ∃ rec idx v1 w1 v2 w2 rec2,
    reachable world2 ∧
    chunks world2 !! getChunkKey (mkPos X0 Y3 X0) = Some rec ∧
    occupancy rec !! getCellKey (mkPos X0 Y3 X0) = Some brown ∧
    sel brown (indexMaps rec) !! getCellKey (mkPos X0 Y3 X0) = Some idx ∧
    removeBlockAt X0 Y3 X0 world2 = Ok (v1, w1) ∧
    addBlockAt X0 Y3 X0 brown w1 = Ok (v2, w2) ∧
    chunks w2 !! getChunkKey (mkPos X0 Y3 X0) = Some rec2 ∧
    occupancy rec2 !! getCellKey (mkPos X0 Y3 X0) = Some brown ∧
    ¬ sel brown (indexMaps rec2) !! getCellKey (mkPos X0 Y3 X0) ≠ Some idx.
Proof.
  destruct world2_run as (_ & rec1 & rec & Hr1 & Hr & Ho & Hn & Hi).
  assert (occupancy rec !! getCellKey (mkPos X0 Y3 X0) = Some brown) as Hocc
    by (by rewrite Ho, lookup_insert_eq).
  pose proof (reachable_worldOk _ world2_reachable) as Hw2.
  destruct (removeBlockAt_ok world2 X0 Y3 X0 brown rec Hw2 Hr Hocc (snapToGrid_centre _ _ _))
    as (rec1' & arr & Hrun1 & _ & Hw1 & Hocc1 & _ & Hn1).
  set (w1 := {| chunks := _; chunkData := _ |}) in *.
  assert (chunks w1 !! getChunkKey (mkPos X0 Y3 X0) = Some rec1') as Hrec1
    by (subst w1; simpl; by rewrite lookup_insert_eq).
  assert (occupancy rec1' !! getCellKey (mkPos X0 Y3 X0) = None) as Hfree
    by (by rewrite Hocc1, lookup_delete_eq).
  destruct (addBlockAt_ok w1 X0 Y3 X0 brown rec1' Hw1 Hrec1 Hfree (snapToGrid_centre _ _ _))
    as (rec2 & arr1 & Hrun2 & _ & _ & Hocc2 & _ & Hn2 & Hi2).
  exists rec, (sel brown (counts rec1)). eexists _, w1, _, _, rec2.
  split_and!; [apply world2_reachable | exact Hr | exact Hocc | exact Hi | exact Hrun1
              | exact Hrun2 | | |].
  - cbn [chunks]. by rewrite lookup_insert_eq.
  - by rewrite Hocc2, lookup_insert_eq.
  - intros Hne. apply Hne. rewrite Hi2, lookup_insert_eq. f_equal. lia.
Qed.

Lemma world2_block :
  ∃ rec idx, chunks world2 !! getChunkKey (mkPos X0 Y3 X0) = Some rec ∧
             occupancy rec !! getCellKey (mkPos X0 Y3 X0) = Some brown ∧
             sel brown (indexMaps rec) !! getCellKey (mkPos X0 Y3 X0) = Some idx.
Proof.
  destruct world2_run as (_ & rec1 & rec & Hr1 & Hr & Ho & Hn & Hi).
  exists rec, (sel brown (counts rec1)). split_and!; [exact Hr| |exact Hi].
  by rewrite Ho, lookup_insert_eq.
Qed.

(** C1 on the world with the placed block. *)
Lemma round_trip_persistence_witness :
  ∃ rec, reachable world2 ∧ chunks world2 !! getChunkKey (mkPos X0 Y3 X0) = Some rec ∧
    ∃ cx cz w' rec',
      loadOrGenerateChunk cx cz (unloadChunk (getChunkKey (mkPos X0 Y3 X0)) world2) = Ok w' ∧
      chunks w' !! getChunkKey (mkPos X0 Y3 X0) = Some rec' ∧
      occupancy rec' = occupancy rec.
Proof.
  destruct world2_block as (rec & idx & Hrec & _).
  exists rec. split; [exact world2_reachable|]. split; [exact Hrec|].
  destruct (round_trip_persistence world2 _ rec world2_reachable Hrec)
    as (cx & cz & arr & w' & rec' & _ & _ & Hrun & _ & _ & Hrec' & Hocc).
  exists cx, cz, w', rec'. split_and!; [exact Hrun | exact Hrec' | exact Hocc].
Defined.

(** C2 on the brown batch of the world with the placed block. *)
Lemma batch_density_witness :
  ∃ rec, reachable world2 ∧ chunks world2 !! getChunkKey (mkPos X0 Y3 X0) = Some rec ∧
         length (sel brown (cellsByIndex rec)) = sel brown (counts rec) ∧
         ∃ i, i < sel brown (counts rec) ∧
              sel brown (cellsByIndex rec) !! i = Some (getCellKey (mkPos X0 Y3 X0)).
Proof.
  destruct world2_block as (rec & idx & Hrec & Hocc & Hidx).
  exists rec. split; [exact world2_reachable|]. split; [exact Hrec|].
  destruct (batch_density world2 _ rec brown world2_reachable Hrec)
    as (Hlen & _ & _ & _ & Hslot & Hbij & _).
  split; [exact Hlen|].
  destruct (proj1 (Hslot _) Hocc) as (i & Hi & Him).
  exists i. split; [exact Hi|]. by apply Hbij.
Defined.

(** C4 on the first frame at the origin. *)
Lemma streaming_reconciliation_witness :
  ∃ w', updateChunks 0%Qc 0%Qc initialWorld = Ok w' ∧ is_Some (chunks w' !! (0, 0, 0)%Z) ∧
        chunks w' !! (3, 0, 0)%Z = None.
Proof.
  destruct (streaming_reconciliation 0%Qc 0%Qc initialWorld) as (w' & Hrun & Hdom & _).
  exists w'. split; [exact Hrun|]. split.
  - apply Hdom. eexists _, _. split; [reflexivity|]. by vm_compute.
  - apply eq_None_not_Some. intros (cx & cz & [= <- <-] & Hd)%Hdom.
    revert Hd. vm_compute. intros Hd. by apply Hd.
Defined.

Lemma brownRow_shape :
  sel brown (counts (recordFor brownRow)) = 8 ∧
  sel brown (capacities (recordFor brownRow)) = 8 ∧
  length (storeOf (sel brown (meshes (recordFor brownRow)))) = 8.
Proof. split_and!; vm_compute; reflexivity. Qed.

Lemma brownRow_last :
  storeOf (sel brown (meshes (recordFor brownRow))) !! 7
  = Some (makeTranslation (ofZ 7 + half) (ofZ 3 + half) half).
Proof. vm_compute. reflexivity. Qed.

(** C5 on a full batch: the record built from eight brown blocks has
    eight instances in a store of eight; the ninth block needs nine, the
    store grows to sixteen, and the copy loop carries the eight matrices
    over at their indices, the last one among them. *)
Lemma capacity_growth_witness :
  ∃ newMesh,
    ensureCapacityForType (recordFor brownRow) brown 9 =
      Ok (withCapacity brown 16 (withMesh brown (Some newMesh) (recordFor brownRow))) ∧
    length (instanceMatrix newMesh) = 16 ∧ count newMesh = 8 ∧
    (∀ i, i < 8 →
       instanceMatrix newMesh !! i = storeOf (sel brown (meshes (recordFor brownRow))) !! i) ∧
    instanceMatrix newMesh !! 7 = Some (makeTranslation (ofZ 7 + half) (ofZ 3 + half) half).
Proof.
  destruct brownRow_shape as (Hn & Hc & Hs).
  destruct (capacity_growth (recordFor brownRow) brown 9) as [_ Hgrow].
  - rewrite Hn, Hc. lia.
  - rewrite Hn, Hs. lia.
  - destruct Hgrow as (newMesh & Hrun & Hlen & Hcnt & Hcopy); [rewrite Hc; lia|].
    rewrite Hc in Hrun, Hlen. rewrite Hn in Hcnt, Hcopy.
    exists newMesh. split; [exact Hrun|]. split; [exact Hlen|]. split; [exact Hcnt|].
    split; [exact Hcopy|]. rewrite (Hcopy 7) by lia. exact brownRow_last.
Defined.

(** The amended C8: the placed brown block replaced by a green one. *)
Lemma remove_readd_slot_witness :
  ∃ v1 w1 v2 w2 rec2,
    removeBlockAt X0 Y3 X0 world2 = Ok (v1, w1) ∧ addBlockAt X0 Y3 X0 green w1 = Ok (v2, w2) ∧
    chunks w2 !! getChunkKey (mkPos X0 Y3 X0) = Some rec2 ∧
    occupancy rec2 !! getCellKey (mkPos X0 Y3 X0) = Some green.
Proof.
  destruct world2_block as (rec & idx & Hrec & Hocc & Hidx).
  destruct (remove_readd_slot world2 X0 Y3 X0 brown green rec idx world2_reachable
              (snapToGrid_centre _ _ _) Hrec Hocc Hidx)
    as (v1 & w1 & v2 & w2 & rec2 & Hrun1 & Hrun2 & Hrec2 & Hocc2 & _).
  exists v1, w1, v2, w2, rec2.
  split_and!; [exact Hrun1 | exact Hrun2 | exact Hrec2 | exact Hocc2].
Defined.

(** C9 at height 16, above the placed block's chunk. *)
Lemma vertical_range_noop_witness :
  addBlockAt X0 (snapToGrid (ofZ 16)) X0 brown world2 = Ok (JSundefined, world2) ∧
  removeBlockAt X0 (snapToGrid (ofZ 16)) X0 world2 = Ok (JSundefined, world2).
Proof.
  destruct (vertical_range_noop world2 world2_reachable) as (_ & Hnoop & _ & _).
  apply Hnoop. by vm_compute.
Defined.

(** * Further properties of the chunk store *)

(** ** Cells and chunks *)

Lemma floor_div (q : Qc) : floor (q / ofZ CHUNK_SIZE)%Qc = (floor q / 16)%Z.
Proof.
  unfold floor, CHUNK_SIZE, Qcdiv, Qcmult, Qcinv, ofZ. simpl.
  rewrite (Qfloor_comp _ _ (Qred_correct _)).
  destruct q as [[a b] Hq]. simpl.
  unfold Qmult. simpl. rewrite Z.mul_1_r. unfold Qfloor.
  rewrite Pos2Z.inj_mul. by rewrite Z.div_div by lia.
Qed.

Lemma floor_lower (v : Qc) : (ofZ (floor v) ≤ v)%Qc.
Proof. unfold Qcle, ofZ, floor. simpl. apply Qfloor_le. Qed.

Lemma floor_upper (v : Qc) : (v < ofZ (floor v) + 1)%Qc.
Proof.
  unfold Qclt, ofZ, floor. simpl. rewrite Qred_correct.
  pose proof (Qlt_floor v) as H. rewrite inject_Z_plus in H. exact H.
Qed.

Lemma getChunkKey_cells pos :
  getChunkKey pos
  = ((getCellKey pos).1.1 / 16, (getCellKey pos).1.2 / 16, (getCellKey pos).2 / 16)%Z.
Proof. unfold getChunkKey, getCellKey. simpl. by rewrite !floor_div. Qed.

Lemma getCellKey_cellPos x y z : getCellKey (cellPos x y z) = (x, y, z).
Proof. unfold getCellKey, cellPos. simpl. by rewrite !floor_ofZ. Qed.

Lemma getChunkKey_cellPos ck :
  getChunkKey (cellPos ck.1.1 ck.1.2 ck.2) = getChunkKey (centre ck).
Proof. by rewrite !getChunkKey_cells, getCellKey_cellPos, getCellKey_centre. Qed.

(** X1.  [snapToGrid] keeps the cell of a coordinate, is idempotent, and
    moves a coordinate by at most one half: the result is the centre of the
    unit interval that holds the coordinate. *)
Theorem snapToGrid_cell v :
  floor (snapToGrid v) = floor v ∧
  snapToGrid (snapToGrid v) = snapToGrid v ∧
  (snapToGrid v - half ≤ v)%Qc ∧ (v < snapToGrid v + half)%Qc.
Proof.
  rewrite !snapToGrid_eq, !floor_ofZ_half. split; [done|]. split; [done|].
  pose proof (floor_lower v). pose proof (floor_upper v).
  assert (ofZ (floor v) + half - half = ofZ (floor v))%Qc as -> by ring.
  assert (ofZ (floor v) + half + half = ofZ (floor v) + 1)%Qc as ->.
  { assert (half + half = 1)%Qc as Hh by (by apply Qc_is_canon). rewrite <- Hh. ring. }
  done.
Qed.

(** X2.  The chunk key of a position is its cell key divided by sixteen,
    coordinate by coordinate, rounding down; so all the positions of a cell,
    its centre and its integer corner (which the collision code passes) have
    the same chunk key. *)
Theorem chunk_of_cell pos :
  getChunkKey pos = ((getCellKey pos).1.1 / 16, (getCellKey pos).1.2 / 16,
                     (getCellKey pos).2 / 16)%Z ∧
  getChunkKey (centre (getCellKey pos)) = getChunkKey pos ∧
  getChunkKey (cellPos (getCellKey pos).1.1 (getCellKey pos).1.2 (getCellKey pos).2)
    = getChunkKey pos ∧
  (∀ pos', getCellKey pos' = getCellKey pos → getChunkKey pos' = getChunkKey pos).
Proof.
  split_and!.
  - apply getChunkKey_cells.
  - by rewrite !getChunkKey_cells, getCellKey_centre.
  - by rewrite getChunkKey_cellPos, !getChunkKey_cells, getCellKey_centre.
  - intros pos' Heq. by rewrite !getChunkKey_cells, Heq.
Qed.

(** ** The steps of the program *)

Lemma step_inv w w' :
  worldOk w → step w w' →
  (∃ camx camz, updateChunks camx camz w = Ok w') ∨
  w' = w ∨
  (∃ x y z t rec rec' arr,
     mkPos x y z = centre (getCellKey (mkPos x y z)) ∧
     chunks w !! getChunkKey (mkPos x y z) = Some rec ∧
     chunkData w !! getChunkKey (mkPos x y z) = Some arr ∧
     occupancy rec !! getCellKey (mkPos x y z) = None ∧
     occupancy rec' = <[getCellKey (mkPos x y z) := t]> (occupancy rec) ∧
     w' = {| chunks := <[getChunkKey (mkPos x y z) := rec']> (chunks w);
             chunkData := <[getChunkKey (mkPos x y z) := arr ++ [(x, y, z, t)]]> (chunkData w) |}) ∨
  (∃ x y z t rec rec' arr,
     mkPos x y z = centre (getCellKey (mkPos x y z)) ∧
     chunks w !! getChunkKey (mkPos x y z) = Some rec ∧
     chunkData w !! getChunkKey (mkPos x y z) = Some arr ∧
     occupancy rec !! getCellKey (mkPos x y z) = Some t ∧
     occupancy rec' = delete (getCellKey (mkPos x y z)) (occupancy rec) ∧
     w' = {| chunks := <[getChunkKey (mkPos x y z) := rec']> (chunks w);
             chunkData := <[getChunkKey (mkPos x y z) := filter (keepEntry x y z) arr]>
                            (chunkData w) |}).
Proof.
  intros Hw [camx camz Hrun | x y z t v Hrun | x y z v Hrun].
  - left. by exists camx, camz.
  - right. set (X := snapToGrid x) in *. set (Y := snapToGrid y) in *. set (Z' := snapToGrid z) in *.
    destruct (chunks w !! getChunkKey (mkPos X Y Z')) as [rec|] eqn:Hrec.
    + destruct (occupancy rec !! getCellKey (mkPos X Y Z')) as [t'|] eqn:Hocc.
      * left. rewrite (addBlockAt_occupied _ _ _ _ _ rec) in Hrun; [|exact Hrec|by eexists].
        apply Ok_inj in Hrun. by injection Hrun as _ <-.
      * right. left.
        destruct (addBlockAt_ok w X Y Z' t rec Hw Hrec Hocc (snapToGrid_centre x y z))
          as (rec' & arr & Hrun' & Harr & _ & Ho & _).
        rewrite Hrun in Hrun'. apply Ok_inj in Hrun'. injection Hrun' as _ ->.
        exists X, Y, Z', t, rec, rec', arr.
        split_and!; [apply snapToGrid_centre|exact Hrec|exact Harr|exact Hocc|exact Ho|reflexivity].
    + left. rewrite addBlockAt_absent in Hrun by exact Hrec.
      apply Ok_inj in Hrun. by injection Hrun as _ <-.
  - right. set (X := snapToGrid x) in *. set (Y := snapToGrid y) in *. set (Z' := snapToGrid z) in *.
    destruct (chunks w !! getChunkKey (mkPos X Y Z')) as [rec|] eqn:Hrec.
    + destruct (occupancy rec !! getCellKey (mkPos X Y Z')) as [t'|] eqn:Hocc.
      * right. right.
        destruct (removeBlockAt_ok w X Y Z' t' rec Hw Hrec Hocc (snapToGrid_centre x y z))
          as (rec' & arr & Hrun' & Harr & _ & Ho & _).
        rewrite Hrun in Hrun'. apply Ok_inj in Hrun'. injection Hrun' as _ ->.
        exists X, Y, Z', t', rec, rec', arr.
        split_and!; [apply snapToGrid_centre|exact Hrec|exact Harr|exact Hocc|exact Ho|reflexivity].
      * left. rewrite (removeBlockAt_empty _ _ _ _ rec) in Hrun; [|exact Hrec|exact Hocc].
        apply Ok_inj in Hrun. by injection Hrun as _ <-.
    + left. rewrite removeBlockAt_absent in Hrun by exact Hrec.
      apply Ok_inj in Hrun. by injection Hrun as _ <-.
Qed.

Lemma steps_reachable w w' : reachable w → rtc step w w' → reachable w'.
Proof.
  intros Hreach Hrtc. induction Hrtc as [|w w1 w2 Hstep _ IH]; [done|].
  apply IH. by eapply reach_step.
Qed.

Lemma frame_reachable w w' : reachable w → rtc frame w w' → reachable w'.
Proof.
  intros Hreach Hrtc. induction Hrtc as [|w w1 w2 (camx & camz & Hrun) _ IH]; [done|].
  apply IH. eapply reach_step; [done|]. by eapply step_update.
Qed.

(** ** Blocks and their chunk *)

Lemma generate_homed cx cz :
  Forall (λ e, getChunkKey (entryPos e) = (cx, 0, cz)%Z) (generateGroundArrayForChunk cx cz).
Proof.
  rewrite generate_footprint. apply Forall_fmap, Forall_forall.
  intros [[x y] z] Hin%elem_of_footprint. simpl.
  destruct (entryAt_centre cx cz (x, y, z)) as [-> _].
  rewrite getChunkKey_cells, getCellKey_centre. unfold cellAt, CHUNK_SIZE. simpl.
  assert (∀ c a : Z, (0 ≤ a < 16)%Z → ((c * 16 + a) / 16)%Z = c) as Hdiv.
  { intros c a Ha. symmetry. apply Z.div_unique with (r := a); lia. }
  rewrite !Hdiv by lia. by rewrite Z.div_small by lia.
Qed.

Lemma homed_step w w' : worldOk w → homed w → step w w' → homed w'.
Proof.
  intros Hw Hh Hstep.
  destruct (step_inv w w' Hw Hstep)
    as [(camx & camz & Hrun) | [-> | [(x & y & z & t & rec & rec' & arr & Hpos & Hrec & Harr & Hocc & Ho & ->)
       | (x & y & z & t & rec & rec' & arr & Hpos & Hrec & Harr & Hocc & Ho & ->)]]].
  - destruct (updateChunks_spec camx camz w) as (w1 & Hrun' & Hch & Hdata).
    rewrite Hrun in Hrun'. apply Ok_inj in Hrun'. subst w1.
    intros key arr. rewrite Hdata. destruct (chunkData w !! key) eqn:Hk.
    + intros [= <-]. by eapply Hh.
    + case_decide as Hn; [|done]. intros [= <-]. destruct Hn as [Hn _].
      apply elem_of_neighbourhood in Hn as (cx & cz & -> & _).
      unfold arrayFor. rewrite Hk. apply generate_homed.
  - done.
  - intros key arr'. cbn [chunkData]. rewrite lookup_insert. case_decide as Hk.
    + intros [= <-]. subst key. apply Forall_app. split; [by eapply Hh|].
      by apply Forall_singleton.
    + apply Hh.
  - intros key arr'. cbn [chunkData]. rewrite lookup_insert. case_decide as Hk.
    + intros [= <-]. subst key. apply Forall_filter_keep. by eapply Hh.
    + apply Hh.
Qed.

Lemma reachable_homed w : reachable w → homed w.
Proof.
  induction 1 as [|w w' Hreach IH Hstep].
  - intros key arr. cbn [chunkData initialWorld]. by rewrite lookup_empty.
  - eapply homed_step; [by apply reachable_worldOk|done|done].
Qed.

Lemma occupied_entry w key rec ck t :
  worldOk w → chunks w !! key = Some rec → occupancy rec !! ck = Some t →
  ∃ arr, chunkData w !! key = Some arr ∧
         (px (centre ck), py (centre ck), pz (centre ck), t) ∈ arr.
Proof.
  intros [Hdata Hchunks] Hrec Hocc.
  destruct (Hchunks key rec Hrec) as (_ & _ & arr & Harr & Ho).
  exists arr. split; [done|]. destruct (Hdata _ _ Harr) as [Hcen Hnd].
  rewrite Ho in Hocc. apply occupancyOf_lookup in Hocc as (e & He & Hc & Ht); [|done].
  rewrite Forall_forall in Hcen. specialize (Hcen e He). rewrite Hc in Hcen.
  destruct e as [[[ex ey] ez] et]. unfold entryPos in Hcen. cbn [fst snd] in Hcen, Ht.
  subst et. by rewrite <- Hcen.
Qed.

Lemma occupied_home w key rec ck :
  worldOk w → homed w → chunks w !! key = Some rec → is_Some (occupancy rec !! ck) →
  getChunkKey (centre ck) = key.
Proof.
  intros Hw Hh Hrec [t Hocc].
  destruct (occupied_entry w key rec ck t Hw Hrec Hocc) as (arr & Harr & Hin).
  specialize (Hh key arr Harr). rewrite Forall_forall in Hh.
  specialize (Hh _ Hin). unfold entryPos in Hh. cbn [fst snd] in Hh.
  rewrite <- Hh. by destruct (centre ck).
Qed.

(** X3.  In every world the program reaches, a block is stored in the chunk
    that contains its cell: the key of the record that holds the cell [ck]
    is [(ck.x div 16, 0, ck.z div 16)], the height of the cell is between 0
    and 15, the lookup of the collision code [getChunkRecordAtCell] on the
    cell finds that record, and no other resident record holds the cell. *)
Theorem block_in_own_chunk w key rec ck :
  reachable w → chunks w !! key = Some rec → is_Some (occupancy rec !! ck) →
  key = (ck.1.1 / 16, 0, ck.2 / 16)%Z ∧ (0 ≤ ck.1.2 < 16)%Z ∧
  getChunkKey (centre ck) = key ∧
  getChunkRecordAtCell ck.1.1 ck.1.2 ck.2 w = Some rec ∧
  (∀ key' rec', chunks w !! key' = Some rec' → is_Some (occupancy rec' !! ck) → key' = key).
Proof.
  intros Hreach Hrec Hocc.
  pose proof (reachable_worldOk w Hreach) as Hw. pose proof (reachable_homed w Hreach) as Hh.
  pose proof (occupied_home w key rec ck Hw Hh Hrec Hocc) as Hkey.
  destruct Hw as [_ Hchunks]. destruct (Hchunks key rec Hrec) as (Hy & _).
  pose proof Hkey as Hkey'. rewrite getChunkKey_cells, getCellKey_centre in Hkey'.
  assert ((ck.1.2 / 16)%Z = 0%Z) as Hy0 by (by rewrite <- Hkey' in Hy).
  split; [|split; [|split; [|split]]].
  - rewrite <- Hkey'. by rewrite Hy0.
  - apply Z.div_small_iff in Hy0; lia.
  - done.
  - unfold getChunkRecordAtCell. by rewrite getChunkKey_cellPos, Hkey.
  - intros key' rec' Hrec' Hocc'. rewrite <- Hkey.
    symmetry. eapply occupied_home; try done. by apply reachable_worldOk.
Qed.

(** X3 on the ground cell [(0, 0, 0)] after the first frame. *)
Lemma block_in_own_chunk_witness :
  ∃ rec, chunks world1 !! getChunkKey (mkPos X0 X0 X0) = Some rec ∧
         getChunkKey (centre (getCellKey (mkPos X0 X0 X0))) = getChunkKey (mkPos X0 X0 X0).
Proof.
  destruct world1_ground as (rec & Hrec & Hocc). exists rec. split; [exact Hrec|].
  destruct (block_in_own_chunk world1 _ rec _ world1_reachable Hrec Hocc) as (_ & _ & H & _).
  exact H.
Defined.

(** ** Edits *)

Lemma filter_all {A} (P : A → Prop) `{∀ x, Decision (P x)} l : Forall P l → filter P l = l.
Proof. induction 1 as [|x l Hx Hl IH]; [done|]. by rewrite filter_cons_True, IH. Qed.

Lemma filter_none {A} (P : A → Prop) `{∀ x, Decision (P x)} l :
  Forall (λ x, ¬ P x) l → filter P l = [].
Proof. induction 1 as [|x l Hx Hl IH]; [done|]. by rewrite filter_cons_False, IH. Qed.

(** X4.  In a world the program reaches, [addBlockAt] at the centre of a
    free cell of a resident chunk returns, makes the cell occupied with the
    given type and leaves every other cell of the chunk and every other
    chunk as they were; the batch of the type draws one instance more, the
    other batch is untouched, and the entry is appended to the persistent
    array of the chunk. *)
Theorem add_block_effect w x y z type rec :
  reachable w → mkPos x y z = centre (getCellKey (mkPos x y z)) →
  chunks w !! getChunkKey (mkPos x y z) = Some rec →
  occupancy rec !! getCellKey (mkPos x y z) = None →
  ∃ w' rec' arr,
    addBlockAt x y z type w = Ok (JSundefined, w') ∧
    chunks w' = <[getChunkKey (mkPos x y z) := rec']> (chunks w) ∧
    occupancy rec' = <[getCellKey (mkPos x y z) := type]> (occupancy rec) ∧
    sel type (counts rec') = sel type (counts rec) + 1 ∧
    (∀ t, t ≠ type → sel t (counts rec') = sel t (counts rec) ∧
                      sel t (meshes rec') = sel t (meshes rec)) ∧
    chunkData w !! getChunkKey (mkPos x y z) = Some arr ∧
    chunkData w' = <[getChunkKey (mkPos x y z) := arr ++ [(x, y, z, type)]]> (chunkData w).
Proof.
  intros Hreach Hpos Hrec Hocc.
  destruct (addBlockAt_ok w x y z type rec (reachable_worldOk w Hreach) Hrec Hocc Hpos)
    as (rec' & arr & Hrun & Harr & _ & Ho & Hfr & Hn & _).
  eexists _, rec', arr. split; [exact Hrun|]. cbn [chunks chunkData].
  split_and!; [reflexivity|exact Ho|exact Hn| |exact Harr|reflexivity].
  intros t Ht. destruct (Hfr t Ht) as (? & _ & _ & ? & _). done.
Qed.

(** X4 on the free cell [(0, 3, 0)] after the first frame. *)
Lemma add_block_effect_witness :
  ∃ w' rec rec',
    chunks world1 !! getChunkKey (mkPos X0 Y3 X0) = Some rec ∧
    addBlockAt X0 Y3 X0 brown world1 = Ok (JSundefined, w') ∧
    occupancy rec' = <[getCellKey (mkPos X0 Y3 X0) := brown]> (occupancy rec).
Proof.
  destruct world1_free as (rec & Hrec & Hfree).
  destruct (add_block_effect world1 X0 Y3 X0 brown rec world1_reachable
              (snapToGrid_centre _ _ _) Hrec Hfree)
    as (w' & rec' & arr & Hrun & _ & Ho & _).
  exists w', rec, rec'. split_and!; [exact Hrec|exact Hrun|exact Ho].
Defined.

(** X5.  In a world the program reaches, [removeBlockAt] at the centre of an
    occupied cell of a resident chunk returns, frees the cell and leaves
    every other cell and every other chunk as they were; the batch of the
    block draws one instance less, the other batch is untouched, and the
    persistent array of the chunk loses exactly the entries of that cell. *)
Theorem remove_block_effect w x y z type rec :
  reachable w → mkPos x y z = centre (getCellKey (mkPos x y z)) →
  chunks w !! getChunkKey (mkPos x y z) = Some rec →
  occupancy rec !! getCellKey (mkPos x y z) = Some type →
  ∃ w' rec' arr,
    removeBlockAt x y z w = Ok (JSundefined, w') ∧
    chunks w' = <[getChunkKey (mkPos x y z) := rec']> (chunks w) ∧
    occupancy rec' = delete (getCellKey (mkPos x y z)) (occupancy rec) ∧
    sel type (counts rec') + 1 = sel type (counts rec) ∧
    (∀ t, t ≠ type → sel t (counts rec') = sel t (counts rec) ∧
                      sel t (meshes rec') = sel t (meshes rec)) ∧
    chunkData w !! getChunkKey (mkPos x y z) = Some arr ∧
    chunkData w' = <[getChunkKey (mkPos x y z) :=
                       filter (λ e, entryCell e ≠ getCellKey (mkPos x y z)) arr]> (chunkData w).
Proof.
  intros Hreach Hpos Hrec Hocc. pose proof (reachable_worldOk w Hreach) as Hw.
  destruct (removeBlockAt_ok w x y z type rec Hw Hrec Hocc Hpos)
    as (rec' & arr & Hrun & Harr & _ & Ho & Hfr & Hn).
  eexists _, rec', arr. split; [exact Hrun|]. cbn [chunks chunkData].
  split_and!; [reflexivity|exact Ho|exact Hn| |exact Harr|].
  - intros t Ht. destruct (Hfr t Ht) as (? & _ & _ & ? & _). done.
  - rewrite filter_keepEntry; [done|done|]. destruct Hw as [Hdata _]. by apply (Hdata _ _ Harr).
Qed.

(** X5 on the brown block placed at [(0, 3, 0)]. *)
Lemma remove_block_effect_witness :
  ∃ w' rec rec',
    chunks world2 !! getChunkKey (mkPos X0 Y3 X0) = Some rec ∧
    removeBlockAt X0 Y3 X0 world2 = Ok (JSundefined, w') ∧
    occupancy rec' = delete (getCellKey (mkPos X0 Y3 X0)) (occupancy rec).
Proof.
  destruct world2_block as (rec & idx & Hrec & Hocc & _).
  destruct (remove_block_effect world2 X0 Y3 X0 brown rec world2_reachable
              (snapToGrid_centre _ _ _) Hrec Hocc)
    as (w' & rec' & arr & Hrun & _ & Ho & _).
  exists w', rec, rec'. split_and!; [exact Hrec|exact Hrun|exact Ho].
Defined.

(** X6.  Placing a block and destroying it again: in a world the program
    reaches, [addBlockAt] at the centre of a free cell of a resident chunk
    followed by [removeBlockAt] at the same position brings back the
    persistent arrays of all chunks and the occupancy of every resident
    chunk. *)
Theorem add_remove_round_trip w x y z type rec :
  reachable w → mkPos x y z = centre (getCellKey (mkPos x y z)) →
  chunks w !! getChunkKey (mkPos x y z) = Some rec →
  occupancy rec !! getCellKey (mkPos x y z) = None →
  ∃ w1 w2,
    addBlockAt x y z type w = Ok (JSundefined, w1) ∧
    removeBlockAt x y z w1 = Ok (JSundefined, w2) ∧
    chunkData w2 = chunkData w ∧
    ∀ key, occupancy <$> chunks w2 !! key = occupancy <$> chunks w !! key.
Proof.
  intros Hreach Hpos Hrec Hocc. pose proof (reachable_worldOk w Hreach) as Hw.
  destruct (addBlockAt_ok w x y z type rec Hw Hrec Hocc Hpos)
    as (rec1 & arr & Hrun1 & Harr & Hw1 & Ho1 & _).
  set (w1 := {| chunks := _; chunkData := _ |}) in *.
  assert (chunks w1 !! getChunkKey (mkPos x y z) = Some rec1) as Hrec1
    by (subst w1; cbn [chunks]; by rewrite lookup_insert_eq).
  assert (occupancy rec1 !! getCellKey (mkPos x y z) = Some type) as Hocc1
    by (by rewrite Ho1, lookup_insert_eq).
  destruct (removeBlockAt_ok w1 x y z type rec1 Hw1 Hrec1 Hocc1 Hpos)
    as (rec2 & arr1 & Hrun2 & Harr1 & _ & Ho2 & _).
  exists w1. eexists. split; [exact Hrun1|]. split; [exact Hrun2|].
  assert (arr1 = arr ++ [(x, y, z, type)]) as ->.
  { subst w1. cbn [chunkData] in Harr1. rewrite lookup_insert_eq in Harr1. by injection Harr1. }
  destruct Hw as [Hdata Hchunks]. destruct (Hdata _ _ Harr) as [Hcen Hnd].
  destruct (Hchunks _ _ Hrec) as (_ & _ & arr' & Harr' & Hoarr).
  rewrite Harr in Harr'. injection Harr' as <-.
  assert (filter (keepEntry x y z) (arr ++ [(x, y, z, type)]) = arr) as Hfilter.
  { rewrite filter_app, filter_cons_False, filter_nil, app_nil_r.
    2: { unfold keepEntry. cbn [fst snd]. tauto. }
    rewrite filter_keepEntry by done. apply filter_all.
    apply Forall_forall. intros e He Hc.
    assert (is_Some (occupancy rec !! getCellKey (mkPos x y z))) as [? Hs].
    { rewrite Hoarr. apply occupancyOf_is_Some. rewrite <- Hc. by apply list_elem_of_fmap_2. }
    congruence. }
  split.
  - cbn [chunkData]. rewrite Hfilter. subst w1. cbn [chunkData].
    rewrite insert_insert_eq. by apply insert_id.
  - intros key. cbn [chunks]. subst w1. cbn [chunks]. rewrite insert_insert_eq.
    rewrite lookup_insert. case_decide as Hk; [|done].
    subst key. rewrite Hrec. cbn [fmap option_fmap option_map]. f_equal.
    rewrite Ho2, Ho1. by apply delete_insert_id.
Qed.

(** X6 on the free cell [(0, 3, 0)] after the first frame. *)
Lemma add_remove_round_trip_witness :
  ∃ w1 w2,
    addBlockAt X0 Y3 X0 brown world1 = Ok (JSundefined, w1) ∧
    removeBlockAt X0 Y3 X0 w1 = Ok (JSundefined, w2) ∧
    chunkData w2 = chunkData world1.
Proof.
  destruct world1_free as (rec & Hrec & Hfree).
  destruct (add_remove_round_trip world1 X0 Y3 X0 brown rec world1_reachable
              (snapToGrid_centre _ _ _) Hrec Hfree)
    as (w1 & w2 & Hrun1 & Hrun2 & Hdata & _).
  exists w1, w2. split_and!; [exact Hrun1|exact Hrun2|exact Hdata].
Defined.

(** X7.  [removeBlockAt] compares the coordinates of the persistent entries
    with its arguments: called, in a world the program reaches, at a
    position of an occupied cell that is not the centre of the cell, it
    frees the cell in the record but leaves the persistent array as it
    was; the array still holds the block, so the occupancy of the record
    and the one its array describes differ. *)
Theorem remove_off_centre w x y z type rec :
  reachable w →
  chunks w !! getChunkKey (mkPos x y z) = Some rec →
  occupancy rec !! getCellKey (mkPos x y z) = Some type →
  mkPos x y z ≠ centre (getCellKey (mkPos x y z)) →
  ∃ w' rec' arr,
    removeBlockAt x y z w = Ok (JSundefined, w') ∧
    chunks w' = <[getChunkKey (mkPos x y z) := rec']> (chunks w) ∧
    occupancy rec' = delete (getCellKey (mkPos x y z)) (occupancy rec) ∧
    chunkData w' = chunkData w ∧
    chunkData w' !! getChunkKey (mkPos x y z) = Some arr ∧
    occupancyOf arr !! getCellKey (mkPos x y z) = Some type ∧
    occupancy rec' ≠ occupancyOf arr.
Proof.
  intros Hreach Hrec Hocc Hoff. destruct (reachable_worldOk w Hreach) as [Hdata Hchunks].
  destruct (Hchunks _ _ Hrec) as (_ & Hok & arr & Harr & Hoarr).
  destruct (proj1 (recordOk_both rec) Hok type) as (Hshape & Hlink & Hslots).
  destruct (proj1 (Hlink _) Hocc) as [idx Hidx].
  destruct (swapRemove_spec rec type _ idx Hshape Hslots Hidx) as (rec' & Hrun & Ho & _).
  with_strategy transparent [removeBlockAt] unfold removeBlockAt.
  unfold getChunkAtWorld. rewrite Hrec, Hocc, Hrun. cbn [mbind run_bind].
  rewrite Harr.
  assert (filter (keepEntry x y z) arr = arr) as ->.
  { apply filter_all. destruct (Hdata _ _ Harr) as [Hcen _].
    eapply Forall_impl; [exact Hcen|]. intros [[[ex ey] ez] et].
    unfold keepEntry, entryPos, entryCell. cbn [fst snd].
    intros He (Hx & Hy & Hz). subst ex ey ez. by apply Hoff. }
  rewrite (insert_id (chunkData w)) by done.
  eexists _, rec', arr. split; [reflexivity|]. cbn [chunks chunkData].
  split_and!; [reflexivity|exact Ho|reflexivity|exact Harr| |].
  - by rewrite <- Hoarr.
  - intros Heq. rewrite Ho, <- Hoarr in Heq.
    assert (delete (getCellKey (mkPos x y z)) (occupancy rec) !! getCellKey (mkPos x y z)
            = Some type) as Hbad by (by rewrite Heq).
    by rewrite lookup_delete_eq in Hbad.
Qed.

Lemma origin_keys :
  getChunkKey (mkPos 0 0 0)%Qc = (0, 0, 0)%Z ∧ getCellKey (mkPos 0 0 0)%Qc = (0, 0, 0)%Z ∧
  mkPos 0 0 0 ≠ centre (0, 0, 0)%Z.
Proof. split_and!; [by vm_compute|by vm_compute|]. intros [= H]. Qed.

(** X7 at the corner [(0, 0, 0)] of the ground cell [(0, 0, 0)] after the
    first frame. *)
Lemma remove_off_centre_witness :
  ∃ w' rec',
    removeBlockAt 0 0 0 world1 = Ok (JSundefined, w') ∧
    chunks w' !! getChunkKey (mkPos 0 0 0)%Qc = Some rec' ∧
    chunkData w' = chunkData world1.
Proof.
  destruct origin_keys as (Hk & Hc & Hoff). destruct world1_origin as [Hrec _].
  assert (is_Some (occupancy (recordFor (generateGroundArrayForChunk 0 0)) !! (0, 0, 0)%Z))
    as [t Hocc].
  { apply generated_occupancy. exists 0%Z, 0%Z, 0%Z. split; [lia|reflexivity]. }
  rewrite <- Hk in Hrec. rewrite <- Hc in Hocc, Hoff.
  destruct (remove_off_centre world1 0 0 0 t _ world1_reachable Hrec Hocc Hoff)%Qc
    as (w' & rec' & arr & Hrun & Hch & _ & Hdata & _).
  exists w', rec'. split_and!; [exact Hrun| |exact Hdata].
  rewrite Hch. apply lookup_insert_eq.
Defined.

(** ** Building and loading *)

Lemma occupancyOf_last arr ck :
  occupancyOf arr !! ck = snd <$> last (filter (λ e, entryCell e = ck) arr).
Proof.
  induction arr as [|e arr IH] using rev_ind; [done|].
  rewrite occupancyOf_app, filter_app. destruct (decide (entryCell e = ck)) as [<-|Hne].
  - rewrite lookup_insert_eq, filter_cons_True, filter_nil by done. by rewrite last_snoc.
  - rewrite lookup_insert_ne by done.
    by rewrite filter_cons_False, filter_nil, app_nil_r.
Qed.

Lemma buildRecord_slots arr :
  ∃ rec, buildRecord arr = Ok rec ∧ occupancy rec = occupancyOf arr ∧
    ∀ t, sel t (cellsByIndex rec) = entryCell <$> filter (λ e, e.2 = t) arr ∧
         sel t (counts rec) = length (filter (λ e, e.2 = t) arr).
Proof.
  with_strategy transparent [buildRecord] unfold buildRecord.
  rewrite separate_spec. cbn [occupancy makeEmptyChunkRecord app].
  change (foldl _ ∅ arr) with (occupancyOf arr).
  set (rec0 := withOccupancy _ _).
  destruct (buildBatch_spec green (itemsOf green arr) rec0)
    as (rec1 & -> & Hocc1 & Hfr1 & Hsh1 & Hcs1 & _ & _); [done|].
  cbn [mbind run_bind].
  destruct (Hfr1 brown) as (Hm & Hi & Hc & Hn & Hk); [done|].
  destruct (buildBatch_spec brown (itemsOf brown arr) rec1)
    as (rec2 & -> & Hocc2 & Hfr2 & Hsh2 & Hcs2 & _ & _).
  { unfold freshBatch. by rewrite Hm, Hi, Hc, Hn, Hk. }
  destruct (Hfr2 green) as (Hm' & Hi' & Hc' & Hn' & Hk'); [done|].
  exists rec2. split; [done|]. split; [by rewrite Hocc2, Hocc1|].
  destruct Hsh1 as (Hlen1 & _). destruct Hsh2 as (Hlen2 & _).
  intros [].
  - rewrite Hc', Hn', <- Hlen1, Hcs1, itemsOf_cells. by rewrite length_fmap.
  - rewrite <- Hlen2, Hcs2, itemsOf_cells. by rewrite length_fmap.
Qed.

(** X8.  [buildChunkFromArray] returns for every array: it stores a record
    under the key and leaves the other records and the cache as they were;
    a cell is occupied with the type of the last entry that lies in it; for
    each type the slots hold the cells of the entries of that type in the
    order of the array, and the count is their number (an array that names
    a cell twice gives the cell two slots); the record is consistent when
    the entries are cell centres and no cell occurs twice. *)
Theorem buildChunkFromArray_any key arr w :
  ∃ rec,
    buildChunkFromArray key arr w
      = Ok {| chunks := <[key := rec]> (chunks w); chunkData := chunkData w |} ∧
    (∀ ck, occupancy rec !! ck = snd <$> last (filter (λ e, entryCell e = ck) arr)) ∧
    (∀ t, sel t (cellsByIndex rec) = entryCell <$> filter (λ e, e.2 = t) arr ∧
          sel t (counts rec) = length (filter (λ e, e.2 = t) arr)) ∧
    (cacheOk arr → recordOk rec).
Proof.
  destruct (buildRecord_slots arr) as (rec & Hrun & Hocc & Hslots).
  exists rec. unfold buildChunkFromArray. rewrite Hrun. cbn [mbind run_bind].
  split; [reflexivity|]. split; [|split; [exact Hslots|]].
  - intros ck. rewrite Hocc. apply occupancyOf_last.
  - destruct (buildRecord_spec arr) as (rec' & Hrun' & _ & Hok).
    rewrite Hrun in Hrun'. apply Ok_inj in Hrun'. by subst rec'.
Qed.

(** X9.  A chunk that is neither resident nor cached: [loadOrGenerateChunk]
    returns, caches the generated array and stores a consistent record in
    which a cell is occupied, with green, exactly when it lies in the
    sixteen by sixteen columns of the chunk at height 0, 1 or 2; the green
    batch draws 768 instances and the brown batch none. *)
Theorem fresh_chunk_ground cx cz w :
  chunks w !! (cx, 0, cz)%Z = None → chunkData w !! (cx, 0, cz)%Z = None →
  ∃ rec,
    loadOrGenerateChunk cx cz w
      = Ok {| chunks := <[(cx, 0, cz)%Z := rec]> (chunks w);
              chunkData := <[(cx, 0, cz)%Z := generateGroundArrayForChunk cx cz]> (chunkData w) |} ∧
    (∀ x y z, occupancy rec !! (x, y, z) =
              if decide (cx * 16 ≤ x < cx * 16 + 16 ∧ 0 ≤ y < 3 ∧
                         cz * 16 ≤ z < cz * 16 + 16)%Z
              then Some green else None) ∧
    sel green (counts rec) = 768 ∧ sel brown (counts rec) = 0 ∧
    recordOk rec.
Proof.
  intros Hnone Hdata. rewrite loadOrGenerateChunk_spec by done.
  unfold arrayFor. rewrite Hdata. cbn [default fst snd].
  set (arr := generateGroundArrayForChunk cx cz).
  destruct (buildRecord_slots arr) as (rec & Hrun & Hocc & Hslots).
  rewrite buildRecord_recordFor in Hrun. apply Ok_inj in Hrun. rewrite Hrun.
  exists rec. split; [reflexivity|].
  assert (∀ e, e ∈ arr → e.2 = green) as Hgreen.
  { intros e. unfold arr. rewrite generate_footprint.
    intros (c & -> & _)%list_elem_of_fmap. done. }
  split_and!.
  - intros x y z. rewrite Hocc. case_decide as Hin.
    + apply occupancyOf_lookup; [apply generate_cacheOk|].
      exists (entryAt cx cz (x - cx * 16, y, z - cz * 16)%Z). split_and!; [| |done].
      * unfold arr. rewrite generate_footprint. apply list_elem_of_fmap_2.
        apply elem_of_footprint. lia.
      * destruct (entryAt_centre cx cz (x - cx * 16, y, z - cz * 16)%Z) as [_ ->].
        unfold cellAt, CHUNK_SIZE. simpl. f_equal; [f_equal|]; lia.
    + apply eq_None_not_Some. rewrite occupancyOf_is_Some. unfold arr.
      rewrite generate_cells. intros ([[a b] c] & Heq & Hfp%elem_of_footprint)%list_elem_of_fmap.
      unfold cellAt, CHUNK_SIZE in Heq. simpl in Heq. injection Heq as -> -> ->. lia.
  - destruct (Hslots green) as [_ ->]. rewrite filter_all.
    + unfold arr. by rewrite generate_footprint, length_fmap.
    + apply Forall_forall. intros e He. by apply Hgreen.
  - destruct (Hslots brown) as [_ ->].
    rewrite filter_none; [done|]. apply Forall_forall. intros e He.
    by rewrite (Hgreen e He).
  - rewrite <- Hrun. apply recordFor_ok. apply generate_cacheOk.
Qed.

(** X9 on the chunk at the origin of the initial world. *)
Lemma fresh_chunk_ground_witness :
  ∃ w' rec, loadOrGenerateChunk 0 0 initialWorld = Ok w' ∧
            chunks w' !! (0, 0, 0)%Z = Some rec ∧
            occupancy rec !! (5, 2, 7)%Z = Some green ∧
            occupancy rec !! (5, 3, 7)%Z = None.
Proof.
  destruct (fresh_chunk_ground 0 0 initialWorld) as (rec & Hrun & Hocc & _).
  - apply lookup_empty.
  - apply lookup_empty.
  - eexists _, rec. split; [exact Hrun|]. cbn [chunks]. split; [apply lookup_insert_eq|].
    split; rewrite Hocc; reflexivity.
Defined.

Lemma frame_chunkData w w' key arr :
  rtc frame w w' → chunkData w !! key = Some arr → chunkData w' !! key = Some arr.
Proof.
  intros Hrtc. induction Hrtc as [|w w1 w2 (camx & camz & Hrun) _ IH]; [done|].
  intros Harr. apply IH.
  destruct (updateChunks_spec camx camz w) as (w1' & Hrun' & _ & Hdata).
  rewrite Hrun in Hrun'. apply Ok_inj in Hrun'. subst w1'. by rewrite Hdata, Harr.
Qed.

(** X10.  Blocks survive travel: from a world the program reaches, after any
    number of frames without an edit (any positions of the camera, so any
    unloading and loading), a chunk that is resident again holds exactly
    the cells, with their types, it held before. *)
Theorem blocks_survive_travel w w' key rec rec' :
  reachable w → rtc frame w w' →
  chunks w !! key = Some rec → chunks w' !! key = Some rec' →
  occupancy rec' = occupancy rec.
Proof.
  intros Hreach Hrtc Hrec Hrec'.
  destruct (reachable_worldOk w Hreach) as [_ Hchunks].
  destruct (Hchunks _ _ Hrec) as (_ & _ & arr & Harr & ->).
  destruct (reachable_worldOk w' (frame_reachable w w' Hreach Hrtc)) as [_ Hchunks'].
  destruct (Hchunks' _ _ Hrec') as (_ & _ & arr' & Harr' & ->).
  rewrite (frame_chunkData w w' key arr Hrtc Harr) in Harr'. by injection Harr' as <-.
Qed.

Lemma far_keys :
  ((0, 0, 0)%Z ∉ neighbourhood (floor (ofZ 1000 / ofZ CHUNK_SIZE)%Qc)
                                (floor (ofZ 1000 / ofZ CHUNK_SIZE)%Qc)) ∧
  ((0, 0, 0)%Z ∈ neighbourhood (floor (0 / ofZ CHUNK_SIZE)%Qc) (floor (0 / ofZ CHUNK_SIZE)%Qc)).
Proof.
  split.
  - intros (cx & cz & [= <- <-] & Hd)%elem_of_neighbourhood.
    revert Hd. vm_compute. intros Hd. by apply Hd.
  - apply elem_of_neighbourhood. exists 0%Z, 0%Z. split; [done|]. by vm_compute.
Qed.

(** X10 on the chunk of the placed block: the camera goes far away, where
    the chunk is unloaded, and comes back. *)
Lemma blocks_survive_travel_witness :
  ∃ rec w1 w2 rec',
    chunks world2 !! (0, 0, 0)%Z = Some rec ∧
    updateChunks (ofZ 1000) (ofZ 1000) world2 = Ok w1 ∧ chunks w1 !! (0, 0, 0)%Z = None ∧
    updateChunks 0 0 w1 = Ok w2 ∧ chunks w2 !! (0, 0, 0)%Z = Some rec' ∧
    occupancy rec' = occupancy rec.
Proof.
  destruct world2_block as (rec & idx & Hrec & _).
  destruct block_keys as (Hk & _). rewrite Hk in Hrec.
  destruct far_keys as [Hfar Hnear].
  destruct (updateChunks_spec (ofZ 1000) (ofZ 1000) world2) as (w1 & Hrun1 & Hch1 & _).
  destruct (updateChunks_spec 0 0 w1) as (w2 & Hrun2 & Hch2 & _).
  assert (chunks w1 !! (0, 0, 0)%Z = None) as Hgone.
  { rewrite Hch1. apply decide_False. exact Hfar. }
  assert (is_Some (chunks w2 !! (0, 0, 0)%Z)) as [rec' Hrec'].
  { rewrite Hch2, decide_True by exact Hnear. rewrite Hgone. eexists. reflexivity. }
  exists rec, w1, w2, rec'.
  split_and!; [exact Hrec|exact Hrun1|exact Hgone|exact Hrun2|exact Hrec'|].
  apply (blocks_survive_travel world2 w2 (0, 0, 0)%Z rec rec' world2_reachable);
    [|exact Hrec|exact Hrec'].
  eapply rtc_l; [exists (ofZ 1000), (ofZ 1000); exact Hrun1|].
  eapply rtc_l; [exists 0%Qc, 0%Qc; exact Hrun2|]. apply rtc_refl.
Defined.

Lemma step_cached w w' key :
  worldOk w → step w w' → is_Some (chunkData w !! key) → is_Some (chunkData w' !! key).
Proof.
  intros Hw Hstep [arr0 Hsome].
  destruct (step_inv w w' Hw Hstep)
    as [(camx & camz & Hrun) | [-> | [(x & y & z & t & rec & rec' & arr & Hpos & Hrec & Harr & Hocc & Ho & ->)
       | (x & y & z & t & rec & rec' & arr & Hpos & Hrec & Harr & Hocc & Ho & ->)]]].
  - destruct (updateChunks_spec camx camz w) as (w1 & Hrun' & _ & Hdata).
    rewrite Hrun in Hrun'. apply Ok_inj in Hrun'. subst w1. rewrite Hdata, Hsome. by eexists.
  - by eexists.
  - cbn [chunkData]. rewrite lookup_insert_is_Some.
    destruct (decide (getChunkKey (mkPos x y z) = key)); [by left|].
    right. split; [done|]. by eexists.
  - cbn [chunkData]. rewrite lookup_insert_is_Some.
    destruct (decide (getChunkKey (mkPos x y z) = key)); [by left|].
    right. split; [done|]. by eexists.
Qed.

(** X11.  The cache only grows: in a world the program reaches every
    resident chunk has a persistent array, and a chunk that has one has one
    after any number of further steps (frames and edits): no step removes
    an entry of [chunkData]. *)
Theorem cache_never_evicts w w' key :
  reachable w → rtc step w w' →
  (is_Some (chunks w !! key) → is_Some (chunkData w !! key)) ∧
  (is_Some (chunkData w !! key) → is_Some (chunkData w' !! key)).
Proof.
  intros Hreach Hrtc. split.
  - intros [rec Hrec]. destruct (reachable_worldOk w Hreach) as [_ Hchunks].
    destruct (Hchunks _ _ Hrec) as (_ & _ & arr & Harr & _). by eexists.
  - induction Hrtc as [|w w1 w2 Hstep Hrtc IH]; [done|].
    intros Hs. apply IH; [by eapply reach_step|].
    eapply step_cached; [by apply reachable_worldOk|done|done].
Qed.

(** X11 from the first frame to the placement of the block. *)
Lemma cache_never_evicts_witness :
  is_Some (chunkData world1 !! (0, 0, 0)%Z) ∧ is_Some (chunkData world2 !! (0, 0, 0)%Z).
Proof.
  assert (rtc step world1 world2) as Hrtc.
  { apply rtc_once. eapply (step_add _ _ (ofZ 0) (ofZ 3) (ofZ 0)). apply world2_run. }
  destruct (cache_never_evicts world1 world2 (0, 0, 0)%Z world1_reachable Hrtc) as [H1 H2].
  assert (is_Some (chunkData world1 !! (0, 0, 0)%Z)) as Hs.
  { apply H1. destruct world1_origin as [Hrec _]. rewrite Hrec. eexists. reflexivity. }
  split; [exact Hs|exact (H2 Hs)].
Defined.

Lemma offsets_NoDup : NoDup offsets.
Proof. apply (bool_decide_unpack _). vm_compute. exact I. Qed.

Lemma neighbourhood_size pcx pcz : size (neighbourhood pcx pcz) = 25.
Proof.
  unfold neighbourhood. rewrite size_list_to_set.
  - by rewrite length_fmap.
  - apply NoDup_fmap_2_strong; [|apply offsets_NoDup].
    intros [dx dz] [dx' dz'] _ _. unfold keyOf, getChunkKeyFromCoords. simpl.
    intros [= ? ?]. f_equal; lia.
Qed.

(** X12.  After [updateChunks], from any world, exactly 25 chunks are
    resident, and the cache has at most 25 entries more than before. *)
Theorem resident_count camx camz w :
  ∃ w', updateChunks camx camz w = Ok w' ∧ size (chunks w') = 25 ∧
        size (chunkData w') ≤ size (chunkData w) + 25.
Proof.
  destruct (updateChunks_spec camx camz w) as (w' & Hrun & Hch & Hdata). cbv zeta in *.
  exists w'. split; [done|].
  set (pcx := floor (camx / ofZ CHUNK_SIZE)%Qc) in *.
  set (pcz := floor (camz / ofZ CHUNK_SIZE)%Qc) in *.
  assert (dom (chunks w') = neighbourhood pcx pcz) as Hdom.
  { apply set_eq. intros key. rewrite elem_of_dom, Hch. case_decide as Hn.
    - split; [done|]. intros _. by destruct (chunks w !! key).
    - split; [by intros []|done]. }
  split.
  - by rewrite <- size_dom, Hdom, neighbourhood_size.
  - rewrite <- !size_dom.
    assert (dom (chunkData w') ⊆ dom (chunkData w) ∪ neighbourhood pcx pcz) as Hsub.
    { intros key. rewrite elem_of_union, !elem_of_dom, Hdata.
      destruct (chunkData w !! key); [by left|]. case_decide as Hn; [|by intros []].
      intros _. right. apply Hn. }
    etrans; [apply subseteq_size, Hsub|].
    rewrite size_union_alt, <- (neighbourhood_size pcx pcz).
    apply Nat.add_le_mono_l, subseteq_size, subseteq_difference_l. done.
Qed.

(** X13.  A frame in which the camera stays in its chunk changes nothing:
    [updateChunks] again, at any position with the same chunk coordinates,
    returns the world it was given. *)
Theorem updateChunks_idempotent camx camz w :
  ∃ w', updateChunks camx camz w = Ok w' ∧
    ∀ camx' camz',
      floor (camx' / ofZ CHUNK_SIZE)%Qc = floor (camx / ofZ CHUNK_SIZE)%Qc →
      floor (camz' / ofZ CHUNK_SIZE)%Qc = floor (camz / ofZ CHUNK_SIZE)%Qc →
      updateChunks camx' camz' w' = Ok w'.
Proof.
  destruct (updateChunks_spec camx camz w) as (w' & Hrun & Hch & Hdata). cbv zeta in *.
  exists w'. split; [done|]. intros camx' camz' Hx Hz.
  destruct (updateChunks_spec camx' camz' w') as (w'' & Hrun' & Hch' & Hdata'). cbv zeta in *.
  rewrite Hx, Hz in *. rewrite Hrun'. f_equal.
  assert (chunks w'' = chunks w') as Hc.
  { apply map_eq. intros key. rewrite Hch'. rewrite Hch. case_decide; [|done].
    by destruct (chunks w !! key). }
  assert (chunkData w'' = chunkData w') as Hd.
  { apply map_eq. intros key. rewrite Hdata'. destruct (chunkData w' !! key) eqn:Hk; [done|].
    rewrite decide_False; [done|]. intros [Hn Hnone]. rewrite Hch, decide_True in Hnone by done.
    by destruct (chunks w !! key). }
  destruct w'', w'. cbn [chunks chunkData] in *. by subst.
Qed.

(** ** Instances *)

Lemma setMatrixAt_ge mesh i m :
  length (instanceMatrix mesh) ≤ i → setMatrixAt mesh i m = mesh.
Proof.
  intros Hi. unfold setMatrixAt. rewrite list_insert_ge by done. by destruct mesh.
Qed.

Lemma setFromMatrixPosition_centre ck : setFromMatrixPosition (centreMatrix ck) = centre ck.
Proof. by destruct ck as [[a b] c]. Qed.

Lemma half_float32 (a : Z) :
  (- 2 ^ 23 ≤ a < 2 ^ 23)%Z → float32 (ofZ a + half)%Qc.
Proof.
  intros Ha. exists (2 * a + 1)%Z, (-1)%Z. split; [lia|]. split; [lia|].
  rewrite ofZ_plus_half. apply Qc_is_canon. unfold pow2, ofZ.
  rewrite decide_False by lia. simpl.
  rewrite !Qred_correct. unfold Qeq, Qmult, Qdiv, Qinv. simpl. lia.
Qed.

(** The coordinates of the centre of a cell are numbers a [Float32Array]
    holds without rounding, for cells less than [2^23] away from the origin
    along every axis. *)
Lemma centre_float32 ck :
  (- 2 ^ 23 ≤ ck.1.1 < 2 ^ 23)%Z → (- 2 ^ 23 ≤ ck.1.2 < 2 ^ 23)%Z →
  (- 2 ^ 23 ≤ ck.2 < 2 ^ 23)%Z →
  float32 (px (centre ck)) ∧ float32 (py (centre ck)) ∧ float32 (pz (centre ck)).
Proof. intros. unfold centre. cbn [px py pz]. split_and!; by apply half_float32. Qed.

(** X14.  Writing and reading an instance: [setInstanceAt] raises when the
    batch has no mesh; otherwise it returns, keeps the count and the
    capacity and changes the matrix of no other slot; [getInstanceCenter]
    on that slot gives back the three coordinates written when the slot is
    within the capacity and the coordinates are numbers the [Float32Array]
    behind the mesh holds without rounding (other numbers are rounded by
    the store, which the model does not follow); beyond the capacity the
    write is dropped without notice and the read is not a position. *)
Theorem instance_round_trip record type idx x y z :
  (sel type (meshes record) = None → setInstanceAt record type idx x y z = Throws) ∧
  (∀ mesh, sel type (meshes record) = Some mesh →
     ∃ mesh',
       setInstanceAt record type idx x y z = Ok (withMesh type (Some mesh') record) ∧
       count mesh' = count mesh ∧
       length (instanceMatrix mesh') = length (instanceMatrix mesh) ∧
       (∀ j, j ≠ idx → getMatrixAt mesh' j = getMatrixAt mesh j) ∧
       (idx < length (instanceMatrix mesh) → float32 x → float32 y → float32 z →
          getInstanceCenter mesh' idx = Ok (mkPos x y z)) ∧
       (length (instanceMatrix mesh) ≤ idx →
          mesh' = mesh ∧ getInstanceCenter mesh' idx = Unmodelled)).
Proof.
  unfold setInstanceAt, meshOf. split.
  - by intros ->.
  - intros mesh ->. cbn [mbind run_bind]. eexists. split; [reflexivity|].
    split_and!; try done.
    + simpl. by rewrite length_insert.
    + intros j Hj. unfold getMatrixAt. simpl. by rewrite list_lookup_insert_ne.
    + intros Hi _ _ _. unfold getInstanceCenter, getMatrixAt. simpl.
      by rewrite list_lookup_insert_eq.
    + intros Hi. rewrite setMatrixAt_ge by done. split; [done|].
      unfold getInstanceCenter, getMatrixAt. by rewrite lookup_ge_None_2.
Qed.

(** X14 on the full brown batch: the centre of the cell [(5, 3, 0)] is
    written to slot 3 and read back. *)
Lemma instance_round_trip_witness :
  ∃ mesh mesh',
    sel brown (meshes (recordFor brownRow)) = Some mesh ∧
    setInstanceAt (recordFor brownRow) brown 3
      (px (centre (5, 3, 0)%Z)) (py (centre (5, 3, 0)%Z)) (pz (centre (5, 3, 0)%Z))
      = Ok (withMesh brown (Some mesh') (recordFor brownRow)) ∧
    getInstanceCenter mesh' 3 = Ok (centre (5, 3, 0)%Z).
Proof.
  destruct brownRow_shape as (_ & _ & Hs).
  destruct (sel brown (meshes (recordFor brownRow))) as [mesh|] eqn:Hm; [|simpl in Hs; lia].
  simpl in Hs.
  destruct (instance_round_trip (recordFor brownRow) brown 3
              (px (centre (5, 3, 0)%Z)) (py (centre (5, 3, 0)%Z)) (pz (centre (5, 3, 0)%Z)))
    as [_ H].
  destruct (H mesh Hm) as (mesh' & Hrun & _ & _ & _ & Hread & _).
  destruct (centre_float32 (5, 3, 0)%Z) as (Hx & Hy & Hz); [simpl; lia..|].
  exists mesh, mesh'. split; [reflexivity|]. split; [exact Hrun|].
  apply Hread; [rewrite Hs; lia|exact Hx|exact Hy|exact Hz].
Defined.

(** The instance [i] of a mesh of a consistent record, and the instance of
    an occupied cell. *)
Lemma instance_block rec t m i :
  recordOk rec → sel t (meshes rec) = Some m → i < count m →
  ∃ ck, sel t (cellsByIndex rec) !! i = Some ck ∧ occupancy rec !! ck = Some t ∧
        getInstanceCenter m i = Ok (centre ck).
Proof.
  intros Hok Hm Hi.
  destruct (proj1 (recordOk_both rec) Hok t) as ((Hlen & Hle & Hst & Hcnt) & Hlink & [Hbij Hmat]).
  rewrite (Hcnt m Hm), <- Hlen in Hi.
  destruct (lookup_lt_is_Some_2 _ _ Hi) as [ck Hck].
  exists ck. split; [done|]. split.
  - apply Hlink. exists i. by apply Hbij.
  - unfold getInstanceCenter, getMatrixAt. specialize (Hmat i ck Hck).
    rewrite Hm in Hmat. simpl in Hmat. rewrite Hmat. simpl.
    by rewrite setFromMatrixPosition_centre.
Qed.

Lemma block_instance rec t ck :
  recordOk rec → occupancy rec !! ck = Some t →
  ∃ m i, sel t (meshes rec) = Some m ∧ i < count m ∧ 0 < sel t (counts rec) ∧
         sel t (cellsByIndex rec) !! i = Some ck ∧
         getInstanceCenter m i = Ok (centre ck).
Proof.
  intros Hok Hocc.
  destruct (proj1 (recordOk_both rec) Hok t) as (Hshape & Hlink & Hslots).
  pose proof Hshape as (Hlen & Hle & Hst & Hcnt). pose proof Hslots as [Hbij Hmat].
  destruct (proj1 (Hlink ck) Hocc) as [i Hi].
  pose proof (slotsOk_lt _ _ _ _ _ Hslots Hi) as Hlt. rewrite Hlen in Hlt.
  destruct (batchShape_mesh t rec Hshape) as [m Hm]; [lia|].
  exists m, i. rewrite (Hcnt m Hm). split_and!; try done; try lia.
  - by apply Hbij.
  - unfold getInstanceCenter, getMatrixAt. apply Hbij in Hi. specialize (Hmat i ck Hi).
    rewrite Hm in Hmat. simpl in Hmat. rewrite Hmat. simpl.
    by rewrite setFromMatrixPosition_centre.
Qed.

(** ** Picking blocks *)

Lemma elem_of_pushIfDrawn m rec t :
  m ∈ pushIfDrawn rec t ↔ sel t (meshes rec) = Some m ∧ 0 < sel t (counts rec).
Proof.
  unfold pushIfDrawn. destruct (sel t (meshes rec)) as [m'|].
  - case_decide.
    + rewrite list_elem_of_singleton. split; [by intros ->|]. by intros [[= ->] _].
    + split; [by intros ?%elem_of_nil|]. intros [_ ?]. lia.
  - split; [by intros ?%elem_of_nil|]. by intros [? _].
Qed.

Lemma elem_of_nearby m range camx camz w :
  m ∈ getNearbyInstancedMeshes range camx camz w ↔
  ∃ dx dz rec t,
    (- range ≤ dx ≤ range ∧ - range ≤ dz ≤ range)%Z ∧
    chunks w !! (floor (camx / ofZ CHUNK_SIZE)%Qc + dx, 0,
                 floor (camz / ofZ CHUNK_SIZE)%Qc + dz)%Z = Some rec ∧
    sel t (meshes rec) = Some m ∧ 0 < sel t (counts rec).
Proof.
  unfold getNearbyInstancedMeshes, getChunkKeyFromCoords. rewrite list_elem_of_bind. split.
  - intros (dx & (dz & Hin & Hz%elem_of_seqZ)%list_elem_of_bind & Hx%elem_of_seqZ).
    destruct (chunks w !! _) as [rec|] eqn:Hrec; [|by apply elem_of_nil in Hin].
    apply elem_of_app in Hin as [Hin|Hin]; apply elem_of_pushIfDrawn in Hin as [Hm Hn].
    + exists dx, dz, rec, green. split_and!; try done; lia.
    + exists dx, dz, rec, brown. split_and!; try done; lia.
  - intros (dx & dz & rec & t & [Hx Hz] & Hrec & Hm & Hn).
    exists dx. split; [|apply elem_of_seqZ; lia].
    apply list_elem_of_bind. exists dz. split; [|apply elem_of_seqZ; lia].
    rewrite Hrec. apply elem_of_app.
    destruct t; [left|right]; by apply elem_of_pushIfDrawn.
Qed.

(** The block behind the first intersection. *)
Lemma hit_block raycast range camx camz w hit rest :
  reachable w → raycastSound raycast →
  raycast (getNearbyInstancedMeshes range camx camz w) = hit :: rest →
  ∃ key rec t ck,
    chunks w !! key = Some rec ∧ sel t (meshes rec) = Some (object hit) ∧
    sel t (cellsByIndex rec) !! instanceId hit = Some ck ∧
    occupancy rec !! ck = Some t ∧
    getInstanceCenter (object hit) (instanceId hit) = Ok (centre ck) ∧
    getChunkKey (centre ck) = key.
Proof.
  intros Hreach Hsound Hray.
  destruct (Hsound (getNearbyInstancedMeshes range camx camz w) hit) as [Hobj Hid].
  { rewrite Hray. by left. }
  apply elem_of_nearby in Hobj as (dx & dz & rec & t & _ & Hrec & Hm & _).
  pose proof (reachable_worldOk w Hreach) as Hw. pose proof Hw as [_ Hchunks].
  destruct (Hchunks _ _ Hrec) as (_ & Hok & _).
  destruct (instance_block rec t _ _ Hok Hm Hid) as (ck & Hck & Hocc & Hcen).
  eexists _, rec, t, ck. split_and!; try done.
  eapply occupied_home; [done|by apply reachable_homed|done|by eexists].
Qed.

Lemma firstInstance_sound : raycastSound firstInstance.
Proof.
  intros objects hit. unfold firstInstance.
  destruct (filter _ objects) as [|mesh rest] eqn:Hf; [by intros ?%elem_of_nil|].
  intros ->%list_elem_of_singleton. cbn [object instanceId].
  assert (mesh ∈ filter (λ mesh, 0 < count mesh) objects) as Hin by (rewrite Hf; by left).
  apply list_elem_of_filter in Hin as [? ?]. done.
Qed.

Lemma firstInstance_hit objects mesh :
  mesh ∈ objects → 0 < count mesh →
  ∃ hit, firstInstance objects = [hit] ∧ faceNormal hit = cellPos 0 1 0.
Proof.
  intros Hin Hpos. unfold firstInstance.
  destruct (filter _ objects) as [|mesh' rest] eqn:Hf.
  - exfalso. eapply filter_nil_not_elem_of; [exact Hf| |exact Hin]. exact Hpos.
  - by eexists.
Qed.

Lemma world1_hit :
  ∃ hit, firstInstance (getNearbyInstancedMeshes 2 0 0 world1) = [hit] ∧
         faceNormal hit = cellPos 0 1 0.
Proof.
  destruct world1_ground as (rec & Hrec & [t Hocc]).
  destruct block_keys as (_ & _ & Hk & _). rewrite Hk in Hrec.
  destruct (reachable_worldOk _ world1_reachable) as [_ Hchunks].
  destruct (Hchunks _ _ Hrec) as (_ & Hok & _).
  destruct (block_instance rec t _ Hok Hocc) as (m & i & Hm & Hi & Hn & _).
  apply (firstInstance_hit _ m); [|lia].
  apply elem_of_nearby. exists 0%Z, 0%Z, rec, t.
  assert ((floor (0 / ofZ CHUNK_SIZE)%Qc + 0)%Z = 0%Z) as -> by (by vm_compute).
  split_and!; [lia|lia|lia|lia|exact Hrec|exact Hm|exact Hn].
Qed.

(** X15.  Every block can be picked: after [updateChunks] at the position of
    the camera, from a world the program reaches, every occupied cell of
    every resident chunk is an instance, below [count], of one of the meshes
    [getNearbyInstancedMeshes(2)] hands to the raycaster, and the centre
    read from that instance is the centre of the cell. *)
Theorem nearby_meshes_cover camx camz w w' key rec ck t :
  reachable w → updateChunks camx camz w = Ok w' →
  chunks w' !! key = Some rec → occupancy rec !! ck = Some t →
  ∃ mesh i,
    mesh ∈ getNearbyInstancedMeshes 2 camx camz w' ∧
    sel t (meshes rec) = Some mesh ∧ i < count mesh ∧
    getInstanceCenter mesh i = Ok (centre ck).
Proof.
  intros Hreach Hrun Hrec Hocc.
  assert (reachable w') as Hreach' by (eapply reach_step; [done|by eapply step_update]).
  destruct (reachable_worldOk w' Hreach') as [_ Hchunks].
  destruct (Hchunks _ _ Hrec) as (_ & Hok & _).
  destruct (block_instance rec t ck Hok Hocc) as (m & i & Hm & Hi & Hn & _ & Hcen).
  exists m, i. split_and!; try done.
  destruct (updateChunks_spec camx camz w) as (w1 & Hrun' & Hch & _).
  rewrite Hrun in Hrun'. apply Ok_inj in Hrun'. subst w1. cbv zeta in Hch.
  assert (key ∈ neighbourhood (floor (camx / ofZ CHUNK_SIZE)%Qc)
                               (floor (camz / ofZ CHUNK_SIZE)%Qc)) as Hn'.
  { specialize (Hch key). rewrite Hrec in Hch. by case_decide. }
  apply elem_of_neighbourhood in Hn' as (cx & cz & -> & Hd).
  apply elem_of_nearby.
  exists (cx - floor (camx / ofZ CHUNK_SIZE)%Qc)%Z, (cz - floor (camz / ofZ CHUNK_SIZE)%Qc)%Z, rec, t.
  unfold RENDER_DISTANCE in Hd. split_and!; try done; try lia.
  rewrite <- Hrec. f_equal. f_equal; [f_equal|]; lia.
Qed.

(** X15 on the ground cell [(0, 0, 0)] of the first frame. *)
Lemma nearby_meshes_cover_witness :
  ∃ rec mesh i,
    chunks world1 !! getChunkKey (mkPos X0 X0 X0) = Some rec ∧
    mesh ∈ getNearbyInstancedMeshes 2 0 0 world1 ∧ i < count mesh ∧
    getInstanceCenter mesh i = Ok (centre (getCellKey (mkPos X0 X0 X0))).
Proof.
  destruct world1_ground as (rec & Hrec & [t Hocc]).
  destruct (nearby_meshes_cover 0 0 initialWorld world1 _ rec _ t reach_initial world1_run
              Hrec Hocc) as (mesh & i & Hin & _ & Hi & Hcen).
  exists rec, mesh, i. split_and!; [exact Hrec|exact Hin|exact Hi|exact Hcen].
Defined.

(** X16.  A left click destroys the block that was hit: in a world the
    program reaches, when the raycaster reports an intersection with an
    instance of one of the meshes given, the instance is the slot of an
    occupied cell of a resident chunk, and the handler returns the world in
    which that cell is free and every other cell and chunk is as before. *)
Theorem click_destroys_hit raycast camx camz w hit rest :
  reachable w → raycastSound raycast →
  raycast (getNearbyInstancedMeshes 2 camx camz w) = hit :: rest →
  ∃ key rec t ck w' rec',
    chunks w !! key = Some rec ∧ sel t (meshes rec) = Some (object hit) ∧
    sel t (cellsByIndex rec) !! instanceId hit = Some ck ∧
    occupancy rec !! ck = Some t ∧
    onMouseDown raycast 0 camx camz w = Ok w' ∧
    chunks w' = <[key := rec']> (chunks w) ∧
    occupancy rec' = delete ck (occupancy rec).
Proof.
  intros Hreach Hsound Hray.
  destruct (hit_block raycast 2 camx camz w hit rest Hreach Hsound Hray)
    as (key & rec & t & ck & Hrec & Hm & Hck & Hocc & Hcen & Hkey).
  pose proof (reachable_worldOk w Hreach) as Hw.
  destruct (removeBlockAt_ok w (px (centre ck)) (py (centre ck)) (pz (centre ck)) t rec Hw)
    as (rec' & arr & Hrun & _ & _ & Ho & _).
  { change (mkPos _ _ _) with (centre ck). by rewrite Hkey. }
  { change (mkPos _ _ _) with (centre ck). by rewrite getCellKey_centre. }
  { change (mkPos _ _ _) with (centre ck). by rewrite getCellKey_centre. }
  change (mkPos (px (centre ck)) _ _) with (centre ck) in *.
  rewrite getCellKey_centre, Hkey in *.
  exists key, rec, t, ck. eexists _, rec'.
  split_and!; [exact Hrec | exact Hm | exact Hck | exact Hocc | | | exact Ho].
  - unfold onMouseDown. rewrite Hray, Hcen. cbn [mbind run_bind].
    rewrite decide_False by done. rewrite decide_True by done.
    rewrite Hrun. cbn [mbind run_bind]. reflexivity.
  - reflexivity.
Qed.

(** X16 on the first frame, with the ray [firstInstance]. *)
Lemma click_destroys_hit_witness :
  ∃ hit w',
    firstInstance (getNearbyInstancedMeshes 2 0 0 world1) = [hit] ∧
    onMouseDown firstInstance 0 0 0 world1 = Ok w'.
Proof.
  destruct world1_hit as (hit & Hray & _).
  destruct (click_destroys_hit firstInstance 0 0 world1 hit [] world1_reachable
              firstInstance_sound Hray)
    as (key & rec & t & ck & w' & rec' & _ & _ & _ & _ & Hrun & _).
  exists hit, w'. split; [exact Hray|exact Hrun].
Defined.

Lemma placementTarget_cell ck nx ny nz :
  placementTarget (centre ck) (cellPos nx ny nz)
  = centre (ck.1.1 + nx, ck.1.2 + ny, ck.2 + nz)%Z.
Proof.
  unfold placementTarget, centre, cellPos, cubeSize. simpl.
  assert (∀ a n : Z, snapToGrid (ofZ a + half + ofZ n * 1)%Qc = (ofZ (a + n) + half)%Qc) as H.
  { intros a n. rewrite snapToGrid_eq.
    assert ((ofZ a + half + ofZ n * 1)%Qc = (ofZ (a + n) + half)%Qc) as ->.
    { unfold ofZ. rewrite Z2Qc_inj_add. ring. }
    by rewrite floor_ofZ_half. }
  by rewrite !H.
Qed.

(** X17.  A right click puts a brown block next to the block that was hit:
    with a face normal of integer coordinates [(nx, ny, nz)], the target is
    the cell of the hit block moved by the normal; the handler returns; the
    world is unchanged when the chunk of the target is not resident or the
    target is occupied, and otherwise the target becomes a brown cell of
    its chunk while every other cell and chunk is as before. *)
Theorem click_places_neighbour raycast camx camz w hit rest nx ny nz :
  reachable w → raycastSound raycast →
  raycast (getNearbyInstancedMeshes 2 camx camz w) = hit :: rest →
  faceNormal hit = cellPos nx ny nz →
  ∃ ck target w',
    getInstanceCenter (object hit) (instanceId hit) = Ok (centre ck) ∧
    target = (ck.1.1 + nx, ck.1.2 + ny, ck.2 + nz)%Z ∧
    onMouseDown raycast 2 camx camz w = Ok w' ∧
    (chunks w !! getChunkKey (centre target) = None → w' = w) ∧
    (∀ rec, chunks w !! getChunkKey (centre target) = Some rec →
       (is_Some (occupancy rec !! target) → w' = w) ∧
       (occupancy rec !! target = None →
          ∃ rec', chunks w' = <[getChunkKey (centre target) := rec']> (chunks w) ∧
                  occupancy rec' = <[target := brown]> (occupancy rec))).
Proof.
  intros Hreach Hsound Hray Hnormal.
  destruct (hit_block raycast 2 camx camz w hit rest Hreach Hsound Hray)
    as (key & rec & t & ck & Hrec & Hm & Hck & Hocc & Hcen & Hkey).
  pose proof (reachable_worldOk w Hreach) as Hw.
  exists ck, (ck.1.1 + nx, ck.1.2 + ny, ck.2 + nz)%Z.
  unfold onMouseDown. rewrite Hray, Hcen. cbn [mbind run_bind].
  rewrite decide_True by done. rewrite Hnormal, placementTarget_cell.
  set (target := (ck.1.1 + nx, ck.1.2 + ny, ck.2 + nz)%Z).
  change (mkPos (px (centre target)) _ _) with (centre target).
  destruct (chunks w !! getChunkKey (centre target)) as [rec0|] eqn:Hrec0.
  - destruct (occupancy rec0 !! target) as [t0|] eqn:Hocc0.
    + exists w. split; [reflexivity|]. split; [reflexivity|]. split.
      * rewrite (addBlockAt_occupied _ _ _ _ _ rec0); [reflexivity|exact Hrec0|].
        change (mkPos (px (centre target)) _ _) with (centre target).
        rewrite getCellKey_centre, Hocc0. by eexists.
      * split; [done|]. intros rec1 [= <-]. split; [done|]. by rewrite Hocc0.
    + destruct (addBlockAt_ok w (px (centre target)) (py (centre target)) (pz (centre target))
                  brown rec0 Hw) as (rec' & arr & Hrun & _ & _ & Ho & _).
      { exact Hrec0. }
      { change (mkPos _ _ _) with (centre target). by rewrite getCellKey_centre. }
      { change (mkPos _ _ _) with (centre target). by rewrite getCellKey_centre. }
      rewrite Hrun. cbn [mbind run_bind]. eexists.
      split; [reflexivity|]. split; [reflexivity|]. split; [reflexivity|].
      split; [done|]. intros rec1 [= <-]. split; [rewrite Hocc0; by intros []|].
      intros _. exists rec'.
      change (mkPos (px (centre target)) _ _) with (centre target) in *.
      rewrite getCellKey_centre in Ho. split; [reflexivity|exact Ho].
  - exists w. split; [reflexivity|]. split; [reflexivity|]. split.
    + by rewrite addBlockAt_absent.
    + split; [done|]. intros rec1 [=].
Qed.

(** X17 on the first frame, with the ray [firstInstance] through a top
    face. *)
Lemma click_places_neighbour_witness :
  ∃ hit ck w',
    firstInstance (getNearbyInstancedMeshes 2 0 0 world1) = [hit] ∧
    getInstanceCenter (object hit) (instanceId hit) = Ok (centre ck) ∧
    onMouseDown firstInstance 2 0 0 world1 = Ok w'.
Proof.
  destruct world1_hit as (hit & Hray & Hnormal).
  destruct (click_places_neighbour firstInstance 0 0 world1 hit [] 0 1 0 world1_reachable
              firstInstance_sound Hray Hnormal)
    as (ck & target & w' & Hcen & _ & Hrun & _).
  exists hit, ck, w'. split_and!; [exact Hray|exact Hcen|exact Hrun].
Defined.

Lemma addBlockAt_snapped w x y z t :
  worldOk w →
  ∃ w', addBlockAt (snapToGrid x) (snapToGrid y) (snapToGrid z) t w = Ok (JSundefined, w').
Proof.
  intros Hw.
  destruct (chunks w !! getChunkKey (mkPos (snapToGrid x) (snapToGrid y) (snapToGrid z)))
    as [rec|] eqn:Hrec.
  - destruct (occupancy rec !! getCellKey (mkPos (snapToGrid x) (snapToGrid y) (snapToGrid z)))
      as [t0|] eqn:Hocc.
    + exists w. apply (addBlockAt_occupied _ _ _ _ _ rec); [exact Hrec|]. rewrite Hocc. by eexists.
    + destruct (addBlockAt_ok w _ _ _ t rec Hw Hrec Hocc (snapToGrid_centre x y z))
        as (rec' & arr & Hrun & _). eexists. exact Hrun.
  - exists w. by apply addBlockAt_absent.
Qed.

Lemma snapToGrid_of_centre ck :
  snapToGrid (px (centre ck)) = px (centre ck) ∧
  snapToGrid (py (centre ck)) = py (centre ck) ∧
  snapToGrid (pz (centre ck)) = pz (centre ck).
Proof.
  destruct ck as [[a b] c]. unfold centre. cbn [px py pz fst snd].
  by rewrite !snapToGrid_eq, !floor_ofZ_half.
Qed.

(** X18.  The mouse handler never raises: in a world the program reaches,
    whatever the button, the position of the camera and the face normal of
    the intersection, the handler returns, and the world it leaves is again
    one the program reaches; the world is unchanged when the ray meets no
    instance and when the button is neither the left nor the right one. *)
Theorem click_never_raises raycast button camx camz w :
  reachable w → raycastSound raycast →
  ∃ w', onMouseDown raycast button camx camz w = Ok w' ∧ reachable w' ∧
        (raycast (getNearbyInstancedMeshes 2 camx camz w) = [] ∨ (button ≠ 0 ∧ button ≠ 2)%Z →
         w' = w).
Proof.
  intros Hreach Hsound. pose proof (reachable_worldOk w Hreach) as Hw. unfold onMouseDown.
  destruct (raycast _) as [|hit rest] eqn:Hray; [by exists w|].
  destruct (hit_block raycast 2 camx camz w hit rest Hreach Hsound Hray)
    as (key & rec & t & ck & Hrec & Hm & Hck & Hocc & Hcen & Hkey).
  rewrite Hcen. cbn [mbind run_bind]. case_decide as Hb2; [|case_decide as Hb0].
  - unfold placementTarget. cbn [px py pz].
    destruct (addBlockAt_snapped w (px (centre ck) + px (faceNormal hit) * cubeSize)%Qc
                (py (centre ck) + py (faceNormal hit) * cubeSize)%Qc
                (pz (centre ck) + pz (faceNormal hit) * cubeSize)%Qc brown Hw) as [w' Hrun].
    rewrite Hrun. cbn [mbind run_bind]. exists w'. split; [reflexivity|]. split.
    + eapply reach_step; [exact Hreach|]. eapply step_add. exact Hrun.
    + intros [[=]|[_ ?]]. done.
  - destruct (removeBlockAt_ok w (px (centre ck)) (py (centre ck)) (pz (centre ck)) t rec Hw)
      as (rec' & arr & Hrun & _).
    { change (mkPos _ _ _) with (centre ck). by rewrite Hkey. }
    { change (mkPos _ _ _) with (centre ck). by rewrite getCellKey_centre. }
    { change (mkPos _ _ _) with (centre ck). by rewrite getCellKey_centre. }
    rewrite Hrun. cbn [mbind run_bind]. eexists. split; [reflexivity|]. split.
    + eapply reach_step; [exact Hreach|].
      destruct (snapToGrid_of_centre ck) as (Hx & Hy & Hz).
      eapply (step_remove _ _ (px (centre ck)) (py (centre ck)) (pz (centre ck))).
      rewrite Hx, Hy, Hz. exact Hrun.
    + intros [[=]|[? _]]. done.
  - exists w. done.
Qed.

(** X18 for the middle button on the first frame. *)
Lemma click_never_raises_witness :
  ∃ w', onMouseDown firstInstance 1 0 0 world1 = Ok w' ∧ reachable w'.
Proof.
  destruct (click_never_raises firstInstance 1 0 0 world1 world1_reachable firstInstance_sound)
    as (w' & Hrun & Hreach & _).
  exists w'. split; [exact Hrun|exact Hreach].
Defined.

(** X19.  The ghost cube previews the placement: in a world the program
    reaches, [updateGhostCube] returns; the cube is visible exactly when the
    controls are locked, the ghost is enabled and the ray meets an instance;
    a hidden cube keeps its position; a visible cube sits at the centre of a
    cell, and a right click in that frame calls [addBlockAt] at exactly
    that position. *)
Theorem ghost_previews_placement raycast isLocked ghostEnabled camx camz w ghostCube :
  reachable w → raycastSound raycast →
  ∃ ghostCube',
    updateGhostCube raycast isLocked ghostEnabled camx camz w ghostCube = Ok ghostCube' ∧
    (visible ghostCube' = true ↔
       isLocked = true ∧ ghostEnabled = true ∧
       raycast (getNearbyInstancedMeshes 2 camx camz w) ≠ []) ∧
    (visible ghostCube' = false → position ghostCube' = position ghostCube) ∧
    (visible ghostCube' = true →
       position ghostCube' = centre (getCellKey (position ghostCube')) ∧
       onMouseDown raycast 2 camx camz w =
         '(_, w') ← addBlockAt (px (position ghostCube')) (py (position ghostCube'))
                               (pz (position ghostCube')) brown w;
         Ok w').
Proof.
  intros Hreach Hsound. unfold updateGhostCube, onMouseDown.
  destruct isLocked, ghostEnabled; cbn [negb orb];
    try (eexists; split; [reflexivity|]; cbn [visible position]; split_and!; [|done|done];
         split; [done|]; by intros (? & ? & _)).
  destruct (raycast _) as [|hit rest] eqn:Hray.
  - eexists. split; [reflexivity|]. cbn [visible position]. split_and!; [|done|done].
    split; [done|]. by intros (_ & _ & ?).
  - destruct (hit_block raycast 2 camx camz w hit rest Hreach Hsound Hray)
      as (key & rec & t & ck & _ & _ & _ & _ & -> & _).
    cbn [mbind run_bind]. eexists. split; [reflexivity|]. cbn [visible position].
    split_and!; try done.
    intros _. split; [|reflexivity].
    unfold placementTarget. apply snapToGrid_centre.
Qed.

(** X19 on the first frame, locked and enabled, with the ray
    [firstInstance]. *)
Lemma ghost_previews_placement_witness :
  ∃ ghostCube',
    updateGhostCube firstInstance true true 0 0 world1 (mkObject3D false (mkPos 0 0 0))
      = Ok ghostCube' ∧
    visible ghostCube' = true.
Proof.
  destruct (ghost_previews_placement firstInstance true true 0 0 world1
              (mkObject3D false (mkPos 0 0 0)) world1_reachable firstInstance_sound)
    as (ghostCube' & Hrun & Hvis & _).
  exists ghostCube'. split; [exact Hrun|]. apply Hvis.
  destruct world1_hit as (hit & Hray & _). rewrite Hray. split_and!; [reflexivity|reflexivity|].
  intros [=].
Defined.

(** ** Grid tiles and gray planes *)

Ltac qc_lra :=
  unfold Qcle, Qclt, Qcminus, Qcplus, Qcopp, ofZ, Qc_of_Z in *; cbn [this Q2Qc] in *;
  rewrite ?Qred_correct in *; unfold inject_Z in *; Lqa.lra.

Lemma placeTiles_spec size pcx pcz ds : ∀ i tiles,
  i + length ds ≤ length tiles →
  ∃ tiles', placeTiles size pcx pcz ds i tiles = Ok tiles' ∧
    length tiles' = length tiles ∧
    ∀ j, tiles' !! j =
         match ds !! (j - i) with
         | Some d =>
             if decide (i ≤ j) then
               (λ g, mkObject3D (visible g)
                       (mkPos (ofZ ((pcx + d.1) * size)) (py (position g))
                              (ofZ ((pcz + d.2) * size)))) <$> tiles !! j
             else tiles !! j
         | None => tiles !! j
         end.
Proof.
  induction ds as [|[dx dz] ds IH]; intros i tiles Hlen.
  - exists tiles. split; [done|]. split; [done|]. intros j. by rewrite lookup_nil.
  - cbn [placeTiles]. simpl in Hlen.
    destruct (lookup_lt_is_Some_2 tiles i) as [g Hg]; [lia|]. rewrite Hg.
    destruct (IH (S i) (<[i := mkObject3D (visible g)
                                 (mkPos (ofZ ((pcx + dx) * size)) (py (position g))
                                        (ofZ ((pcz + dz) * size)))]> tiles))
      as (tiles' & -> & Hl & Hlk).
    { rewrite length_insert. lia. }
    exists tiles'. split; [done|]. rewrite length_insert in Hl. split; [done|].
    intros j. rewrite Hlk. destruct (decide (j = i)) as [->|Hne].
    + rewrite Nat.sub_diag. simpl. rewrite decide_True by lia.
      replace (i - S i) with 0 by lia.
      rewrite list_lookup_insert_eq by lia. rewrite Hg. simpl.
      destruct (ds !! 0); [|done]. by rewrite decide_False by lia.
    + rewrite list_lookup_insert_ne by done.
      destruct (decide (i ≤ j)) as [Hle|Hgt].
      * replace (j - i) with (S (j - S i)) by lia. simpl.
        destruct (ds !! (j - S i)); [|done]. by rewrite decide_True by lia.
      * replace (j - S i) with 0 by lia. replace (j - i) with 0 by lia. simpl.
        destruct (ds !! 0); [by rewrite decide_False by lia|done].
Qed.

Lemma placeTiles_short size pcx pcz ds : ∀ i tiles,
  length tiles < i + length ds → i ≤ length tiles →
  placeTiles size pcx pcz ds i tiles = Throws.
Proof.
  induction ds as [|[dx dz] ds IH]; intros i tiles Hlen Hi; [simpl in Hlen; lia|].
  cbn [placeTiles]. simpl in Hlen. destruct (tiles !! i) as [g|] eqn:Hg; [|done].
  apply lookup_lt_Some in Hg. apply IH; rewrite length_insert; lia.
Qed.

Lemma floor_bounds (c : Qc) (n : Z) :
  (0 < n)%Z →
  (ofZ (floor (c / ofZ n)%Qc * n) ≤ c)%Qc ∧ (c < ofZ (floor (c / ofZ n)%Qc * n) + ofZ n)%Qc.
Proof.
  intros Hn.
  pose proof (floor_lower (c / ofZ n)%Qc) as Hlo. pose proof (floor_upper (c / ofZ n)%Qc) as Hhi.
  set (k := floor (c / ofZ n)%Qc) in *.
  assert (0 < ofZ n)%Qc as Hpos.
  { unfold Qclt, ofZ. simpl. unfold Qlt. simpl. lia. }
  assert (c = (c / ofZ n) * ofZ n)%Qc as Hc.
  { field. intros Hz. rewrite Hz in Hpos. by apply Qclt_not_le in Hpos. }
  assert (ofZ (k * n) = ofZ k * ofZ n)%Qc as -> by (unfold ofZ; by rewrite Z2Qc_inj_mul).
  split.
  - rewrite Hc. apply Qcmult_le_compat_r; [done|]. by apply Qclt_le_weak.
  - replace (ofZ k * ofZ n + ofZ n)%Qc with ((ofZ k + 1) * ofZ n)%Qc by ring.
    rewrite Hc. by apply Qcmult_lt_compat_r.
Qed.

Lemma cover_axis (c x : Qc) :
  (c - ofZ 32 ≤ x)%Qc → (x ≤ c + ofZ 32)%Qc →
  ∃ d, (d = 0 ∨ d = 1)%Z ∧
       (ofZ ((floor (c / ofZ 64)%Qc + d) * 64) - ofZ 32 ≤ x)%Qc ∧
       (x ≤ ofZ ((floor (c / ofZ 64)%Qc + d) * 64) + ofZ 32)%Qc.
Proof.
  intros Hlo Hhi. destruct (floor_bounds c 64) as [Hk1 Hk2]; [lia|].
  set (k := floor (c / ofZ 64)%Qc) in *.
  assert (∀ d, ofZ ((k + d) * 64) = ofZ (k * 64) + ofZ (d * 64))%Qc as Hd.
  { intros d. unfold ofZ. by rewrite <- Z2Qc_inj_add, Z.mul_add_distr_r. }
  generalize dependent (ofZ (k * 64)). intros a Hk1 Hk2 Hd.
  destruct (Qclt_le_dec (a + ofZ 32) x) as [Hbig|Hsmall].
  - exists 1%Z. split; [by right|]. rewrite Hd. change (1 * 64)%Z with 64%Z.
    split; qc_lra.
  - exists 0%Z. split; [by left|]. rewrite Hd. change (0 * 64)%Z with 0%Z.
    split; qc_lra.
Qed.

Lemma tileOffsets_lookup (dx dz : Z) :
  (-1 ≤ dx ≤ 1)%Z → (-1 ≤ dz ≤ 1)%Z →
  tileOffsets !! Z.to_nat (3 * (dx + 1) + (dz + 1)) = Some (dx, dz).
Proof.
  intros Hx Hz.
  assert (dx = -1 ∨ dx = 0 ∨ dx = 1)%Z as [->|[->| ->]] by lia;
  assert (dz = -1 ∨ dz = 0 ∨ dz = 1)%Z as [->|[->| ->]] by lia; reflexivity.
Qed.

(** X20.  The grid and the floor follow the camera.  [updateGridTiles] and
    [updateSolidGrayPlanes] are the same function of their array; nine
    tiles are created, and with fewer than nine the update raises; with
    nine or more it returns, keeps the length, the visibility and the
    height of every tile and every tile past the ninth; tile
    [3 * (dx + 1) + (dz + 1)] is centred on the 64-unit cell of the camera
    moved by [(dx, dz)]; so every point within 32 units of the camera, in
    [x] and in [z], lies on one of the nine tiles. *)
Theorem tiles_follow_camera camx camz tiles :
  updateSolidGrayPlanes camx camz tiles = updateGridTiles camx camz tiles ∧
  length gridTiles0 = 9 ∧ length solidGrayPlanes0 = 9 ∧
  (length tiles < 9 → updateGridTiles camx camz tiles = Throws) ∧
  (9 ≤ length tiles →
   ∃ tiles', updateGridTiles camx camz tiles = Ok tiles' ∧
     length tiles' = length tiles ∧
     (∀ i g, tiles !! i = Some g →
        ∃ g', tiles' !! i = Some g' ∧ visible g' = visible g ∧
              py (position g') = py (position g) ∧ (9 ≤ i → g' = g)) ∧
     (∀ dx dz, (-1 ≤ dx ≤ 1)%Z → (-1 ≤ dz ≤ 1)%Z →
        ∃ g', tiles' !! Z.to_nat (3 * (dx + 1) + (dz + 1)) = Some g' ∧
              px (position g') = ofZ ((floor (camx / ofZ 64)%Qc + dx) * 64) ∧
              pz (position g') = ofZ ((floor (camz / ofZ 64)%Qc + dz) * 64)) ∧
     (∀ x z : Qc,
        (camx - ofZ 32 ≤ x)%Qc → (x ≤ camx + ofZ 32)%Qc →
        (camz - ofZ 32 ≤ z)%Qc → (z ≤ camz + ofZ 32)%Qc →
        ∃ g', g' ∈ take 9 tiles' ∧
              (px (position g') - ofZ 32 ≤ x)%Qc ∧ (x ≤ px (position g') + ofZ 32)%Qc ∧
              (pz (position g') - ofZ 32 ≤ z)%Qc ∧ (z ≤ pz (position g') + ofZ 32)%Qc)).
Proof.
  split; [reflexivity|]. split; [reflexivity|]. split; [reflexivity|]. split.
  - intros Hlen. unfold updateGridTiles. apply placeTiles_short; simpl; lia.
  - intros Hlen. unfold updateGridTiles, GRID_TILE_SIZE.
    set (pcx := floor (camx / ofZ 64)%Qc). set (pcz := floor (camz / ofZ 64)%Qc).
    destruct (placeTiles_spec 64 pcx pcz tileOffsets 0 tiles) as (tiles' & -> & Hl & Hlk).
    { simpl. lia. }
    assert (∀ dx dz, (-1 ≤ dx ≤ 1)%Z → (-1 ≤ dz ≤ 1)%Z →
        ∃ g', tiles' !! Z.to_nat (3 * (dx + 1) + (dz + 1)) = Some g' ∧
              px (position g') = ofZ ((pcx + dx) * 64) ∧
              pz (position g') = ofZ ((pcz + dz) * 64)) as Hat.
    { intros dx dz Hx Hz. rewrite Hlk, Nat.sub_0_r, tileOffsets_lookup by done.
      rewrite decide_True by lia.
      destruct (lookup_lt_is_Some_2 tiles (Z.to_nat (3 * (dx + 1) + (dz + 1)))) as [g Hg]; [lia|].
      rewrite Hg. simpl. by eexists. }
    exists tiles'. split; [done|]. split; [done|]. split; [|split; [exact Hat|]].
    + intros i g Hg. rewrite Hlk, Nat.sub_0_r, Hg.
      destruct (tileOffsets !! i) as [d|] eqn:Hd.
      * rewrite decide_True by lia. simpl. eexists. split; [done|]. split_and!; try done.
        intros Hi. apply lookup_lt_Some in Hd. simpl in Hd. lia.
      * exists g. done.
    + intros x z Hx1 Hx2 Hz1 Hz2.
      destruct (cover_axis camx x Hx1 Hx2) as (dx & Hdx & Hxa & Hxb).
      destruct (cover_axis camz z Hz1 Hz2) as (dz & Hdz & Hza & Hzb).
      destruct (Hat dx dz) as (g' & Hg' & Hpx & Hpz); [lia|lia|].
      exists g'. fold pcx pcz in Hxa, Hxb, Hza, Hzb. rewrite Hpx, Hpz. split_and!; try done.
      apply list_elem_of_lookup. exists (Z.to_nat (3 * (dx + 1) + (dz + 1))).
      rewrite lookup_take_lt by lia. done.
Qed.

(** * Verification of the collision step *)

Open Scope R_scope.

Lemma vset_eq s r v : vset s r v r = v.
Proof. unfold vset. by rewrite decide_True. Qed.

Lemma vset_ne s r r' v : r' ≠ r → vset s r v r' = s r'.
Proof. intros. unfold vset. by rewrite decide_False. Qed.

(** ** The sampling loop *)

Section Sampling.

Variable capsule : Capsule.
Variable box : Box3.

Lemma scanSamples_spec samples : ∀ s,
  s TmpVec2 = normalize (vsub (cend capsule) (cstart capsule)) →
  let L := vlength (vsub (cend capsule) (cstart capsule)) in
  (∀ pre i post, samples = pre ++ i :: post →
     (∀ j, j ∈ pre → ¬ sampleDistance capsule box j < cradius capsule) →
     sampleDistance capsule box i < cradius capsule →
     ∃ s', scanSamples capsule box L samples s
           = (s', Some {| correction := PushDir; normal := PushDir |}) ∧
       s' PushDir = pushOut (samplePoint capsule i) (closestPoint capsule box i)
                            (cradius capsule)) ∧
  ((∀ j, j ∈ samples → ¬ sampleDistance capsule box j < cradius capsule) →
     ∃ s', scanSamples capsule box L samples s = (s', None)).
Proof.
  induction samples as [|k samples IH]; intros s Hdir L.
  - split.
    + intros pre i post Heq. by destruct pre.
    + intros _. by exists s.
  - cbn [scanSamples].
    rewrite !vset_eq. rewrite !vset_ne by done. rewrite vset_eq, Hdir.
    change (vadd _ (cstart capsule)) with (samplePoint capsule k).
    change (clampPoint box (samplePoint capsule k)) with (closestPoint capsule box k).
    change (distanceTo (closestPoint capsule box k) (samplePoint capsule k))
      with (sampleDistance capsule box k).
    destruct (Rlt_dec (sampleDistance capsule box k) (cradius capsule)) as [Hhit|Hmiss].
    + split.
      * intros pre i post Heq Hpre Hi. destruct pre as [|j pre].
        -- injection Heq as <- <-. eexists. split; [reflexivity|]. by rewrite vset_eq.
        -- injection Heq as <- _. exfalso. apply (Hpre k); [by left|done].
      * intros Hall. exfalso. apply (Hall k); [by left|done].
    + set (s1 := vset (vset s TmpVec _) TmpClosest _).
      destruct (IH s1) as [IH1 IH2].
      { subst s1. by rewrite !vset_ne. }
      split.
      * intros pre i post Heq Hpre Hi. destruct pre as [|j pre].
        -- injection Heq as <- <-. done.
        -- injection Heq as <- ->. apply (IH1 pre i post); [done| |done].
           intros j' Hj'. apply Hpre. by right.
      * intros Hall. apply IH2. intros j Hj. apply Hall. by right.
Qed.

Lemma firstWithin_split i :
  (i ≤ steps)%nat → ∃ post, seq 0 (S steps) = seq 0 i ++ i :: post.
Proof.
  intros Hi. exists (seq (S i) (steps - i)).
  replace (S steps) with (i + S (steps - i))%nat by lia.
  by rewrite seq_app.
Qed.

Lemma capsuleIntersectCorrection_hit s i :
  firstWithin capsule box i →
  ∃ s', capsuleIntersectCorrection capsule box s
        = (s', Some {| correction := PushDir; normal := PushDir |}) ∧
    s' PushDir = pushOut (samplePoint capsule i) (closestPoint capsule box i)
                         (cradius capsule).
Proof.
  intros (Hi & Hhit & Hfirst). unfold capsuleIntersectCorrection.
  rewrite !vset_eq.
  set (s1 := vset (vset s TmpVec2 _) TmpVec2 _).
  destruct (scanSamples_spec (seq 0 (S steps)) s1) as [H _].
  { subst s1. by rewrite vset_eq. }
  destruct (firstWithin_split i Hi) as [post Heq].
  apply (H (seq 0 i) i post Heq); [|done].
  intros j Hj. apply Hfirst. apply elem_of_seq in Hj. lia.
Qed.

Lemma capsuleIntersectCorrection_miss s :
  (∀ j, (j ≤ steps)%nat → ¬ sampleDistance capsule box j < cradius capsule) →
  ∃ s', capsuleIntersectCorrection capsule box s = (s', None).
Proof.
  intros Hall. unfold capsuleIntersectCorrection. rewrite !vset_eq.
  set (s1 := vset (vset s TmpVec2 _) TmpVec2 _).
  destruct (scanSamples_spec (seq 0 (S steps)) s1) as [_ H].
  { subst s1. by rewrite vset_eq. }
  apply H. intros j Hj. apply Hall. apply elem_of_seq in Hj. lia.
Qed.

(** Either some sample is the first within the radius, or none is. *)
Lemma firstWithin_dec :
  (∃ i, firstWithin capsule box i) ∨
  (∀ j, (j ≤ steps)%nat → ¬ sampleDistance capsule box j < cradius capsule).
Proof.
  assert (∀ n, (∃ i, (i < n)%nat ∧ sampleDistance capsule box i < cradius capsule ∧
                     ∀ j, (j < i)%nat → ¬ sampleDistance capsule box j < cradius capsule) ∨
               (∀ j, (j < n)%nat → ¬ sampleDistance capsule box j < cradius capsule)) as H.
  { induction n as [|n [(i & ? & ? & ?)|IH]].
    - right. intros j Hj. lia.
    - left. exists i. split_and!; [lia|done|done].
    - destruct (Rlt_dec (sampleDistance capsule box n) (cradius capsule)) as [Hn|Hn].
      + left. exists n. split_and!; [lia|done|done].
      + right. intros j Hj. destruct (decide (j = n)) as [->|?]; [done|]. apply IH. lia. }
  destruct (H (S steps)) as [(i & ? & ? & ?)|Hnone].
  - left. exists i. split_and!; [lia|done|done].
  - right. intros j Hj. apply Hnone. lia.
Qed.

End Sampling.

(** ** Vector algebra *)

Lemma vector3_eq a b : vx a = vx b → vy a = vy b → vz a = vz b → a = b.
Proof. destruct a, b. simpl. by intros -> -> ->. Qed.

Lemma vlength_nonneg v : 0 <= vlength v.
Proof. apply sqrt_pos. Qed.

Lemma sumsq_nonneg a b c : 0 <= a * a + b * b + c * c.
Proof. nra. Qed.

Lemma vlength_sqr v : vlength v * vlength v = dot v v.
Proof. unfold vlength, dot. apply sqrt_sqrt, sumsq_nonneg. Qed.

Lemma vlength_zero_iff v : vlength v = 0 ↔ v = vzero.
Proof.
  split.
  - intros H. apply sqrt_eq_0 in H; [|apply sumsq_nonneg].
    apply vector3_eq; simpl; nra.
  - intros ->. unfold vlength. simpl.
    replace (0 * 0 + 0 * 0 + 0 * 0) with 0 by lra. apply sqrt_0.
Qed.

Lemma lengthOr1_nonzero v : lengthOr1 v ≠ 0.
Proof. unfold lengthOr1. destruct (Req_dec_T (vlength v) 0); [lra|done]. Qed.

Lemma lengthOr1_pos v : 0 < lengthOr1 v.
Proof.
  pose proof (vlength_nonneg v). pose proof (lengthOr1_nonzero v) as Hnz.
  unfold lengthOr1 in *. destruct (Req_dec_T (vlength v) 0); lra.
Qed.

Lemma normalize_zero : normalize vzero = vzero.
Proof.
  unfold normalize, divideScalar, multiplyScalar. simpl. apply vector3_eq; simpl; lra.
Qed.

Lemma vlength_multiplyScalar v k : 0 <= k → vlength (multiplyScalar v k) = vlength v * k.
Proof.
  intros Hk. unfold vlength, multiplyScalar. simpl.
  replace (vx v * k * (vx v * k) + vy v * k * (vy v * k) + vz v * k * (vz v * k))
    with ((vx v * vx v + vy v * vy v + vz v * vz v) * (k * k)) by ring.
  rewrite sqrt_mult; [|apply sumsq_nonneg|nra]. by rewrite sqrt_square.
Qed.

Lemma normalize_unit v : v ≠ vzero → vlength (normalize v) = 1.
Proof.
  intros Hv. assert (vlength v ≠ 0) as Hl by (by rewrite vlength_zero_iff).
  unfold normalize, divideScalar. pose proof (vlength_nonneg v).
  rewrite vlength_multiplyScalar.
  - unfold lengthOr1. destruct (Req_dec_T (vlength v) 0); [done|]. by field.
  - pose proof (lengthOr1_pos v). apply Rlt_le. apply Rdiv_lt_0_compat; lra.
Qed.

Lemma distanceTo_sym a b : distanceTo a b = distanceTo b a.
Proof. unfold distanceTo, vlength, vsub. simpl. f_equal. ring. Qed.

Lemma distanceTo_zero a b : distanceTo a b = 0 → vsub b a = vzero.
Proof.
  rewrite distanceTo_sym. unfold distanceTo. by rewrite vlength_zero_iff.
Qed.

Lemma vadd_zero v : vadd v vzero = v.
Proof. apply vector3_eq; simpl; lra. Qed.

Lemma translate_zero c : translate c vzero = c.
Proof. destruct c. unfold translate. simpl. by rewrite !vadd_zero. Qed.

Lemma sampleDistance_eq capsule box i :
  sampleDistance capsule box i
  = vlength (vsub (samplePoint capsule i) (closestPoint capsule box i)).
Proof. unfold sampleDistance. by rewrite distanceTo_sym. Qed.

Lemma collideBox_hit box b i :
  firstWithin (collider b) box i →
  ∃ s', capsuleIntersectCorrection (collider b) box (temps b)
        = (s', Some {| correction := PushDir; normal := PushDir |}) ∧
    s' PushDir = pushOut (samplePoint (collider b) i) (closestPoint (collider b) box i)
                         (cradius (collider b)) ∧
    collideBox box b =
      mkBody (translate (collider b) (s' PushDir))
             (vsub (velocity b) (multiplyScalar (s' PushDir) (dot (velocity b) (s' PushDir))))
             s'.
Proof.
  intros Hfirst.
  destruct (capsuleIntersectCorrection_hit (collider b) box (temps b) i Hfirst)
    as (s' & Hrun & Hpush).
  exists s'. split; [done|]. split; [done|]. unfold collideBox. by rewrite Hrun.
Qed.

Lemma collideBox_miss box b :
  (∀ j, (j ≤ steps)%nat → ¬ sampleDistance (collider b) box j < cradius (collider b)) →
  collider (collideBox box b) = collider b ∧ velocity (collideBox box b) = velocity b.
Proof.
  intros Hall.
  destruct (capsuleIntersectCorrection_miss (collider b) box (temps b) Hall) as [s' Hrun].
  unfold collideBox. by rewrite Hrun.
Qed.

Lemma pushOut_zero p c r : distanceTo c p = 0 → pushOut p c r = vzero.
Proof.
  intros Hd. unfold pushOut. rewrite (distanceTo_zero _ _ Hd), normalize_zero.
  apply vector3_eq; simpl; lra.
Qed.

Lemma collideBox_zero box b i :
  firstWithin (collider b) box i → sampleDistance (collider b) box i = 0 →
  collider (collideBox box b) = collider b ∧ velocity (collideBox box b) = velocity b.
Proof.
  intros Hfirst Hd. destruct (collideBox_hit box b i Hfirst) as (s' & _ & Hpush & ->).
  rewrite Hpush, pushOut_zero by done. simpl. rewrite translate_zero. split; [done|].
  apply vector3_eq; simpl; lra.
Qed.

(** C10.  Zero-distance degeneracy: the divisor of [normalize] is never
    zero; when the first sample within the radius lies on its closest
    point, that divisor is 1, the normalized difference is the zero vector,
    [capsuleIntersectCorrection] returns a result whose correction and
    normal are the zero vector, and the collision step leaves the capsule
    and the velocity unchanged; so a capsule all of whose samples within
    the radius lie inside the cube is not moved. *)
Theorem zero_distance_degeneracy box b :
  (∀ v, lengthOr1 v ≠ 0) ∧
  (∀ i, firstWithin (collider b) box i → sampleDistance (collider b) box i = 0 →
     lengthOr1 (vsub (samplePoint (collider b) i) (closestPoint (collider b) box i)) = 1 ∧
     normalize (vsub (samplePoint (collider b) i) (closestPoint (collider b) box i)) = vzero ∧
     ∃ s' result,
       capsuleIntersectCorrection (collider b) box (temps b) = (s', Some result) ∧
       s' (correction result) = vzero ∧ s' (normal result) = vzero ∧
       collider (collideBox box b) = translate (collider b) vzero ∧
       collider (collideBox box b) = collider b ∧
       velocity (collideBox box b) = velocity b) ∧
  ((∀ j, (j ≤ steps)%nat → sampleDistance (collider b) box j < cradius (collider b) →
         sampleDistance (collider b) box j = 0) →
   collider (collideBox box b) = collider b ∧ velocity (collideBox box b) = velocity b).
Proof.
  split; [apply lengthOr1_nonzero|]. split.
  - intros i Hfirst Hd.
    pose proof (distanceTo_zero _ _ Hd) as Hz.
    fold (closestPoint (collider b) box i) in Hz.
    destruct (collideBox_hit box b i Hfirst) as (s' & Hrun & Hpush & Hbody).
    destruct (collideBox_zero box b i Hfirst Hd) as [Hc Hv].
    rewrite pushOut_zero in Hpush by done.
    split_and!.
    + rewrite Hz. unfold lengthOr1. destruct (Req_dec_T (vlength vzero) 0) as [|Hne]; [done|].
      exfalso. apply Hne. by apply vlength_zero_iff.
    + by rewrite Hz, normalize_zero.
    + exists s', {| correction := PushDir; normal := PushDir |}.
      split_and!; try done. by rewrite translate_zero.
  - intros Hall. destruct (firstWithin_dec (collider b) box) as [[i Hfirst]|Hnone].
    + apply (collideBox_zero box b i Hfirst). destruct Hfirst as (Hi & Hhit & _).
      by apply Hall.
    + by apply collideBox_miss.
Qed.

Lemma dot_comm a b : dot a b = dot b a.
Proof. unfold dot. ring. Qed.

Lemma dot_tangent vel n k t :
  dot n t = 0 →
  dot (vsub vel (multiplyScalar (multiplyScalar n k) (dot vel (multiplyScalar n k)))) t
  = dot vel t.
Proof.
  unfold dot. simpl. intros H.
  set (S := vx vel * (vx n * k) + vy vel * (vy n * k) + vz vel * (vz n * k)).
  transitivity (vx vel * vx t + vy vel * vy t + vz vel * vz t
                - k * S * (vx n * vx t + vy n * vy t + vz n * vz t)); [ring|].
  rewrite H. ring.
Qed.

(** What the step does to the velocity: [result.normal] is the object
    [result.correction], of length [radius - d], so the component along the
    unit push direction [n] is multiplied by [1 - (radius - d)^2]. *)
Lemma collideBox_velocity box b i :
  firstWithin (collider b) box i →
  velocity (collideBox box b)
  = vsub (velocity b)
      (multiplyScalar
         (normalize (vsub (samplePoint (collider b) i) (closestPoint (collider b) box i)))
         ((cradius (collider b) - sampleDistance (collider b) box i)
          * (cradius (collider b) - sampleDistance (collider b) box i)
          * dot (velocity b)
                (normalize (vsub (samplePoint (collider b) i)
                                 (closestPoint (collider b) box i))))).
Proof.
  intros Hfirst. destruct (collideBox_hit box b i Hfirst) as (s' & _ & Hpush & ->).
  simpl. rewrite Hpush. unfold pushOut. fold (sampleDistance (collider b) box i).
  unfold dot. apply vector3_eq; simpl; ring.
Qed.

(** C3, amended.  When sample [i] is the first within the radius (no
    earlier sample is within it, at whatever distance) and its
    distance [d] to its closest point is positive, the correction is
    [(radius - d) * n] where [n] is the unit vector from the closest point
    to the sample; its length is [radius - d]; the capsule is translated by
    it, and the velocity keeps its component along every direction
    orthogonal to [n]. *)
Theorem push_out_step box b i :
  firstWithin (collider b) box i → 0 < sampleDistance (collider b) box i →
  ∃ s' result n,
    n = divideScalar (vsub (samplePoint (collider b) i) (closestPoint (collider b) box i))
                     (sampleDistance (collider b) box i) ∧
    vlength n = 1 ∧
    capsuleIntersectCorrection (collider b) box (temps b) = (s', Some result) ∧
    s' (correction result)
      = multiplyScalar n (cradius (collider b) - sampleDistance (collider b) box i) ∧
    vlength (s' (correction result))
      = cradius (collider b) - sampleDistance (collider b) box i ∧
    collider (collideBox box b) = translate (collider b) (s' (correction result)) ∧
    (∀ t, dot t n = 0 → dot (velocity (collideBox box b)) t = dot (velocity b) t).
Proof.
  intros Hfirst Hpos.
  destruct (collideBox_hit box b i Hfirst) as (s' & Hrun & Hpush & Hbody).
  set (p := samplePoint (collider b) i) in *.
  set (c := closestPoint (collider b) box i) in *.
  set (d := sampleDistance (collider b) box i) in *.
  assert (d = vlength (vsub p c)) as Hd by apply sampleDistance_eq.
  assert (vsub p c ≠ vzero) as Hne.
  { intros Hz. rewrite Hz in Hd. rewrite (proj2 (vlength_zero_iff vzero)) in Hd by done. lra. }
  assert (normalize (vsub p c) = divideScalar (vsub p c) d) as Hn.
  { unfold normalize, lengthOr1. rewrite <- Hd.
    destruct (Req_dec_T d 0); [lra|done]. }
  destruct Hfirst as (_ & Hhit & _). fold d in Hhit.
  exists s', {| correction := PushDir; normal := PushDir |}, (normalize (vsub p c)).
  assert (s' PushDir = multiplyScalar (normalize (vsub p c)) (cradius (collider b) - d)) as Hcorr.
  { rewrite Hpush. unfold pushOut. do 2 f_equal. }
  split_and!; try done.
  - by apply normalize_unit.
  - simpl. rewrite Hcorr, vlength_multiplyScalar by lra. rewrite normalize_unit by done. lra.
  - by rewrite Hbody.
  - intros t Ht. rewrite Hbody. simpl. rewrite Hcorr.
    apply dot_tangent. by rewrite dot_comm.
Qed.

Lemma samplePoint_0 capsule : samplePoint capsule 0 = cstart capsule.
Proof. unfold samplePoint. apply vector3_eq; simpl; lra. Qed.

Lemma clamp_inside lo hi v : lo <= v → v <= hi → Rmax lo (Rmin hi v) = v.
Proof. intros. rewrite Rmin_right by done. by rewrite Rmax_right. Qed.

Lemma clamp_above lo hi v : lo <= hi → hi <= v → Rmax lo (Rmin hi v) = hi.
Proof. intros. rewrite Rmin_left by done. by rewrite Rmax_right. Qed.

Lemma vlength_axis_y a : 0 <= a → vlength (mkVector3 0 a 0) = a.
Proof.
  intros Ha. unfold vlength. simpl.
  replace (0 * 0 + a * a + 0 * 0) with (a * a) by ring. by apply sqrt_square.
Qed.

Lemma cellBox_origin : cellBox 0 0 0 = mkBox3 (mkVector3 0 0 0) (mkVector3 1 1 1).
Proof.
  unfold cellBox, cellCentre, setFromCenterAndSize. simpl.
  f_equal; apply vector3_eq; simpl; lra.
Qed.

Lemma closestPoint_above :
  closestPoint capsuleAbove (cellBox 0 0 0) 0 = mkVector3 (1 / 2) 1 (1 / 2).
Proof.
  unfold closestPoint. rewrite samplePoint_0, cellBox_origin. unfold clampPoint. simpl.
  rewrite !clamp_inside by lra. rewrite clamp_above by lra. done.
Qed.

Lemma vsub_above :
  vsub (samplePoint capsuleAbove 0) (closestPoint capsuleAbove (cellBox 0 0 0) 0)
  = mkVector3 0 (1 / 5) 0.
Proof.
  rewrite samplePoint_0, closestPoint_above. apply vector3_eq; simpl; lra.
Qed.

Lemma sampleDistance_above : sampleDistance capsuleAbove (cellBox 0 0 0) 0 = 1 / 5.
Proof. rewrite sampleDistance_eq, vsub_above. apply vlength_axis_y. lra. Qed.

Lemma firstWithin_above : firstWithin capsuleAbove (cellBox 0 0 0) 0.
Proof.
  split_and!.
  - unfold steps. lia.
  - rewrite sampleDistance_above. unfold capsuleAbove, capsuleRadius. simpl. lra.
  - intros j Hj. lia.
Qed.

Lemma pushOut_above :
  pushOut (samplePoint capsuleAbove 0) (closestPoint capsuleAbove (cellBox 0 0 0) 0)
          (cradius capsuleAbove)
  = mkVector3 0 (3 / 20) 0.
Proof.
  unfold pushOut. fold (sampleDistance capsuleAbove (cellBox 0 0 0) 0).
  rewrite sampleDistance_above, vsub_above.
  unfold normalize, lengthOr1. rewrite vlength_axis_y by lra.
  destruct (Req_dec_T (1 / 5) 0); [lra|].
  unfold capsuleAbove, capsuleRadius. apply vector3_eq; simpl; field.
Qed.

Lemma specCorrection_above :
  specCorrection (samplePoint capsuleAbove 0) (closestPoint capsuleAbove (cellBox 0 0 0) 0)
                 (cradius capsuleAbove)
  = mkVector3 0 (- (3 / 20)) 0.
Proof.
  unfold specCorrection. fold (sampleDistance capsuleAbove (cellBox 0 0 0) 0).
  rewrite sampleDistance_above.
  assert (vsub (closestPoint capsuleAbove (cellBox 0 0 0) 0) (samplePoint capsuleAbove 0)
          = mkVector3 0 (- (1 / 5)) 0) as ->.
  { rewrite samplePoint_0, closestPoint_above. apply vector3_eq; simpl; lra. }
  assert (vlength (mkVector3 0 (- (1 / 5)) 0) = 1 / 5) as Hl.
  { unfold vlength. simpl.
    replace (0 * 0 + - (1 / 5) * - (1 / 5) + 0 * 0) with ((1 / 5) * (1 / 5)) by field.
    apply sqrt_square. lra. }
  unfold normalize, lengthOr1. rewrite Hl.
  destruct (Req_dec_T (1 / 5) 0); [lra|].
  unfold capsuleAbove, capsuleRadius. apply vector3_eq; simpl; field.
Qed.

Lemma sampleDistance_inside : sampleDistance capsuleInside (cellBox 0 0 0) 0 = 0.
Proof.
  rewrite sampleDistance_eq. unfold closestPoint.
  rewrite samplePoint_0, cellBox_origin. unfold clampPoint. simpl.
  rewrite !clamp_inside by lra. apply vlength_zero_iff. apply vector3_eq; simpl; lra.
Qed.

Lemma firstWithin_inside : firstWithin capsuleInside (cellBox 0 0 0) 0.
Proof.
  split_and!.
  - unfold steps. lia.
  - rewrite sampleDistance_inside. unfold capsuleInside, capsuleRadius. simpl. lra.
  - intros j Hj. lia.
Qed.

Lemma samplePoint_inside_3 :
  samplePoint capsuleInside 3 = mkVector3 (1 / 2) (11 / 10) (1 / 2).
Proof.
  unfold samplePoint, capsuleInside. cbn [cstart cend].
  assert (vsub (mkVector3 (1 / 2) (3 / 2) (1 / 2)) (mkVector3 (1 / 2) (1 / 2) (1 / 2))
          = mkVector3 0 1 0) as -> by (apply vector3_eq; simpl; lra).
  unfold normalize, lengthOr1. rewrite vlength_axis_y by lra.
  destruct (Req_dec_T 1 0); [lra|]. unfold steps.
  apply vector3_eq; simpl; field.
Qed.

Lemma sampleDistance_inside_3 : sampleDistance capsuleInside (cellBox 0 0 0) 3 = 1 / 10.
Proof.
  rewrite sampleDistance_eq. unfold closestPoint.
  rewrite samplePoint_inside_3, cellBox_origin. unfold clampPoint. simpl.
  rewrite !clamp_inside by lra. rewrite clamp_above by lra.
  assert (vsub (mkVector3 (1 / 2) (11 / 10) (1 / 2)) (mkVector3 (1 / 2) 1 (1 / 2))
          = mkVector3 0 (1 / 10) 0) as -> by (apply vector3_eq; simpl; lra).
  apply vlength_axis_y. lra.
Qed.

(** The sample that decides the step is the first within the radius,
    whatever its distance: on the capsule whose lower end is inside the
    cube, sample 3 is at distance 0.1, positive and below the radius, but
    sample 0, at distance 0, is the first within the radius, and the
    capsule and the velocity are left as they are. *)
Lemma later_sample_not_used :
  0 < sampleDistance capsuleInside (cellBox 0 0 0) 3 < cradius capsuleInside ∧
  firstWithin capsuleInside (cellBox 0 0 0) 0 ∧
  collider (collideBox (cellBox 0 0 0) bodyInside) = capsuleInside ∧
  velocity (collideBox (cellBox 0 0 0) bodyInside) = falling.
Proof.
  split.
  { rewrite sampleDistance_inside_3. unfold capsuleInside, capsuleRadius. simpl. lra. }
  split; [apply firstWithin_inside|].
  apply (collideBox_zero (cellBox 0 0 0) bodyInside 0);
    [apply firstWithin_inside|apply sampleDistance_inside].
Qed.

(** C3, as stated, fails: for a capsule standing 0.2 above the unit cube
    at the origin and falling at unit speed, the correction points from the
    closest point to the sample, away from the cube, not from the sample to
    the closest point, and the velocity along the push direction is not
    removed; and for a capsule whose lower end is inside the cube, the
    length of the correction is not the radius minus the distance. *)
Lemma push_out_towards_cube_refuted :
  (firstWithin capsuleInside (cellBox 0 0 0) 0 ∧
   ∃ s' result,
     capsuleIntersectCorrection capsuleInside (cellBox 0 0 0) (temps bodyInside)
       = (s', Some result) ∧
     vlength (s' (correction result))
       ≠ cradius capsuleInside - sampleDistance capsuleInside (cellBox 0 0 0) 0) ∧
  firstWithin capsuleAbove (cellBox 0 0 0) 0 ∧
  ∃ s' result,
    capsuleIntersectCorrection capsuleAbove (cellBox 0 0 0) (temps bodyAbove)
      = (s', Some result) ∧
    s' (correction result) = mkVector3 0 (3 / 20) 0 ∧
    specCorrection (samplePoint capsuleAbove 0) (closestPoint capsuleAbove (cellBox 0 0 0) 0)
                   (cradius capsuleAbove) = mkVector3 0 (- (3 / 20)) 0 ∧
    s' (correction result)
      ≠ specCorrection (samplePoint capsuleAbove 0)
                       (closestPoint capsuleAbove (cellBox 0 0 0) 0) (cradius capsuleAbove) ∧
    velocity (collideBox (cellBox 0 0 0) bodyAbove) = mkVector3 0 (- (391 / 400)) 0 ∧
    specVelocity falling
      (normalize (vsub (samplePoint capsuleAbove 0)
                       (closestPoint capsuleAbove (cellBox 0 0 0) 0))) = vzero ∧
    velocity (collideBox (cellBox 0 0 0) bodyAbove)
      ≠ specVelocity falling
          (normalize (vsub (samplePoint capsuleAbove 0)
                           (closestPoint capsuleAbove (cellBox 0 0 0) 0))).
Proof.
  split.
  { split; [apply firstWithin_inside|].
    destruct (collideBox_hit (cellBox 0 0 0) bodyInside 0 firstWithin_inside)
      as (s' & Hrun & Hpush & _).
    exists s', {| correction := PushDir; normal := PushDir |}. split; [exact Hrun|].
    cbn [correction]. rewrite Hpush, pushOut_zero by apply sampleDistance_inside.
    rewrite sampleDistance_inside, (proj2 (vlength_zero_iff vzero)) by done.
    unfold capsuleInside, capsuleRadius. simpl. lra. }
  set (b := bodyAbove). set (p := samplePoint capsuleAbove 0).
  set (c := closestPoint capsuleAbove (cellBox 0 0 0) 0).
  split; [apply firstWithin_above|].
  destruct (collideBox_hit (cellBox 0 0 0) b 0 firstWithin_above)
    as (s' & Hrun & Hpush & Hbody).
  change (collider b) with capsuleAbove in *. change (velocity b) with falling in *.
  fold p c in Hpush. unfold p, c in Hpush. rewrite pushOut_above in Hpush.
  exists s', {| correction := PushDir; normal := PushDir |}. cbn [correction normal].
  assert (velocity (collideBox (cellBox 0 0 0) b)
          = {| vx := 0; vy := - (391 / 400); vz := 0 |}) as Hv.
  { rewrite Hbody. simpl. rewrite Hpush. unfold falling, dot. apply vector3_eq; simpl; field. }
  assert (specVelocity falling (normalize (vsub p c)) = vzero) as Hspec.
  { subst p c. rewrite vsub_above. unfold normalize, lengthOr1.
    rewrite vlength_axis_y by lra. destruct (Req_dec_T (1 / 5) 0); [lra|].
    unfold specVelocity, falling, dot. apply vector3_eq; simpl; field. }
  split_and!; try done.
  - apply specCorrection_above.
  - subst p c. rewrite Hpush, specCorrection_above. intros [= H]. lra.
  - rewrite Hv, Hspec. intros [= H]. lra.
Qed.

(** C10 on a capsule whose lower end is the centre of the cube. *)
Lemma zero_distance_degeneracy_witness :
  firstWithin capsuleInside (cellBox 0 0 0) 0 ∧
  sampleDistance capsuleInside (cellBox 0 0 0) 0 = 0 ∧
  collider (collideBox (cellBox 0 0 0) bodyInside) = capsuleInside ∧
  velocity (collideBox (cellBox 0 0 0) bodyInside) = falling.
Proof.
  split; [apply firstWithin_inside|]. split; [apply sampleDistance_inside|].
  destruct (zero_distance_degeneracy (cellBox 0 0 0) bodyInside) as (_ & H & _).
  destruct (H 0%nat firstWithin_inside sampleDistance_inside)
    as (_ & _ & s' & result & _ & _ & _ & _ & Hc & Hv).
  done.
Defined.

(** The amended C3 on the capsule standing above the cube. *)
Lemma push_out_step_witness :
  firstWithin capsuleAbove (cellBox 0 0 0) 0 ∧
  0 < sampleDistance capsuleAbove (cellBox 0 0 0) 0 ∧
  ∃ v, collider (collideBox (cellBox 0 0 0) bodyAbove) = translate capsuleAbove v ∧
       vlength v = cradius capsuleAbove - sampleDistance capsuleAbove (cellBox 0 0 0) 0.
Proof.
  split; [apply firstWithin_above|].
  assert (0 < sampleDistance capsuleAbove (cellBox 0 0 0) 0) as Hpos
    by (rewrite sampleDistance_above; lra).
  split; [done|].
  destruct (push_out_step (cellBox 0 0 0) bodyAbove 0%nat firstWithin_above Hpos)
    as (s' & result & n & _ & _ & _ & _ & Hlen & Hc & _).
  by exists (s' (correction result)).
Defined.

(** * Further properties of the collisions and of the player *)

(** ** The collision pass *)

Lemma resolveCollisions_fold w b :
  resolveCollisions w b
  = (foldl (λ st c, visitCell w c st) (∅, b) (scannedCells (collider b))).2.
Proof. reflexivity. Qed.

Lemma translate_translate c v v' : translate (translate c v) v' = translate c (vadd v v').
Proof. unfold translate. simpl. f_equal; apply vector3_eq; simpl; lra. Qed.

Lemma collideBox_translates box b :
  ∃ v, collider (collideBox box b) = translate (collider b) v.
Proof.
  unfold collideBox. destruct (capsuleIntersectCorrection _ _ _) as [s [result|]].
  - by eexists.
  - exists vzero. simpl. by rewrite translate_zero.
Qed.

Lemma visitCell_translates w c visited b :
  ∃ v, collider (visitCell w c (visited, b)).2 = translate (collider b) v.
Proof.
  destruct c as [[x y] z]. unfold visitCell.
  assert (∃ v, collider b = translate (collider b) v) as Hsame
    by (exists vzero; by rewrite translate_zero).
  destruct (getChunkRecordAtCell x y z w) as [rec|]; [|done].
  case_decide; [done|]. case_decide; [|done].
  cbn [snd].
  destruct (collideBox_translates
              (setFromCenterAndSize
                 (vset (vset (temps b) TmpPos (cellCentre x y z)) TmpVec (mkVector3 1 1 1) TmpPos)
                 (vset (vset (temps b) TmpPos (cellCentre x y z)) TmpVec (mkVector3 1 1 1) TmpVec))
              (mkBody (collider b) (velocity b)
                 (vset (vset (temps b) TmpPos (cellCentre x y z)) TmpVec (mkVector3 1 1 1))))
    as [v Hv].
  exists v. exact Hv.
Qed.

Lemma fold_translates w cells : ∀ visited b,
  ∃ v, collider (foldl (λ st c, visitCell w c st) (visited, b) cells).2
       = translate (collider b) v.
Proof.
  induction cells as [|c cells IH]; intros visited b.
  - exists vzero. simpl. by rewrite translate_zero.
  - cbn [foldl]. destruct (visitCell_translates w c visited b) as [v Hv].
    destruct (visitCell w c (visited, b)) as [visited1 b1]. simpl in Hv.
    destruct (IH visited1 b1) as [v' Hv']. exists (vadd v v').
    by rewrite Hv', Hv, translate_translate.
Qed.

Lemma resolveCollisions_rigid w b :
  ∃ v, collider (resolveCollisions w b) = translate (collider b) v.
Proof. rewrite resolveCollisions_fold. apply fold_translates. Qed.

(** X21.  The collision pass moves the capsule rigidly: whatever the world,
    the capsule after [resolveCollisions] is the capsule before translated
    by one vector (the sum of the corrections applied); its radius and the
    vector from its lower to its upper end are unchanged. *)
Theorem resolveCollisions_translates w b :
  ∃ v, collider (resolveCollisions w b) = translate (collider b) v ∧
       cradius (collider (resolveCollisions w b)) = cradius (collider b) ∧
       vsub (cend (collider (resolveCollisions w b))) (cstart (collider (resolveCollisions w b)))
       = vsub (cend (collider b)) (cstart (collider b)).
Proof.
  destruct (resolveCollisions_rigid w b) as [v Hv].
  exists v. rewrite Hv. split; [done|]. split; [done|].
  apply vector3_eq; simpl; lra.
Qed.

(** X22.  Nothing in reach: when no cell that the pass scans around the
    capsule is occupied in a resident chunk, [resolveCollisions] returns the
    body it was given: capsule, velocity and shared vectors. *)
Theorem resolveCollisions_clear w b :
  (∀ x y z rec, (x, y, z) ∈ scannedCells (collider b) →
     getChunkRecordAtCell x y z w = Some rec → occupancy rec !! (x, y, z) = None) →
  resolveCollisions w b = b.
Proof.
  rewrite resolveCollisions_fold. generalize (scannedCells (collider b)) as cells.
  intros cells Hfree.
  assert (∀ visited, ∃ visited',
            foldl (λ st c, visitCell w c st) (visited, b) cells = (visited', b)) as H.
  { induction cells as [|[[x y] z] cells IH]; intros visited; [by eexists|].
    cbn [foldl].
    assert (∃ visited1, visitCell w (x, y, z) (visited, b) = (visited1, b)) as [visited1 ->].
    { unfold visitCell. destruct (getChunkRecordAtCell x y z w) as [rec|] eqn:Hrec; [|by eexists].
      case_decide; [by eexists|]. rewrite getCellKey_cellPos.
      rewrite (Hfree x y z rec); [|by left|done].
      rewrite decide_False by (by intros []). by eexists. }
    apply IH. intros x' y' z' rec' Hin. apply Hfree. by right. }
  destruct (H ∅) as [visited' ->]. done.
Qed.

(** X22 in the initial world, where no chunk is resident. *)
Lemma resolveCollisions_clear_witness : resolveCollisions initialWorld bodyAbove = bodyAbove.
Proof.
  apply resolveCollisions_clear. intros x y z rec _.
  unfold getChunkRecordAtCell. cbn [chunks initialWorld]. by rewrite lookup_empty.
Defined.

Lemma collideBox_sameMotion box b b' :
  sameMotion b b' → sameMotion (collideBox box b) (collideBox box b').
Proof.
  intros [Hc Hv]. unfold sameMotion.
  destruct (firstWithin_dec (collider b) box) as [[i Hfirst]|Hnone].
  - pose proof Hfirst as Hfirst'. rewrite Hc in Hfirst'.
    destruct (collideBox_hit box b i Hfirst) as (s & _ & Hpush & ->).
    destruct (collideBox_hit box b' i Hfirst') as (s' & _ & Hpush' & ->).
    split; simpl; by rewrite Hpush, Hpush', Hc, ?Hv.
  - pose proof Hnone as Hnone'. rewrite Hc in Hnone'.
    destruct (collideBox_miss box b Hnone) as [-> ->].
    destruct (collideBox_miss box b' Hnone') as [-> ->]. done.
Qed.

Lemma visitCell_sameMotion w c visited b b' :
  sameMotion b b' →
  (visitCell w c (visited, b)).1 = (visitCell w c (visited, b')).1 ∧
  sameMotion (visitCell w c (visited, b)).2 (visitCell w c (visited, b')).2.
Proof.
  intros Hsame. destruct c as [[x y] z]. unfold visitCell.
  destruct (getChunkRecordAtCell x y z w) as [rec|]; [|done].
  case_decide; [done|]. case_decide; [|done]. cbn [fst snd]. split; [done|].
  rewrite !vset_eq. rewrite !(vset_ne _ TmpVec TmpPos) by done. rewrite !vset_eq.
  destruct Hsame as [Hc Hv]. apply collideBox_sameMotion. by split.
Qed.

(** X23.  Stale temporaries do not matter: the capsule and the velocity
    after [resolveCollisions] are the same whatever the shared vectors
    [tmpVec], [tmpVec2], [tmpClosest] and [tmpPos] held before the call. *)
Theorem resolveCollisions_temps w b s :
  collider (resolveCollisions w (mkBody (collider b) (velocity b) s))
    = collider (resolveCollisions w b) ∧
  velocity (resolveCollisions w (mkBody (collider b) (velocity b) s))
    = velocity (resolveCollisions w b).
Proof.
  rewrite !resolveCollisions_fold. cbn [collider].
  generalize (scannedCells (collider b)) as cells. intros cells.
  assert (sameMotion (mkBody (collider b) (velocity b) s) b) as Hsame by done.
  revert Hsame. generalize (mkBody (collider b) (velocity b) s) as b'.
  generalize (∅ : gset (Z * Z * Z)) as visited. revert b.
  induction cells as [|c cells IH]; intros b visited b' Hsame.
  - simpl. destruct Hsame. done.
  - cbn [foldl]. destruct (visitCell_sameMotion w c visited b' b Hsame) as [Hvis Hs].
    destruct (visitCell w c (visited, b')) as [v1 b1].
    destruct (visitCell w c (visited, b)) as [v2 b2]. simpl in Hvis, Hs. subst v2.
    by apply IH.
Qed.

Lemma dot_self_nonneg v : 0 <= dot v v.
Proof. unfold dot. nra. Qed.

Lemma vlength_le a b : dot a a <= dot b b → vlength a <= vlength b.
Proof. intros H. unfold vlength. apply sqrt_le_1_alt. exact H. Qed.

Lemma deflect_le v u :
  dot u u <= 2 → vlength (vsub v (multiplyScalar u (dot v u))) <= vlength v.
Proof.
  intros Hu. apply vlength_le.
  assert (dot (vsub v (multiplyScalar u (dot v u))) (vsub v (multiplyScalar u (dot v u)))
          = dot v v - (2 - dot u u) * (dot v u * dot v u)) as ->.
  { unfold dot. simpl. ring. }
  assert (0 <= dot v u * dot v u) by nra. nra.
Qed.

Lemma normalize_le v : vlength (normalize v) <= 1.
Proof.
  destruct (Req_dec_T (vlength v) 0) as [Hz|Hnz].
  - apply vlength_zero_iff in Hz as ->. rewrite normalize_zero.
    rewrite (proj2 (vlength_zero_iff vzero)) by done. lra.
  - rewrite normalize_unit; [lra|]. intros ->. apply Hnz. by apply vlength_zero_iff.
Qed.

Lemma pushOut_length p c r :
  distanceTo c p < r → vlength (pushOut p c r) <= r.
Proof.
  intros Hd. unfold pushOut. pose proof (vlength_nonneg (vsub c p)) as Hnn.
  fold (distanceTo c p) in Hnn.
  rewrite vlength_multiplyScalar by lra.
  pose proof (normalize_le (vsub p c)). pose proof (vlength_nonneg (normalize (vsub p c))).
  nra.
Qed.

Lemma collideBox_speed box b :
  cradius (collider b) <= 1 →
  vlength (velocity (collideBox box b)) <= vlength (velocity b).
Proof.
  intros Hr. destruct (firstWithin_dec (collider b) box) as [[i Hfirst]|Hnone].
  - destruct (collideBox_hit box b i Hfirst) as (s' & _ & Hpush & ->). simpl.
    apply deflect_le. rewrite <- vlength_sqr.
    destruct Hfirst as (_ & Hhit & _).
    pose proof (pushOut_length _ _ _ Hhit) as Hle. rewrite <- Hpush in Hle.
    pose proof (vlength_nonneg (s' PushDir)). nra.
  - destruct (collideBox_miss box b Hnone) as [_ ->]. lra.
Qed.

Lemma visitCell_speed w c visited b :
  cradius (collider b) <= 1 →
  vlength (velocity (visitCell w c (visited, b)).2) <= vlength (velocity b) ∧
  cradius (collider (visitCell w c (visited, b)).2) = cradius (collider b).
Proof.
  intros Hr. split.
  - destruct c as [[x y] z]. unfold visitCell.
    destruct (getChunkRecordAtCell x y z w) as [rec|]; [|simpl; lra].
    case_decide; [simpl; lra|]. case_decide; [|simpl; lra].
    cbn [snd].
    apply (collideBox_speed _ (mkBody (collider b) (velocity b) _)). exact Hr.
  - destruct (visitCell_translates w c visited b) as [v ->]. done.
Qed.

(** X24.  Collisions never speed the player up: for a capsule of radius at
    most 1 (the player's is 0.35), the length of the velocity after
    [resolveCollisions] is at most its length before, in every world. *)
Theorem resolveCollisions_speed w b :
  cradius (collider b) <= 1 →
  vlength (velocity (resolveCollisions w b)) <= vlength (velocity b).
Proof.
  rewrite resolveCollisions_fold. generalize (scannedCells (collider b)) as cells.
  intros cells. generalize (∅ : gset (Z * Z * Z)) as visited. revert b.
  induction cells as [|c cells IH]; intros b visited Hr; [simpl; lra|].
  cbn [foldl]. destruct (visitCell_speed w c visited b Hr) as [Hv Hrad].
  destruct (visitCell w c (visited, b)) as [visited1 b1]. simpl in Hv, Hrad.
  eapply Rle_trans; [apply IH; lra|]. exact Hv.
Qed.

(** X24 on the falling body above the cube. *)
Lemma resolveCollisions_speed_witness :
  vlength (velocity (resolveCollisions initialWorld bodyAbove)) <= vlength (velocity bodyAbove).
Proof.
  apply resolveCollisions_speed. unfold bodyAbove, capsuleAbove, capsuleRadius. simpl. lra.
Defined.

(** ** After the push *)

Lemma samplePoint_translate capsule v i :
  samplePoint (translate capsule v) i = vadd (samplePoint capsule i) v.
Proof.
  unfold samplePoint, translate. simpl.
  assert (vsub (vadd (cend capsule) v) (vadd (cstart capsule) v)
          = vsub (cend capsule) (cstart capsule)) as -> by (apply vector3_eq; simpl; lra).
  apply vector3_eq; simpl; lra.
Qed.

Lemma clamp_ray lo hi p k :
  lo <= hi → 0 <= k →
  Rmax lo (Rmin hi (p + (p - Rmax lo (Rmin hi p)) * k)) = Rmax lo (Rmin hi p).
Proof.
  intros Hlh Hk. unfold Rmax, Rmin.
  destruct (Rle_dec hi p) as [H1|H1].
  - destruct (Rle_dec lo hi); [|lra].
    assert (hi <= p + (p - hi) * k) by nra.
    destruct (Rle_dec hi (p + (p - hi) * k)); [|lra].
    destruct (Rle_dec lo hi); lra.
  - destruct (Rle_dec lo p) as [H2|H2].
    + replace (p + (p - p) * k) with p by ring.
      destruct (Rle_dec hi p); [lra|]. destruct (Rle_dec lo p); lra.
    + assert (p + (p - lo) * k <= p) by nra.
      destruct (Rle_dec hi (p + (p - lo) * k)); [lra|].
      destruct (Rle_dec lo (p + (p - lo) * k)); lra.
Qed.

Lemma clampPoint_ray box p k :
  boxOrdered box → 0 <= k →
  clampPoint box (vadd p (multiplyScalar (vsub p (clampPoint box p)) k)) = clampPoint box p.
Proof.
  intros (Hx & Hy & Hz) Hk. unfold clampPoint. simpl. by rewrite !clamp_ray.
Qed.

Lemma pushOut_pos p c r :
  0 < distanceTo c p →
  pushOut p c r = multiplyScalar (vsub p c) ((r - distanceTo c p) / distanceTo c p).
Proof.
  intros Hd. unfold pushOut, normalize, divideScalar, lengthOr1.
  assert (vlength (vsub p c) = distanceTo c p) as -> by (symmetry; apply distanceTo_sym).
  generalize dependent (distanceTo c p). intros d Hd.
  destruct (Req_dec_T d 0); [lra|].
  apply vector3_eq; simpl; field; lra.
Qed.

Lemma pushed_distance p c r :
  0 < distanceTo c p → distanceTo c p < r →
  vlength (vsub (vadd p (pushOut p c r)) c) = r.
Proof.
  intros Hd Hr. rewrite pushOut_pos by done.
  assert (vlength (vsub p c) = distanceTo c p) as Hl by (symmetry; apply distanceTo_sym).
  generalize dependent (distanceTo c p). intros d Hd Hr Hl.
  assert (vsub (vadd p (multiplyScalar (vsub p c) ((r - d) / d))) c
          = multiplyScalar (vsub p c) (r / d)) as ->.
  { apply vector3_eq; simpl; field; lra. }
  rewrite vlength_multiplyScalar.
  - rewrite Hl. field. lra.
  - apply Rlt_le, Rdiv_lt_0_compat; lra.
Qed.

Lemma cellBox_ordered x y z : boxOrdered (cellBox x y z).
Proof. unfold boxOrdered, cellBox, setFromCenterAndSize. simpl. lra. Qed.

(** X25.  After the push the sample sits at the radius: when sample [i] is
    the first within the radius of a box whose corners are in order, at a
    positive distance, then after the collision step the same sample of the
    moved capsule has the same closest point on the box and lies at
    distance exactly [radius] from it. *)
Theorem push_out_reaches_radius box b i :
  boxOrdered box → firstWithin (collider b) box i → 0 < sampleDistance (collider b) box i →
  closestPoint (collider (collideBox box b)) box i = closestPoint (collider b) box i ∧
  sampleDistance (collider (collideBox box b)) box i = cradius (collider b).
Proof.
  intros Hbox Hfirst Hpos.
  destruct (collideBox_hit box b i Hfirst) as (s' & _ & Hpush & ->). cbn [collider].
  destruct Hfirst as (_ & Hhit & _). unfold sampleDistance in Hhit, Hpos.
  assert (closestPoint (translate (collider b) (s' PushDir)) box i
          = closestPoint (collider b) box i) as Hc.
  { unfold closestPoint at 1. rewrite samplePoint_translate, Hpush, pushOut_pos by done.
    unfold closestPoint in *. apply clampPoint_ray; [done|].
    apply Rlt_le, Rdiv_lt_0_compat; lra. }
  split; [done|].
  rewrite sampleDistance_eq, Hc, samplePoint_translate, Hpush.
  by apply pushed_distance.
Qed.

(** X25 on the capsule 0.2 above the unit cube at the origin. *)
Lemma push_out_reaches_radius_witness :
  sampleDistance (collider (collideBox (cellBox 0 0 0) bodyAbove)) (cellBox 0 0 0) 0
  = cradius (collider bodyAbove).
Proof.
  destruct (push_out_reaches_radius (cellBox 0 0 0) bodyAbove 0) as [_ H].
  - apply cellBox_ordered.
  - exact firstWithin_above.
  - change (collider bodyAbove) with capsuleAbove. rewrite sampleDistance_above. lra.
  - exact H.
Defined.

(** ** The player *)

Lemma normalize_axes x z :
  vlength (normalize (mkVector3 x 0 z))
  = (if Req_dec_T x 0 then if Req_dec_T z 0 then 0 else 1 else 1).
Proof.
  destruct (Req_dec_T x 0) as [->|Hxn].
  - destruct (Req_dec_T z 0) as [->|Hzn].
    + change (mkVector3 0 0 0) with vzero. rewrite normalize_zero.
      by apply vlength_zero_iff.
    + apply normalize_unit. intros [= ?]. done.
  - apply normalize_unit. intros [= ? ?]. done.
Qed.

Lemma direction_zero move :
  forward move = backward move → moveLeft move = moveRight move → direction move = vzero.
Proof.
  intros Hfb Hlr. unfold direction. rewrite Hfb, Hlr.
  assert (∀ x z, x = 0 → z = 0 → normalize (mkVector3 x 0 z) = vzero) as H.
  { intros x z -> ->. apply normalize_zero. }
  apply H; [destruct (moveRight move) | destruct (backward move)]; lra.
Qed.

(** X26.  The wish direction is horizontal and has length 1, so that moving
    diagonally is not faster than moving along an axis, except that it is
    the zero vector when the keys held cancel (forward with backward, left
    with right, or none held): normalizing the zero vector gives the zero
    vector. *)
Theorem direction_length move :
  vy (direction move) = 0 ∧
  vlength (direction move)
  = (if bool_decide (forward move = backward move ∧ moveLeft move = moveRight move)
     then 0 else 1).
Proof.
  split.
  - unfold direction, normalize, divideScalar, multiplyScalar. simpl. lra.
  - unfold direction. rewrite normalize_axes.
    destruct move as [[] [] [] []]; simpl;
      repeat (destruct (Req_dec_T _ _); try lra);
      (rewrite bool_decide_eq_true_2 by done)
      || (rewrite bool_decide_eq_false_2 by (intros [? ?]; done));
      done.
Qed.

(** X27.  With no net key input and a rotation that fixes the zero vector,
    the first part of a frame multiplies the horizontal velocity by
    [1 - 10 * delta] and lowers the vertical velocity by [gravity * delta];
    so the horizontal speed does not grow exactly when the frame lasts at
    most 0.2 seconds (or the player has no horizontal velocity): a longer
    frame reverses and amplifies it. *)
Theorem integrate_idle rotate sprinting delta p move :
  forward move = backward move → moveLeft move = moveRight move →
  rotate vzero = vzero →
  vx (velocity (integrate rotate move sprinting delta p))
    = vx (velocity (body p)) * (1 - 10 * delta) ∧
  vz (velocity (integrate rotate move sprinting delta p))
    = vz (velocity (body p)) * (1 - 10 * delta) ∧
  vy (velocity (integrate rotate move sprinting delta p))
    = vy (velocity (body p)) - gravity * delta ∧
  (Rabs (vx (velocity (integrate rotate move sprinting delta p)))
     <= Rabs (vx (velocity (body p))) ↔
   vx (velocity (body p)) = 0 ∨ 0 <= delta <= 2 / 10).
Proof.
  intros Hfb Hlr Hrot. unfold integrate. rewrite (direction_zero move Hfb Hlr).
  cbn [vx vy vz vzero velocity]. rewrite vset_eq.
  change (mkVector3 0 0 0) with vzero. rewrite Hrot. cbn [vx vy vz vzero].
  assert (∀ v speed, v + 0 * speed * delta - (v + 0 * speed * delta) * 10 * delta
                     = v * (1 - 10 * delta)) as H by (intros; ring).
  rewrite !H. split_and!; try done.
  rewrite Rabs_mult. generalize (vx (velocity (body p))) as v. intros v.
  unfold Rabs. repeat destruct (Rcase_abs _); split; intros; try nra.
  all: destruct (Req_dec_T v 0); [by left|right]; nra.
Qed.

(** X27 on a frame of one sixtieth of a second, no key held, the camera not
    turned. *)
Lemma integrate_idle_witness :
  vy (velocity (integrate (λ v, v) noKeys false (1 / 60) playerAbove))
  = vy (velocity (body playerAbove)) - gravity * (1 / 60).
Proof.
  destruct (integrate_idle (λ v, v) false (1 / 60) playerAbove noKeys) as (_ & _ & H & _);
    [reflexivity|reflexivity|reflexivity|exact H].
Defined.

Lemma groundCheck_spec w start vely cells : ∀ s,
  (groundCheck w start vely cells s).2 = true ↔
  vely <= 0 ∧ ∃ c, c ∈ cells ∧ supports w start c.
Proof.
  induction cells as [|[[x y] z] cells IH]; intros s.
  - simpl. split; [done|]. by intros (_ & c & ?%elem_of_nil & _).
  - cbn [groundCheck].
    assert (¬ (vely <= 0 ∧ supports w start (x, y, z)) →
            ∀ s', (groundCheck w start vely cells s').2 = true ↔
                  vely <= 0 ∧ ∃ c, c ∈ (x, y, z) :: cells ∧ supports w start c) as Hrest.
    { intros Hno s'. rewrite IH. split.
      - intros (Hv & c & Hc & Hsup). split; [done|]. exists c. split; [by right|done].
      - intros (Hv & c & Hc & Hsup). split; [done|]. apply elem_of_cons in Hc as [->|Hc].
        + exfalso. by apply Hno.
        + by exists c. }
    unfold supports at 1 in Hrest. simpl in Hrest.
    destruct (getChunkRecordAtCell x y z w) as [rec|] eqn:Hrec.
    2: { apply Hrest. by intros (_ & rec & [=] & _). }
    rewrite getCellKey_cellPos. case_decide as Hocc.
    2: { apply Hrest. intros (_ & rec' & [= <-] & ? & _). done. }
    rewrite !vset_eq. rewrite !vset_ne by done. rewrite vset_eq.
    fold (cellBox x y z).
    destruct (Rle_dec _ _) as [Hd|Hd].
    2: { apply Hrest. intros (_ & rec' & _ & _ & ?). done. }
    destruct (Rle_dec vely 0) as [Hv|Hv].
    2: { apply Hrest. by intros (? & _). }
    simpl. split; [|done]. intros _. split; [done|]. exists (x, y, z). split; [by left|].
    exists rec. done.
Qed.

(** X28.  What a frame guarantees.  With the controls unlocked the block
    leaves the player as it is.  With the controls locked, whatever the
    keys, the frame time, the rotation and the world: the camera ends at
    height [eyeHeight] or more; [canJump] holds only with a vertical
    velocity of zero; the radius of the capsule is unchanged; and the
    capsule is vertical, its ends [capsuleHeight - capsuleRadius] apart. *)
Theorem animatePlayer_frame rotate isLocked move sprinting delta w p :
  (isLocked = false → animatePlayer rotate isLocked move sprinting delta w p = p) ∧
  (isLocked = true →
     eyeHeight <= vy (cameraPosition (animatePlayer rotate isLocked move sprinting delta w p)) ∧
     (canJump (animatePlayer rotate isLocked move sprinting delta w p) = true →
        vy (velocity (body (animatePlayer rotate isLocked move sprinting delta w p))) = 0) ∧
     cradius (collider (body (animatePlayer rotate isLocked move sprinting delta w p)))
       = cradius (collider (body p)) ∧
     vsub (cend (collider (body (animatePlayer rotate isLocked move sprinting delta w p))))
          (cstart (collider (body (animatePlayer rotate isLocked move sprinting delta w p))))
       = mkVector3 0 (capsuleHeight - capsuleRadius) 0).
Proof.
  split; [by intros ->|]. intros ->. unfold animatePlayer.
  destruct (resolveCollisions_rigid w (integrate rotate move sprinting delta p)) as (v & Hv).
  set (b := resolveCollisions w (integrate rotate move sprinting delta p)) in *.
  destruct (groundCheck w (cstart (collider b)) (vy (velocity b)) (scannedCells (collider b))
              (temps b)) as [s grounded] eqn:Hground.
  assert (grounded = true → vy (velocity b) <= 0) as Hfall.
  { intros ->.
    pose proof (proj1 (groundCheck_spec w (cstart (collider b)) (vy (velocity b))
                          (scannedCells (collider b)) (temps b))) as H.
    rewrite Hground in H. by apply H. }
  assert (vsub (cend (collider b)) (cstart (collider b))
          = mkVector3 0 (capsuleHeight - capsuleRadius) 0) as Hax.
  { rewrite Hv. unfold integrate. simpl. apply vector3_eq; simpl; lra. }
  assert (cradius (collider b) = cradius (collider (body p))) as Hrad by (by rewrite Hv).
  destruct (Rlt_dec (vy (cend (collider b))) eyeHeight) as [Hlow|Hhigh]; simpl.
  - split_and!; try done; try lra.
  - split_and!; try done; try lra.
    intros ->. simpl. specialize (Hfall eq_refl). unfold Rmax.
    destruct (Rle_dec 0 (vy (velocity b))); lra.
Qed.

(** X29.  When the player may jump: after a locked frame [canJump] holds
    exactly when the upper end of the capsule, after the collisions, is
    below [eyeHeight], or the player is not rising and one of the cells
    scanned around the capsule is occupied in a resident chunk and within
    [capsuleRadius + 0.01] of the lower end of the capsule. *)
Theorem animatePlayer_canJump rotate move sprinting delta w p :
  canJump (animatePlayer rotate true move sprinting delta w p) = true ↔
  vy (cend (collider (resolveCollisions w (integrate rotate move sprinting delta p))))
    < eyeHeight ∨
  (vy (velocity (resolveCollisions w (integrate rotate move sprinting delta p))) <= 0 ∧
   ∃ c, c ∈ scannedCells (collider (resolveCollisions w (integrate rotate move sprinting delta p))) ∧
        supports w (cstart (collider (resolveCollisions w (integrate rotate move sprinting delta p)))) c).
Proof.
  unfold animatePlayer.
  set (b := resolveCollisions w (integrate rotate move sprinting delta p)) in *.
  pose proof (groundCheck_spec w (cstart (collider b)) (vy (velocity b))
                (scannedCells (collider b)) (temps b)) as H.
  destruct (groundCheck w (cstart (collider b)) (vy (velocity b)) (scannedCells (collider b))
              (temps b)) as [s grounded] eqn:Hground.
  simpl in H. destruct (Rlt_dec (vy (cend (collider b))) eyeHeight) as [Hlow|Hhigh]; simpl.
  - split; [by left|done].
  - rewrite H. split; [by right|]. by intros [?|?].
Qed.


Close Scope R_scope.
